(** * Simple Grid Snap: a shallow embedding of [operators.py]

    The add-on's numeric core ([_round_to_step], [_remainder_to_grid],
    [_selection_has_any_on_grid]) and the operators built on it
    ([HG_OT_move], [HG_OT_rotate], [HG_OT_scale], [HG_OT_quantize_to_grid],
    [HG_OT_grid_step_down], [HG_OT_grid_step_up]) are transcribed function
    by function.  Python floats are IEEE binary64 values, so they are
    modelled by Rocq's primitive [float]; Python integers are [Z]. *)

From Stdlib Require Import ZArith Floats Bool Lia List.
From stdpp Require Import base list.
Import ListNotations.

Local Open Scope Z_scope.

(** ** Python values and exceptions *)

Module Py.

(** The exceptions the modelled code can raise. *)
Inductive exn : Type :=
| ValueError        (* round(nan), Matrix.inverted() of a singular matrix *)
| OverflowError     (* round(inf), int too large for a float *)
| AttributeError.   (* attribute access on None *)

Inductive result (A : Type) : Type :=
| Ok (a : A)
| Raise (e : exn).
Arguments Ok {A} a.
Arguments Raise {A} e.

Definition rbind {A B} (r : result A) (k : A -> result B) : result B :=
  match r with
  | Ok a => k a
  | Raise e => Raise e
  end.

Definition is_ok {A} (r : result A) : bool :=
  match r with Ok _ => true | Raise _ => false end.

(** ** Float literals of the source, as binary64 values *)

Definition f_0_0 : float := 0x0p+0%float.
Definition f_0_5 : float := 0x1p-1%float.
Definition f_1_0 : float := 0x1p+0%float.
Definition f_2_0 : float := 0x1p+1%float.
Definition f_1em5 : float := 0x1.4f8b588e368f1p-17%float.   (* 1e-5 *)
Definition f_1em6 : float := 0x1.0c6f7a0b5ed8dp-20%float.   (* 1e-6 *)
Definition f_1e6 : float := 0x1.e848p+19%float.             (* 1e6 *)
Definition f_15_0 : float := 0x1.ep+3%float.                (* 15.0 *)
Definition f_180_0 : float := 0x1.68p+7%float.              (* 180.0 *)
Definition f_pi : float := 0x1.921fb54442d18p+1%float.      (* math.pi *)

(** [math.isfinite]. *)
Definition isfinite (x : float) : bool := PrimFloat.is_finite x.

(** The integer nearest to [m * 2^e], a tie going to the even one. *)
Definition round_half_even (m : positive) (e : Z) : Z :=
  match e with
  | Zneg p =>
      let d := 2 ^ Zpos p in
      let q := Zpos m / d in
      let r := Zpos m mod d in
      match 2 * r ?= d with
      | Lt => q
      | Eq => if Z.even q then q else q + 1
      | Gt => q + 1
      end
  | _ => Zpos m * 2 ^ e
  end.

(** The builtin [round] with one float argument: the nearest integer,
    ties to even, as a Python [int]; [ValueError] on NaN and
    [OverflowError] on an infinity. *)
Definition round (x : float) : result Z :=
  match Prim2SF x with
  | S754_nan => Raise ValueError
  | S754_infinity _ => Raise OverflowError
  | S754_zero _ => Ok 0
  | S754_finite s m e => Ok (cond_Zopp s (round_half_even m e))
  end.

(** Conversion of an [int] operand to [float] in mixed arithmetic:
    correctly rounded, [OverflowError] when out of range. *)
Definition float_of_int (k : Z) : result float :=
  match binary_normalize prec emax k 0 false with
  | S754_infinity _ => Raise OverflowError
  | sf => Ok (SF2Prim sf)
  end.

(** [k * s] for an [int] [k] and a [float] [s]. *)
Definition int_mul_float (k : Z) (s : float) : result float :=
  rbind (float_of_int k) (fun kf => Ok (PrimFloat.mul kf s)).

(** The builtins [max] and [min] on two arguments: the first argument is
    kept unless the second compares strictly greater (smaller). *)
Definition max2 (a b : float) : float := if PrimFloat.ltb a b then b else a.
Definition min2 (a b : float) : float := if PrimFloat.ltb b a then b else a.

(** [max(a, b, c, d)]: a left-to-right scan with the same comparison. *)
Definition max4 (a b c d : float) : float := max2 (max2 (max2 a b) c) d.
Definition max3 (a b c : float) : float := max2 (max2 a b) c.

End Py.

Import Py.

Declare Scope py_scope.
Delimit Scope py_scope with py.
Notation "'let*' x ':=' r 'in' k" := (rbind r (fun x => k))
  (at level 10, x name, r at level 100, k at level 200) : py_scope.
Local Open Scope py_scope.

(** ** The numeric helpers of [operators.py] *)

(** [mathutils.Vector], read through its [x], [y], [z] attributes. *)
Record Vector : Type := mkVector { vx : float; vy : float; vz : float }.

(** [_round_to_step(x, s)]. *)
Definition _round_to_step (x s : float) : result float :=
  if PrimFloat.leb s f_0_0 || negb (isfinite x) then Ok x
  else
    let* k := Py.round (PrimFloat.div x s) in
    int_mul_float k s.

(** [_quantize_vector_world(vec, step)]: the three components are evaluated
    left to right, then the vector is built. *)
Definition _quantize_vector_world (vec : Vector) (step : float) : result Vector :=
  let* qx := _round_to_step (vx vec) step in
  let* qy := _round_to_step (vy vec) step in
  let* qz := _round_to_step (vz vec) step in
  Ok (mkVector qx qy qz).

(** [_remainder_to_grid(x, step)]. *)
Definition _remainder_to_grid (x step : float) : result float :=
  if PrimFloat.leb step f_0_0 then Ok f_0_0
  else
    let* k := Py.round (PrimFloat.div x step) in
    let* ks := int_mul_float k step in
    Ok (PrimFloat.abs (PrimFloat.sub x ks)).

(** [_vec_remainder_to_grid(v, step)]. *)
Definition _vec_remainder_to_grid (v : Vector) (step : float)
  : result (float * float * float) :=
  let* rx := _remainder_to_grid (vx v) step in
  let* ry := _remainder_to_grid (vy v) step in
  let* rz := _remainder_to_grid (vz v) step in
  Ok (rx, ry, rz).

(** [eps = max(1e-5, step * 1e-6)]. *)
Definition grid_eps (step : float) : float :=
  max2 f_1em5 (PrimFloat.mul step f_1em6).

(** [rx <= eps and ry <= eps and rz <= eps]. *)
Definition within_eps (eps : float) (r : float * float * float) : bool :=
  let '(rx, ry, rz) := r in
  PrimFloat.leb rx eps && PrimFloat.leb ry eps && PrimFloat.leb rz eps.

(** The scanning loop shared by the OBJECT and EDIT_MESH branches of
    [_selection_has_any_on_grid], over the world-space points [w] the
    branch visits in order; it returns the final [(any_on, max_r)]. *)
Fixpoint scan_on_grid (eps step : float) (pts : list Vector) (max_r : float)
  : result (bool * float) :=
  match pts with
  | [] => Ok (false, max_r)
  | w :: rest =>
      let* r := _vec_remainder_to_grid w step in
      let '(rx, ry, rz) := r in
      let max_r := max4 max_r rx ry rz in
      if within_eps eps r then Ok (true, max_r)
      else scan_on_grid eps step rest max_r
  end.

(** ** Stateful code

    A state in, a state and a value or an exception out.  An exception
    leaves the state as it was when raised. *)
Definition M (St A : Type) : Type := St -> St * result A.

Definition mret {St A} (a : A) : M St A := fun w => (w, Ok a).
Definition mraise {St A} (e : exn) : M St A := fun w => (w, Raise e).
Definition mbind {St A B} (m : M St A) (k : A -> M St B) : M St B :=
  fun w =>
    match m w with
    | (w', Ok a) => k a w'
    | (w', Raise e) => (w', Raise e)
    end.
Definition lift {St A} (r : result A) : M St A := fun w => (w, r).

Notation "'do*' x ':=' m 'in' k" := (mbind m (fun x => k))
  (at level 10, x name, m at level 100, k at level 200).
Notation "m ';;' k" := (mbind m (fun _ => k))
  (at level 100, k at level 200, right associativity).

(** ** The host objects the operators read and write

    [mathutils] and [bmesh] belong to the host, not to this repository:
    the matrix type and its three operations are an interface. *)

Class Mathutils : Type := {
  Matrix : Type;
  (** [mat.translation] *)
  translation : Matrix -> Vector;
  (** [mat @ vec] *)
  matmul : Matrix -> Vector -> Vector;
  (** [mat.inverted()], which raises [ValueError] on a singular matrix *)
  inverted : Matrix -> result Matrix
}.

Inductive Mode : Type := OBJECT | EDIT_MESH | OTHER_MODE.
Inductive ObjType : Type := MESH | OTHER_TYPE.
Inductive SnapElement : Type := INCREMENT | OTHER_ELEMENT.
Inductive UIType : Type := VIEW_3D | OTHER_UI.
Inductive TransformOp : Type := op_translate | op_rotate | op_resize.
Inductive Status : Type := FINISHED | CANCELLED.
Inductive Branch : Type := B_OBJECT | B_EDIT_MESH | B_FALLBACK.

Global Instance Mode_eq_dec : EqDecision Mode.
Proof. solve_decision. Defined.
Global Instance ObjType_eq_dec : EqDecision ObjType.
Proof. solve_decision. Defined.
Global Instance UIType_eq_dec : EqDecision UIType.
Proof. solve_decision. Defined.

(** The keyword arguments [snap=True, use_proportional_edit=False,
    snap_elements={'INCREMENT'}, snap_target='CLOSEST'] of a delegated
    transform. *)
Record SnapKw : Type := mkSnapKw {
  kw_snap : bool;
  kw_use_proportional_edit : bool;
  kw_snap_elements : list SnapElement;
  kw_snap_target_closest : bool
}.

Definition snap_kw : SnapKw := mkSnapKw true false [INCREMENT] true.

(** What the code sends to the logger, to the host's operators and to the
    user, in order. *)
Inductive Event : Type :=
| LogGridSynced (scale : float)
| LogSkipNoScene
| LogSkipNoToolSettings
| LogBaselineApplied
| LogOnGrid (b : Branch) (any_on : bool) (max_r eps : float)
| LogTranslate (has_on_grid use_abs : bool)
| CallTransform (op : TransformOp) (kw : option SnapKw)
| Report (grid : float).

Record Overlay : Type := mkOverlay {
  show_floor : bool;
  grid_scale : float;
  grid_subdivisions : Z
}.

Record Space : Type := mkSpace { space_type : UIType; overlay : Overlay }.
Record Area : Type := mkArea { area_type : UIType; spaces : list Space }.
(** A window, through [win.screen.areas]. *)
Record Window : Type := mkWindow { areas : list Area }.

(** [scene.tool_settings]; an attribute the host version may lack is an
    [option] ([hasattr]). *)
Record ToolSettings : Type := mkToolSettings {
  use_snap : bool;
  snap_elements : list SnapElement;
  snap_angle : option float;
  use_snap_grid_absolute : option bool
}.

(** [HGProps]. *)
Record HGProps : Type := mkHGProps {
  enabled : bool;
  grid_size : float;
  override_hotkeys : bool
}.

Record Scene : Type := mkScene {
  hg : HGProps;
  tool_settings : option ToolSettings
}.

(** A vertex of the edit mesh. *)
Record Vert : Type := mkVert { v_select : bool; v_co : Vector }.

Section Host.
Context `{Mathutils}.

Record Object : Type := mkObject {
  ob_type : ObjType;
  location : Vector;
  matrix_world : Matrix;
  (** [bmesh.from_edit_mesh(obj.data).verts] *)
  verts : list Vert
}.

(** The part of the host state the add-on touches.  Objects live in a
    store and are referred to by position, so that a write through one
    reference is seen through every other. *)
Record World : Type := mkWorld {
  scene : option Scene;
  mode : Mode;
  active_object : option nat;
  selected_objects : list nat;
  objects : list Object;
  windows : list Window;
  trace : list Event
}.

Definition set_scene (w : World) (sc : option Scene) : World :=
  mkWorld sc (mode w) (active_object w) (selected_objects w) (objects w)
    (windows w) (trace w).
Definition set_objects (w : World) (obs : list Object) : World :=
  mkWorld (scene w) (mode w) (active_object w) (selected_objects w) obs
    (windows w) (trace w).
Definition set_windows (w : World) (ws : list Window) : World :=
  mkWorld (scene w) (mode w) (active_object w) (selected_objects w)
    (objects w) ws (trace w).
Definition emit (w : World) (ev : Event) : World :=
  mkWorld (scene w) (mode w) (active_object w) (selected_objects w)
    (objects w) (windows w) (trace w ++ [ev]).

(** [context.active_object], dereferenced. *)
Definition active (w : World) : option Object :=
  match active_object w with
  | Some i => objects w !! i
  | None => None
  end.

(** The objects a list of references denotes. *)
Definition deref (w : World) (refs : list nat) : list Object :=
  omap (fun i => objects w !! i) refs.

(** ** On-grid detection *)

(** The world-space points the OBJECT branch visits:
    [context.selected_objects or [obj]], each through
    [ob.matrix_world.translation]. *)
Definition object_points (w : World) (obj : Object) : list Vector :=
  let sel := match deref w (selected_objects w) with
             | [] => [obj]
             | obs => obs
             end in
  map (fun ob => translation (matrix_world ob)) sel.

(** The world-space points the EDIT_MESH branch visits: [mat @ v.co] for
    the selected vertices, in mesh order. *)
Definition mesh_points (obj : Object) : list Vector :=
  map (fun v => matmul (matrix_world obj) (v_co v))
      (filter (fun v => v_select v = true) (verts obj)).

Definition log (ev : Event) : M World unit := fun w => (emit w ev, Ok tt).

(** [context.scene.hg]: [AttributeError] when there is no scene. *)
Definition get_hg : M World HGProps :=
  fun w =>
    match scene w with
    | Some sc => (w, Ok (hg sc))
    | None => (w, Raise AttributeError)
    end.

(** [_selection_has_any_on_grid(context, step)]. *)
Definition _selection_has_any_on_grid (step : float) : M World bool :=
  fun w =>
    match active w with
    | None => (w, Ok false)
    | Some obj =>
        let eps := grid_eps step in
        if bool_decide (mode w = OBJECT) then
          (do* r := lift (scan_on_grid eps step (object_points w obj) f_0_0) in
           log (LogOnGrid B_OBJECT (fst r) (snd r) eps) ;;
           mret (fst r)) w
        else if bool_decide (ob_type obj = MESH)
                && bool_decide (mode w = EDIT_MESH)
        then
          (do* r := lift (scan_on_grid eps step (mesh_points obj) f_0_0) in
           log (LogOnGrid B_EDIT_MESH (fst r) (snd r) eps) ;;
           mret (fst r)) w
        else
          (do* r := lift (_vec_remainder_to_grid
                            (translation (matrix_world obj)) step) in
           let max_r := max3 (fst (fst r)) (snd (fst r)) (snd r) in
           let any_on := within_eps eps r in
           log (LogOnGrid B_FALLBACK any_on max_r eps) ;;
           mret any_on) w
    end.

(** ** Snap settings and the viewport grid *)

Definition sync_space (step : float) (sp : Space) : Space :=
  if bool_decide (space_type sp = VIEW_3D)
  then mkSpace (space_type sp) (mkOverlay true step 8)
  else sp.

Definition sync_area (step : float) (a : Area) : Area :=
  if bool_decide (area_type a = VIEW_3D)
  then mkArea (area_type a) (map (sync_space step) (spaces a))
  else a.

Definition sync_window (step : float) (win : Window) : Window :=
  mkWindow (map (sync_area step) (areas win)).

(** [_sync_viewport_grid(context)]. *)
Definition _sync_viewport_grid : M World unit :=
  do* props := get_hg in
  let step := grid_size props in
  (fun w => (set_windows w (map (sync_window step) (windows w)), Ok tt)) ;;
  log (LogGridSynced step).

(** The three assignments of [_apply_tool_snap] to the tool settings. *)
Definition baseline_snap (ts : ToolSettings) : ToolSettings :=
  mkToolSettings true [INCREMENT]
    (match snap_angle ts with
     | Some _ => Some (PrimFloat.div (PrimFloat.mul f_15_0 f_pi) f_180_0)
     | None => None
     end)
    (use_snap_grid_absolute ts).

(** [_apply_tool_snap(context)]. *)
Definition _apply_tool_snap : M World unit :=
  fun w =>
    match scene w with
    | None => log LogSkipNoScene w
    | Some sc =>
        match tool_settings sc with
        | None => log LogSkipNoToolSettings w
        | Some ts =>
            (_sync_viewport_grid ;; log LogBaselineApplied)
              (set_scene w (Some (mkScene (hg sc) (Some (baseline_snap ts)))))
        end
    end.

(** [_set_absolute_snap(context, enable)]. *)
Definition _set_absolute_snap (enable : bool) : M World unit :=
  fun w =>
    match scene w with
    | Some sc =>
        match tool_settings sc with
        | Some ts =>
            match use_snap_grid_absolute ts with
            | Some _ =>
                (set_scene w
                   (Some (mkScene (hg sc)
                            (Some (mkToolSettings (use_snap ts)
                                     (snap_elements ts) (snap_angle ts)
                                     (Some enable))))),
                 Ok tt)
            | None => (w, Ok tt)
            end
        | None => (w, Ok tt)
        end
    | None => (w, Ok tt)
    end.

(** ** Transform invokers *)

(** [op('INVOKE_DEFAULT', **kw)]: the call is handed to the host, and what
    the host returns is returned. *)
Inductive HostResult : Type :=
| host_result (op : TransformOp) (kw : option SnapKw).

Definition call_transform (op : TransformOp) (kw : option SnapKw)
  : M World HostResult :=
  log (CallTransform op kw) ;; mret (host_result op kw).

(** [_invoke_translate(context)]. *)
Definition _invoke_translate : M World HostResult :=
  do* props := get_hg in
  let step := grid_size props in
  do* has_on_grid := _selection_has_any_on_grid step in
  _set_absolute_snap (negb has_on_grid) ;;
  log (LogTranslate has_on_grid (negb has_on_grid)) ;;
  call_transform op_translate (Some snap_kw).

(** [_invoke_rotate(context)]. *)
Definition _invoke_rotate : M World HostResult :=
  call_transform op_rotate (Some snap_kw).

(** [_invoke_scale(context)]. *)
Definition _invoke_scale : M World HostResult :=
  call_transform op_resize (Some snap_kw).

(** [HG_OT_move.invoke]. *)
Definition HG_OT_move_invoke : M World HostResult :=
  do* props := get_hg in
  if negb (enabled props) then call_transform op_translate None
  else _apply_tool_snap ;; _invoke_translate.

(** [HG_OT_rotate.invoke]. *)
Definition HG_OT_rotate_invoke : M World HostResult :=
  do* props := get_hg in
  if negb (enabled props) then call_transform op_rotate None
  else _apply_tool_snap ;; _invoke_rotate.

(** [HG_OT_scale.invoke]. *)
Definition HG_OT_scale_invoke : M World HostResult :=
  do* props := get_hg in
  if negb (enabled props) then call_transform op_resize None
  else _apply_tool_snap ;; _invoke_scale.

(** ** Quantize (object and mesh edit) *)

Definition set_location (ob : Object) (loc : Vector) : Object :=
  mkObject (ob_type ob) loc (matrix_world ob) (verts ob).
Definition set_verts (ob : Object) (vs : list Vert) : Object :=
  mkObject (ob_type ob) (location ob) (matrix_world ob) vs.

(** [for ob in context.selected_objects:
       ob.location = _quantize_vector_world(ob.location, step)]
    over the store; the loop stops at the first exception, with the
    earlier writes done. *)
Fixpoint quantize_objects (step : float) (refs : list nat)
  (obs : list Object) : list Object * result unit :=
  match refs with
  | [] => (obs, Ok tt)
  | i :: rest =>
      match obs !! i with
      | Some ob =>
          match _quantize_vector_world (location ob) step with
          | Ok q => quantize_objects step rest (<[i := set_location ob q]> obs)
          | Raise e => (obs, Raise e)
          end
      | None => quantize_objects step rest obs
      end
  end.

(** [for v in bm.verts:
       if v.select:
           world = mat @ v.co
           v.co = inv @ _quantize_vector_world(world, step)]
    with the same stop at the first exception. *)
Fixpoint quantize_verts (mat inv : Matrix) (step : float) (vs : list Vert)
  : list Vert * result unit :=
  match vs with
  | [] => ([], Ok tt)
  | v :: rest =>
      if v_select v then
        match _quantize_vector_world (matmul mat (v_co v)) step with
        | Ok q =>
            let '(rest', r) := quantize_verts mat inv step rest in
            (mkVert (v_select v) (matmul inv q) :: rest', r)
        | Raise e => (v :: rest, Raise e)
        end
      else
        let '(rest', r) := quantize_verts mat inv step rest in
        (v :: rest', r)
  end.

(** [HG_OT_quantize_to_grid.execute]. *)
Definition HG_OT_quantize_to_grid_execute : M World Status :=
  do* props := get_hg in
  let step := grid_size props in
  fun w =>
    match active_object w, active w with
    | Some i, Some obj =>
        if bool_decide (mode w = OBJECT) then
          let '(obs, r) :=
            quantize_objects step (selected_objects w) (objects w) in
          (set_objects w obs, let* _ := r in Ok FINISHED)
        else if bool_decide (ob_type obj = MESH)
                && bool_decide (mode w = EDIT_MESH)
        then
          let mat := matrix_world obj in
          match inverted mat with
          | Ok inv =>
              let '(vs, r) := quantize_verts mat inv step (verts obj) in
              (set_objects w (<[i := set_verts obj vs]> (objects w)),
               let* _ := r in Ok FINISHED)
          | Raise e => (w, Raise e)
          end
        else (w, Ok CANCELLED)
    | _, _ => (w, Ok CANCELLED)
    end.

(** ** Grid step (half and double) *)

(** [hg.grid_size = v]. *)
Definition set_grid_size (v : float) : M World unit :=
  fun w =>
    match scene w with
    | Some sc =>
        (set_scene w
           (Some (mkScene
                    (mkHGProps (enabled (hg sc)) v (override_hotkeys (hg sc)))
                    (tool_settings sc))),
         Ok tt)
    | None => (w, Raise AttributeError)
    end.

(** The value [HG_OT_grid_step_down] assigns:
    [max(1e-6, hg.grid_size * 0.5)]. *)
Definition step_down (g : float) : float :=
  max2 f_1em6 (PrimFloat.mul g f_0_5).

(** The value [HG_OT_grid_step_up] assigns:
    [min(1e6, hg.grid_size * 2.0)]. *)
Definition step_up (g : float) : float :=
  min2 f_1e6 (PrimFloat.mul g f_2_0).

Definition report_grid : M World unit :=
  do* props := get_hg in log (Report (grid_size props)).

(** [HG_OT_grid_step_down.execute]. *)
Definition HG_OT_grid_step_down_execute : M World Status :=
  do* props := get_hg in
  set_grid_size (step_down (grid_size props)) ;;
  _sync_viewport_grid ;;
  _apply_tool_snap ;;
  report_grid ;;
  mret FINISHED.

(** [HG_OT_grid_step_up.execute]. *)
Definition HG_OT_grid_step_up_execute : M World Status :=
  do* props := get_hg in
  set_grid_size (step_up (grid_size props)) ;;
  _sync_viewport_grid ;;
  _apply_tool_snap ;;
  report_grid ;;
  mret FINISHED.

(** ** The invocation policy, as observed and as specified *)

(** [scene.tool_settings.use_snap_grid_absolute], when all three exist. *)
Definition absolute_flag (w : World) : option bool :=
  match scene w with
  | Some sc =>
      match tool_settings sc with
      | Some ts => use_snap_grid_absolute ts
      | None => None
      end
  | None => None
  end.

(** The specification's transition rule for a gesture [invoke]: with the
    add-on enabled, the flag a finished invocation leaves behind is
    ABSOLUTE exactly when the oracle, run on the selection the gesture
    started from, reports no point on the grid. *)
Definition flag_follows_oracle (invoke : M World HostResult) : Prop :=
  forall (w w' : World) (sc : Scene) (b : bool) (r : HostResult),
    scene w = Some sc ->
    enabled (hg sc) = true ->
    absolute_flag w <> None ->
    snd (_selection_has_any_on_grid (grid_size (hg sc)) w) = Ok b ->
    invoke w = (w', Ok r) ->
    absolute_flag w' = Some (negb b).

(** The specification's failure rule for a gesture [invoke] that delegates
    to the host operator [op]: with no active selection, the only effect is
    the plain call of [op], without keyword arguments. *)
Definition plain_without_selection (invoke : M World HostResult)
  (op : TransformOp) : Prop :=
  forall (w : World) (sc : Scene),
    scene w = Some sc ->
    active w = None ->
    invoke w = (emit w (CallTransform op None), Ok (host_result op None)).

End Host.

(** ** The Quantizer, as specified

    Per axis and independently: a non-finite coordinate passes through
    unchanged; a finite one becomes [round(coordinate/step) * step]. *)
Definition quantize_axis_spec (c step : float) : result float :=
  if isfinite c then
    let* k := Py.round (PrimFloat.div c step) in
    int_mul_float k step
  else Ok c.

Definition quantize_spec (p : Vector) (step : float) : result Vector :=
  let* qx := quantize_axis_spec (vx p) step in
  let* qy := quantize_axis_spec (vy p) step in
  let* qz := quantize_axis_spec (vz p) step in
  Ok (mkVector qx qy qz).

(** The interval the specification gives for the grid step. *)
Definition in_step_range (g : float) : bool :=
  PrimFloat.leb f_1em6 g && PrimFloat.leb g f_1e6.

(** [4e6], a grid size the property accepts. *)
Definition f_4e6 : float := 0x1.e848p+21%float.
Definition f_2e6 : float := 0x1.e848p+20%float.

(** [1.7e308] and [1e308]: both finite, and [round(1.7) * 1e308]
    overflows. *)
Definition f_1_7e308 : float := 0x1.e42d130773b76p+1023%float.

(** The oracle on the points of a selection, as the specification's
    [is_any_point_on_grid(points, step)]: the loop started at
    [max_r = 0.0] with [eps = max(1e-5, step * 1e-6)]. *)
Definition is_any_point_on_grid (points : list Vector) (step : float)
  : result (bool * float) :=
  scan_on_grid (grid_eps step) step points f_0_0.

(** [k] is the integer nearest to [m * 2^e], and the even one of the two
    when [m * 2^e] lies halfway between two integers. *)
Definition nearest_ties_even (m : positive) (e : Z) (k : Z) : Prop :=
  if 0 <=? e then k = Zpos m * 2 ^ e
  else
    let d := 2 ^ (- e) in
    2 * Z.abs (Zpos m - k * d) <= d /\
    (2 * Z.abs (Zpos m - k * d) = d -> Z.even k = true).

Arguments Object {_}.
Arguments World {_}.

(** ** A concrete host for the examples: rigid translations

    A matrix is its translation vector; it is always invertible. *)

Definition vadd (a b : Vector) : Vector :=
  mkVector (PrimFloat.add (vx a) (vx b)) (PrimFloat.add (vy a) (vy b))
           (PrimFloat.add (vz a) (vz b)).
Definition vneg (a : Vector) : Vector :=
  mkVector (PrimFloat.opp (vx a)) (PrimFloat.opp (vy a)) (PrimFloat.opp (vz a)).

Definition TranslationHost : Mathutils :=
  {| Matrix := Vector;
     translation := fun m => m;
     matmul := vadd;
     inverted := fun m => Ok (vneg m) |}.

Definition origin : Vector := mkVector f_0_0 f_0_0 f_0_0.
Definition f_0_3 : float := 0x1.3333333333333p-2%float.     (* 0.3 *)
Definition f_nan : float := PrimFloat.nan.

Definition example_tool_settings : ToolSettings :=
  mkToolSettings false [] (Some f_0_0) (Some false).
Definition example_scene (on : bool) : Scene :=
  mkScene (mkHGProps on f_1_0 true) (Some example_tool_settings).
Definition example_window : Window :=
  mkWindow [mkArea VIEW_3D [mkSpace VIEW_3D (mkOverlay false f_0_5 10)]].

(** An object-mode world whose only object, active and selected, has its
    origin at [at_]. *)
Definition object_world (on : bool) (at_ : Vector) : @World TranslationHost :=
  mkWorld (Some (example_scene on)) OBJECT (Some 0%nat) [0%nat]
    [@mkObject TranslationHost OTHER_TYPE at_ at_ []] [example_window] [].

(** The same scene with nothing active and nothing selected. *)
Definition empty_world (on : bool) : @World TranslationHost :=
  mkWorld (Some (example_scene on)) OBJECT None []
    [@mkObject TranslationHost OTHER_TYPE origin origin []] [example_window] [].

(** An edit-mode world: one mesh object at the origin with vertices [vs]. *)
Definition mesh_world (on : bool) (vs : list Vert) : @World TranslationHost :=
  mkWorld (Some (example_scene on)) EDIT_MESH (Some 0%nat) [0%nat]
    [@mkObject TranslationHost MESH origin origin vs] [example_window] [].

(** An object-mode world with two selected objects at [a] and [b], the
    first one active. *)
Definition two_object_world (a b : Vector) : @World TranslationHost :=
  mkWorld (Some (example_scene true)) OBJECT (Some 0%nat) [0%nat; 1%nat]
    [@mkObject TranslationHost OTHER_TYPE a a [];
     @mkObject TranslationHost OTHER_TYPE b b []] [example_window] [].

Definition nan_point : Vector := mkVector f_nan f_0_0 f_0_0.
(** [1e308], finite. *)
Definition f_1e308 : float := 0x1.1ccf385ebc8ap+1023%float.

(** ** Binary64 arithmetic on integers

    Every finite binary64 value is an integer number of units [2^-1074].
    The rounding done by the float division, the float multiplication and
    the [int] to [float] conversion is restated on these integers. *)

(** The integer nearest to the rational [a / b], a tie going to the even
    one. *)
Definition rne (a b : Z) : Z :=
  let q := a / b in
  let r := a mod b in
  match 2 * r ?= b with
  | Lt => q
  | Eq => if Z.even q then q else q + 1
  | Gt => q + 1
  end.

(** Where [a / b] lies between its floor and the next integer, and the
    record [SpecFloat]'s shifting works on. *)
Definition loc_of (a b : Z) : SpecFloat.location :=
  if a mod b =? 0 then loc_Exact else loc_Inexact (2 * (a mod b) ?= b).

Definition rec_of (a b : Z) : shr_record := shr_record_of_loc (a / b) (loc_of a b).

(** [SpecFloat]'s [binary_round_aux] on the non-negative rational [a / b]
    scaled by [2^e], as a function of the rational. *)
Definition round_aux (sx : bool) (a b e : Z) : spec_float :=
  let n1 := Z.max 0 (fexp prec emax (Zdigits2 (a / b) + e) - e) in
  let m1 := rne a (b * 2 ^ n1) in
  let e1 := e + n1 in
  let n2 := Z.max 0 (fexp prec emax (Zdigits2 m1 + e1) - e1) in
  match m1 / 2 ^ n2 with
  | Z0 => S754_zero sx
  | Zpos m => if e1 + n2 <=? emax - prec then S754_finite sx m (e1 + n2)
              else S754_infinity sx
  | Zneg _ => S754_nan
  end.

(** One, in units. *)
Definition U : Z := 2 ^ 1074.

(** The exponent, in units, of the binary64 format at magnitude [n]: a
    53-bit mantissa, and nothing below one unit. *)
Definition cexpU (n : Z) : Z := Z.max 0 (Zdigits2 n - 53).

(** The rational [a / b] units rounded to the format, in units. *)
Definition RNq (a b : Z) : Z :=
  let c := cexpU (a / b) in rne a (b * 2 ^ c) * 2 ^ c.

(** The float of sign [s] and magnitude [n] units; an infinity above the
    largest exponent. *)
Definition packU (s : bool) (n : Z) : spec_float :=
  let c := cexpU n in
  match n / 2 ^ c with
  | Z0 => S754_zero s
  | Zpos m =>
      if c - 1074 <=? 971 then S754_finite s m (c - 1074)
      else S754_infinity s
  | Zneg _ => S754_nan
  end.

(** The integers, in units of [2^-1074], that are binary64 magnitudes when
    not too large. *)
Definition Frep (n : Z) : Prop := 0 <= n /\ n mod 2 ^ cexpU n = 0.

(** A zero or finite float, its sign and its magnitude in units. *)
Inductive repr : spec_float -> bool -> Z -> Prop :=
| repr_zero (s : bool) : repr (S754_zero s) s 0
| repr_finite (s : bool) (m : positive) (e : Z) :
    bounded prec emax m e = true ->
    repr (S754_finite s m e) s (Z.pos m * 2 ^ (e + 1074)).

(** ** Notions for the further properties of the operators *)

(** The drawn grid matches [step]: every VIEW_3D space of every VIEW_3D
    area shows the floor with scale [step] and 8 subdivisions. *)
Definition viewport_shows (step : float) (ws : list Window) : Prop :=
  Forall (fun win =>
    Forall (fun a =>
      area_type a = VIEW_3D ->
      Forall (fun sp =>
        space_type sp = VIEW_3D -> overlay sp = mkOverlay true step 8)
        (spaces a))
      (areas win)) ws.

(** Two window lists differ in the overlays of VIEW_3D spaces of VIEW_3D
    areas at most. *)
Definition same_outside_view3d (ws ws' : list Window) : Prop :=
  Forall2 (fun win win' =>
    Forall2 (fun a a' =>
      area_type a' = area_type a /\
      (area_type a <> VIEW_3D -> a' = a) /\
      Forall2 (fun sp sp' =>
        space_type sp' = space_type sp /\
        (space_type sp <> VIEW_3D -> sp' = sp))
        (spaces a) (spaces a'))
      (areas win) (areas win')) ws ws'.

(** [scene.tool_settings], when both exist. *)
Definition tool_settings_of `{Mathutils} (w : World) : option ToolSettings :=
  match scene w with
  | Some sc => tool_settings sc
  | None => None
  end.

(** [15.0 * pi / 180.0]. *)
Definition snap_angle_15deg : float :=
  PrimFloat.div (PrimFloat.mul f_15_0 f_pi) f_180_0.

(** What an enabled gesture leaves behind, besides the absolute flag. *)
Definition snap_forced `{Mathutils} (step : float) (w' : World) : Prop :=
  exists ts',
    tool_settings_of w' = Some ts' /\
    use_snap ts' = true /\
    snap_elements ts' = [INCREMENT] /\
    viewport_shows step (windows w').

(** What the two step operators leave behind, besides the stored step. *)
Definition step_applied `{Mathutils} (sc : Scene) (w w' : World)
  (g' : float) : Prop :=
  exists sc',
    scene w' = Some sc' /\
    grid_size (hg sc') = g' /\
    enabled (hg sc') = enabled (hg sc) /\
    override_hotkeys (hg sc') = override_hotkeys (hg sc) /\
    tool_settings sc' = match tool_settings sc with
                        | Some ts => Some (baseline_snap ts)
                        | None => None
                        end /\
    viewport_shows g' (windows w') /\
    same_outside_view3d (windows w) (windows w') /\
    objects w' = objects w /\
    last (trace w') = Some (Report g').

(** A location the Quantizer leaves where it is. *)
Definition loc_fixed `{Mathutils} (step : float) (ob : Object) : Prop :=
  _quantize_vector_world (location ob) step = Ok (location ob).

(** [2e-6] and [5e5]: twice the lower clamp and half the upper one. *)
Definition f_2em6 : float := 0x1.0c6f7a0b5ed8dp-19%float.
Definition f_5e5 : float := 0x1.e848p+18%float.

(** What the vertex loop of [HG_OT_quantize_to_grid] does to one vertex
    whose world point quantizes. *)
Definition moved_vert `{Mathutils} (mat inv : Matrix) (step : float)
  (v : Vert) : Vert :=
  if v_select v then
    match _quantize_vector_world (matmul mat (v_co v)) step with
    | Ok q => mkVert (v_select v) (matmul inv q)
    | Raise _ => v
    end
  else v.

(** The Quantizer returns on the world point of [v], if [v] is selected. *)
Definition vert_quantizes `{Mathutils} (mat : Matrix) (step : float)
  (v : Vert) : Prop :=
  v_select v = true ->
  is_ok (_quantize_vector_world (matmul mat (v_co v)) step) = true.

(** ** Keymap

    The window manager's key configuration, its keymaps and their items
    belong to the host: an interface.  The operator names and the keys
    the add-on binds are enumerated. *)

Inductive OpId : Type :=
| hg_move | hg_rotate | hg_scale | hg_grid_step_down | hg_grid_step_up.

Inductive KeyType : Type :=
| KEY_G | KEY_R | KEY_S | LEFT_BRACKET | RIGHT_BRACKET.

Class KeymapHost : Type := {
  (** the state behind [bpy.context.window_manager] *)
  WM : Type;
  KeyMap : Type;
  KeyMapItem : Type;
  (** [wm.keyconfigs.addon] is there *)
  keyconfigs_addon : WM -> bool;
  (** [wm.keyconfigs.addon.keymaps.new(name='3D View', space_type='VIEW_3D')] *)
  keymaps_new_3d_view : WM -> WM * KeyMap;
  (** [km.keymap_items.new(idname, type, 'PRESS')] *)
  keymap_items_new : KeyMap -> OpId -> KeyType -> WM -> WM * KeyMapItem;
  (** [km.keymap_items.remove(kmi)], which may raise *)
  keymap_items_remove : KeyMap -> KeyMapItem -> WM -> WM * result unit
}.

(** The host state and the module's global [addon_keymaps]. *)
Record KeyState `{KeymapHost} : Type := mkKeyState {
  wm : WM;
  addon_keymaps : list (KeyMap * KeyMapItem)
}.
Arguments mkKeyState {_} _ _.

(** [addon_keymaps.append((km, km.keymap_items.new(idname, key, 'PRESS')))]. *)
Definition bind_key `{KeymapHost} (km : KeyMap) (op : OpId) (k : KeyType)
  : M KeyState unit :=
  fun st =>
    let '(h, kmi) := keymap_items_new km op k (wm st) in
    (mkKeyState h (addon_keymaps st ++ [(km, kmi)]), Ok tt).

(** [_register_keymap()]. *)
Definition _register_keymap `{KeymapHost} : M KeyState unit :=
  fun st =>
    if negb (keyconfigs_addon (wm st)) then (st, Ok tt)
    else
      let '(h, km) := keymaps_new_3d_view (wm st) in
      (bind_key km hg_move KEY_G ;;
       bind_key km hg_rotate KEY_R ;;
       bind_key km hg_scale KEY_S ;;
       bind_key km hg_grid_step_down LEFT_BRACKET ;;
       bind_key km hg_grid_step_up RIGHT_BRACKET)
        (mkKeyState h (addon_keymaps st)).

(** [list.pop()] on a non-empty list: the list without its last element,
    and that element. *)
Definition list_pop {A : Type} (l : list A) : option (list A * A) :=
  match rev l with
  | [] => None
  | x :: r => Some (rev r, x)
  end.

(** The loop of [_unregister_keymap], for at most [fuel] turns: while the
    list is not empty, pop its last pair and remove the item, whatever
    the removal raises. *)
Fixpoint unregister_loop `{KeymapHost} (fuel : nat) (st : KeyState)
  : KeyState :=
  match fuel with
  | O => st
  | S n =>
      match list_pop (addon_keymaps st) with
      | None => st
      | Some (rest, (km, kmi)) =>
          unregister_loop n
            (mkKeyState (fst (keymap_items_remove km kmi (wm st))) rest)
      end
  end.

(** [_unregister_keymap()]: one turn per recorded pair. *)
Definition _unregister_keymap `{KeymapHost} : M KeyState unit :=
  fun st => (unregister_loop (length (addon_keymaps st)) st, Ok tt).

(** [_update_override_hotkeys(context)], on [context.scene]. *)
Definition _update_override_hotkeys `{KeymapHost} (ctx_scene : option Scene)
  : M KeyState unit :=
  _unregister_keymap ;;
  match ctx_scene with
  | Some sc => if override_hotkeys (hg sc) then _register_keymap else mret tt
  | None => mret tt
  end.

(** The removals of [_unregister_keymap], newest pair first. *)
Definition remove_all `{KeymapHost} (l : list (KeyMap * KeyMapItem)) (h : WM)
  : WM :=
  fold_left (fun h p => fst (keymap_items_remove (fst p) (snd p) h)) (rev l) h.

(** A host for the examples: one keymap, a stack of bindings; an item is
    known by its position. *)
Definition StackKeymapHost : KeymapHost :=
  {| WM := list (OpId * KeyType);
     KeyMap := unit;
     KeyMapItem := nat;
     keyconfigs_addon := fun _ => true;
     keymaps_new_3d_view := fun h => (h, tt);
     keymap_items_new := fun _ op k h => (h ++ [(op, k)], length h);
     keymap_items_remove := fun _ i h =>
       if (i <? length h)%nat then (take i h ++ drop (S i) h, Ok tt)
       else (h, Raise ValueError) |}.

(** Removing the item just created restores the host's key
    configuration. *)
Definition new_then_remove_restores `{KeymapHost} : Prop :=
  forall (km : KeyMap) (op : OpId) (k : KeyType) (h : WM),
    keymap_items_remove km (snd (keymap_items_new km op k h))
      (fst (keymap_items_new km op k h))
    = (h, Ok tt).

(** ** Deferred initialisation *)

(** What [_tick] returns to the host's timer: a delay in seconds before
    the next call, with the exception it caught and logged, if any, or
    [None] to stop. *)
Inductive TickResult : Type :=
| Retry (interval : float) (caught : option exn)
| Stop.

Definition f_0_2 : float := 0x1.999999999999ap-3%float.     (* 0.2 *)

(** The [_tick] of [init_after_register_async]. *)
Definition _tick `{Mathutils} (w : World) : World * TickResult :=
  match scene w with
  | None => (w, Retry f_0_2 None)
  | Some _ =>
      match (_sync_viewport_grid ;; _apply_tool_snap) w with
      | (w', Ok _) => (w', Stop)
      | (w', Raise e) => (w', Retry f_0_2 (Some e))
      end
  end.

(** ** Further examples *)

(** A scene like [example_scene true], with grid size [g]. *)
Definition scene_with_step (g : float) : Scene :=
  mkScene (mkHGProps true g true) (Some example_tool_settings).

(** An object-mode world with grid size [g] whose only object, at [at_],
    is active; it is selected when [sel] holds. *)
Definition stepped_world (g : float) (sel : bool) (at_ : Vector)
  : @World TranslationHost :=
  mkWorld (Some (scene_with_step g)) OBJECT (Some 0%nat)
    (if sel then [0%nat] else [])
    [@mkObject TranslationHost OTHER_TYPE at_ at_ []] [example_window] [].

(** The Quantizer returns on the location of every object the
    references denote. *)
Definition locations_quantize `{Mathutils} (step : float) (refs : list nat)
  (obs : list Object) : Prop :=
  forall i ob, i ∈ refs -> obs !! i = Some ob ->
               is_ok (_quantize_vector_world (location ob) step) = true.

(** * Properties *)

(** ** Facts about binary64 comparisons and exact operations *)

Section FloatFacts.

Lemma SFcompare_antisym (x y : spec_float) :
  SFcompare y x = option_map CompOpp (SFcompare x y).
Proof.
  destruct x as [sx|sx| |sx mx ex], y as [sy|sy| |sy my ey]; simpl;
    try reflexivity;
    try (destruct sx; reflexivity); try (destruct sy; reflexivity);
    try (destruct sx, sy; reflexivity).
  destruct sx, sy; simpl; try reflexivity;
    rewrite (Z.compare_antisym ex ey);
    destruct (ex ?= ey) eqn:E; simpl; try reflexivity;
    rewrite (Pos.compare_cont_antisym mx my Eq); simpl;
    try rewrite CompOpp_involutive; reflexivity.
Qed.

Lemma ltb_leb (a b : float) :
  PrimFloat.ltb a b = true -> PrimFloat.leb a b = true.
Proof.
  rewrite FloatAxioms.ltb_spec, FloatAxioms.leb_spec. unfold SFltb, SFleb.
  destruct (SFcompare _ _) as [[]|]; congruence.
Qed.

Lemma ltb_not_leb (a b : float) :
  PrimFloat.ltb a b = true -> PrimFloat.leb b a = false.
Proof.
  rewrite FloatAxioms.ltb_spec, FloatAxioms.leb_spec. unfold SFltb, SFleb.
  rewrite (SFcompare_antisym (Prim2SF a) (Prim2SF b)).
  destruct (SFcompare (Prim2SF a) (Prim2SF b)) as [[]|]; simpl; congruence.
Qed.

Lemma leb_refl_of_self_eq (a : float) :
  PrimFloat.eqb a a = true -> PrimFloat.leb a a = true.
Proof.
  rewrite FloatAxioms.eqb_spec, FloatAxioms.leb_spec. unfold SFeqb, SFleb.
  destruct (SFcompare _ _) as [[]|]; congruence.
Qed.

(** [max(a, b)] is never below its first argument, when that argument is
    not NaN. *)
Lemma max2_lower (a b : float) :
  PrimFloat.eqb a a = true -> PrimFloat.leb a (max2 a b) = true.
Proof.
  intros Ha. unfold max2. destruct (PrimFloat.ltb a b) eqn:E.
  - now apply ltb_leb.
  - now apply leb_refl_of_self_eq.
Qed.

(** [min(a, b)] is never above its first argument, when that argument is
    not NaN. *)
Lemma min2_upper (a b : float) :
  PrimFloat.eqb a a = true -> PrimFloat.leb (min2 a b) a = true.
Proof.
  intros Ha. unfold min2. destruct (PrimFloat.ltb b a) eqn:E.
  - now apply ltb_leb.
  - now apply leb_refl_of_self_eq.
Qed.

End FloatFacts.

(** ** The scanning loop of the oracle *)

Section Scan.

(** When every visited point has its three remainders defined, the loop
    returns whether some point is within [eps] on all three axes. *)
Lemma scan_on_grid_any (eps step : float) (pts : list Vector)
  (rs : list (float * float * float)) (m0 : float) :
  Forall2 (fun p r => _vec_remainder_to_grid p step = Ok r) pts rs ->
  exists m, scan_on_grid eps step pts m0 = Ok (existsb (within_eps eps) rs, m).
Proof.
  intros HF. revert m0.
  induction HF as [|p r pts rs Hp _ IH]; intros m0; simpl.
  - now exists m0.
  - rewrite Hp. simpl. destruct r as [[rx ry] rz].
    destruct (within_eps eps (rx, ry, rz)) eqn:E; simpl.
    + eexists. reflexivity.
    + apply IH.
Qed.



(** X2: with every remainder defined, the boolean does not depend on the
    order of the points. *)
Lemma scan_on_grid_perm (eps step : float) (pts pts' : list Vector)
  (rs : list (float * float * float)) (m0 : float) :
  Forall2 (fun p r => _vec_remainder_to_grid p step = Ok r) pts rs ->
  Permutation pts pts' ->
  exists b m m',
    scan_on_grid eps step pts m0 = Ok (b, m) /\
    scan_on_grid eps step pts' m0 = Ok (b, m').
Proof.
  intros HF HP.
  destruct (scan_on_grid_any eps step pts rs m0 HF) as [m Hm].
  assert (Hrs' : exists rs', Forall2 (fun p r => _vec_remainder_to_grid p step = Ok r) pts' rs'
                             /\ Permutation rs rs').
  { clear Hm m. revert rs HF.
    induction HP as [|x l l' _ IH|x y l|l l' l'' _ IH1 _ IH2]; intros rs HF.
    - inversion HF; subst. exists []. split; constructor.
    - inversion HF as [|? r ? rs0 Hx Hl]; subst.
      destruct (IH _ Hl) as (rs' & HF' & HP').
      exists (r :: rs'). split; [now constructor | now constructor].
    - inversion HF as [|? r1 ? rs1 Hy Hl1]; subst.
      inversion Hl1 as [|? r2 ? rs2 Hx Hl2]; subst.
      exists (r2 :: r1 :: rs2). split; [now repeat constructor | constructor].
    - destruct (IH1 _ HF) as (rs1 & HF1 & HP1).
      destruct (IH2 _ HF1) as (rs2 & HF2 & HP2).
      exists rs2. split; [assumption | now transitivity rs1]. }
  destruct Hrs' as (rs' & HF' & HPr).
  destruct (scan_on_grid_any eps step pts' rs' m0 HF') as [m' Hm'].
  exists (existsb (within_eps eps) rs), m, m'. split; [assumption|].
  rewrite Hm'. do 2 f_equal.
  apply eq_true_iff_eq. rewrite !existsb_exists.
  split; intros (r & Hin & Hr); exists r; split; try assumption.
  - eapply Permutation_in; [symmetry; exact HPr | exact Hin].
  - eapply Permutation_in; [exact HPr | exact Hin].
Qed.

(** The origin and [(0.5, 0, 0)] at step [1.0], in both orders. *)
Lemma scan_on_grid_perm_witness :
  exists b m m',
    scan_on_grid (grid_eps f_1_0) f_1_0
      [origin; mkVector f_0_5 f_0_0 f_0_0] f_0_0 = Ok (b, m) /\
    scan_on_grid (grid_eps f_1_0) f_1_0
      [mkVector f_0_5 f_0_0 f_0_0; origin] f_0_0 = Ok (b, m').
Proof.
  apply (scan_on_grid_perm (grid_eps f_1_0) f_1_0
           [origin; mkVector f_0_5 f_0_0 f_0_0]
           [mkVector f_0_5 f_0_0 f_0_0; origin]
           [(f_0_0, f_0_0, f_0_0); (f_0_5, f_0_0, f_0_0)] f_0_0).
  - constructor; [vm_compute; reflexivity|].
    constructor; [vm_compute; reflexivity|]. constructor.
  - apply perm_swap.
Defined.

End Scan.

(** ** The Grid Alignment Oracle *)

Section Oracle.

(** Without an active object the oracle answers [False] at once. *)
Lemma oracle_no_active `{Mathutils} (w : World) (step : float) :
  active w = None -> _selection_has_any_on_grid step w = (w, Ok false).
Proof. intros Ha. unfold _selection_has_any_on_grid. now rewrite Ha. Qed.



(** C3: a NaN coordinate makes [_remainder_to_grid] raise [ValueError] and
    an infinite one [OverflowError], and the exception leaves the oracle;
    [_round_to_step], which does test [isfinite], passes both through, but
    raises [OverflowError] on the finite [1e308] with step [0.5], whose
    quotient overflows. *)
Theorem oracle_raises_on_non_finite :
  _remainder_to_grid f_nan f_1_0 = Raise ValueError
  /\ _remainder_to_grid PrimFloat.infinity f_1_0 = Raise OverflowError
  /\ snd (@_selection_has_any_on_grid TranslationHost f_1_0
            (object_world true nan_point)) = Raise ValueError
  /\ _round_to_step f_nan f_1_0 = Ok f_nan
  /\ _round_to_step PrimFloat.infinity f_1_0 = Ok PrimFloat.infinity
  /\ isfinite f_1e308 = true
  /\ _round_to_step f_1e308 f_0_5 = Raise OverflowError.
Proof. repeat split; vm_compute; reflexivity. Qed.

(** C2: with a NaN point ahead of a point that lies on the grid the loop
    raises, and with the same two points in the other order it returns
    [True]: the result depends on the order, and a qualifying point does
    not make the oracle return [True]. *)
Theorem oracle_order_matters_with_nan :
  _vec_remainder_to_grid origin f_1_0 = Ok (f_0_0, f_0_0, f_0_0)
  /\ within_eps (grid_eps f_1_0) (f_0_0, f_0_0, f_0_0) = true
  /\ scan_on_grid (grid_eps f_1_0) f_1_0 [nan_point; origin] f_0_0
     = Raise ValueError
  /\ scan_on_grid (grid_eps f_1_0) f_1_0 [origin; nan_point] f_0_0
     = Ok (true, f_0_0)
  /\ snd (@_selection_has_any_on_grid TranslationHost f_1_0
            (two_object_world nan_point origin)) = Raise ValueError
  /\ snd (@_selection_has_any_on_grid TranslationHost f_1_0
            (two_object_world origin nan_point)) = Ok true.
Proof. repeat split; vm_compute; reflexivity. Qed.

End Oracle.

(** ** Quantize to grid: what is written and what is left alone *)

Section QuantizeFrame.
Context `{Mathutils}.

(** The object loop writes [location] only, and only through the
    references it is given. *)
Lemma quantize_objects_frame (step : float) (refs : list nat) :
  forall (obs obs' : list Object) (r : result unit),
    quantize_objects step refs obs = (obs', r) ->
    length obs' = length obs /\
    forall (i : nat) (ob : Object),
      obs !! i = Some ob ->
      exists ob', obs' !! i = Some ob' /\
                  ob_type ob' = ob_type ob /\
                  matrix_world ob' = matrix_world ob /\
                  verts ob' = verts ob /\
                  (i ∉ refs -> location ob' = location ob).
Proof.
  induction refs as [|j refs IH]; intros obs obs' r Hq; simpl in Hq.
  - injection Hq as <- _. split; [reflexivity|].
    intros i ob Hi. exists ob. repeat split; assumption.
  - destruct (obs !! j) as [obj|] eqn:Hj.
    + destruct (_quantize_vector_world (location obj) step) as [q|e].
      * apply IH in Hq. destruct Hq as [Hlen Hfr].
        rewrite length_insert in Hlen. split; [assumption|].
        intros i ob Hi.
        destruct (decide (i = j)) as [->|Hne].
        -- assert (Hlt : (j < length obs)%nat) by (eapply lookup_lt_Some; eauto).
           destruct (Hfr j (set_location obj q)) as (ob' & Ho & Ht & Hm & Hv & _).
           { now rewrite list_lookup_insert_eq. }
           assert (ob = obj) by congruence. subst ob.
           exists ob'. repeat split; try assumption.
           intros Hnot. exfalso. apply Hnot. left.
        -- destruct (Hfr i ob) as (ob' & Ho & Ht & Hm & Hv & Hl).
           { rewrite list_lookup_insert_ne by congruence. assumption. }
           exists ob'. repeat split; try assumption.
           intros Hnot. apply Hl. intros Hin. apply Hnot. now right.
      * injection Hq as <- _. split; [reflexivity|].
        intros i ob Hi. exists ob. repeat split; assumption.
    + apply IH in Hq. destruct Hq as [Hlen Hfr]. split; [assumption|].
      intros i ob Hi.
      destruct (Hfr i ob Hi) as (ob' & Ho & Ht & Hm & Hv & Hl).
      exists ob'. repeat split; try assumption.
      intros Hnot. apply Hl. intros Hin. apply Hnot. now right.
Qed.

(** The vertex loop keeps every selection flag and writes [co] only on
    selected vertices. *)
Lemma quantize_verts_frame (mat inv : Matrix) (step : float) :
  forall (vs vs' : list Vert) (r : result unit),
    quantize_verts mat inv step vs = (vs', r) ->
    Forall2 (fun v v' => v_select v' = v_select v /\
                         (v_select v = false -> v_co v' = v_co v)) vs vs'.
Proof.
  induction vs as [|v vs IH]; intros vs' r Hq; simpl in Hq.
  - injection Hq as <- _. constructor.
  - destruct (v_select v) eqn:Hs.
    + destruct (_quantize_vector_world (matmul mat (v_co v)) step) as [q|e].
      * destruct (quantize_verts mat inv step vs) as [rest' r'] eqn:Hr.
        injection Hq as <- _. constructor.
        -- simpl. split; congruence.
        -- eapply IH. reflexivity.
      * injection Hq as <- _. constructor.
        -- split; [reflexivity | congruence].
        -- clear. induction vs; constructor; auto.
    + destruct (quantize_verts mat inv step vs) as [rest' r'] eqn:Hr.
      injection Hq as <- _. constructor.
      * split; [reflexivity | reflexivity].
      * eapply IH. reflexivity.
Qed.

Lemma verts_unchanged_refl (vs : list Vert) (P : Vert -> Prop) :
  Forall2 (fun v v' => v_select v' = v_select v /\ (P v -> v_co v' = v_co v))
          vs vs.
Proof. induction vs; constructor; auto. Qed.

End QuantizeFrame.

Section QuantizeOperator.
Context `{Mathutils}.

(** C10: [HG_OT_quantize_to_grid.execute] touches nothing but the object
    store; in it, an object keeps its type, its matrix and its vertices'
    selection flags, its [location] is written only in object mode and only
    if it is one of [context.selected_objects], and a vertex's [co] is
    written only in mesh edit mode, on the active object, and only if the
    vertex is selected.  With no active object, or in any other mode, the
    world is left as it was and the result is CANCELLED. *)
Theorem quantize_to_grid_frame (w w' : World) (sc : Scene)
  (r : result Status) :
  scene w = Some sc ->
  HG_OT_quantize_to_grid_execute w = (w', r) ->
  (scene w' = scene w /\ mode w' = mode w /\
   active_object w' = active_object w /\
   selected_objects w' = selected_objects w /\
   windows w' = windows w /\ trace w' = trace w)
  /\ length (objects w') = length (objects w)
  /\ (forall (i : nat) (ob : Object),
        objects w !! i = Some ob ->
        exists ob',
          objects w' !! i = Some ob' /\
          ob_type ob' = ob_type ob /\
          matrix_world ob' = matrix_world ob /\
          (~ (mode w = OBJECT /\ i ∈ selected_objects w) ->
           location ob' = location ob) /\
          Forall2
            (fun v v' =>
               v_select v' = v_select v /\
               (~ (mode w = EDIT_MESH /\ active_object w = Some i /\
                   v_select v = true) ->
                v_co v' = v_co v))
            (verts ob) (verts ob'))
  /\ (active w = None \/ (mode w <> OBJECT /\ mode w <> EDIT_MESH) ->
      w' = w /\ r = Ok CANCELLED).
Proof.
  intros Hsc Hex.
  unfold HG_OT_quantize_to_grid_execute, mbind, get_hg in Hex.
  rewrite Hsc in Hex.
  assert (Hid : forall (i : nat) (ob : Object),
             objects w !! i = Some ob ->
             exists ob',
               objects w !! i = Some ob' /\
               ob_type ob' = ob_type ob /\
               matrix_world ob' = matrix_world ob /\
               (~ (mode w = OBJECT /\ i ∈ selected_objects w) ->
                location ob' = location ob) /\
               Forall2
                 (fun v v' =>
                    v_select v' = v_select v /\
                    (~ (mode w = EDIT_MESH /\ active_object w = Some i /\
                        v_select v = true) ->
                     v_co v' = v_co v))
                 (verts ob) (verts ob')).
  { intros i ob Hi. exists ob. repeat split; try assumption.
    apply verts_unchanged_refl. }
  unfold active in *.
  destruct (active_object w) as [a|] eqn:Ha.
  2:{ injection Hex as <- <-.
      split; [repeat split; auto|]. split; [reflexivity|].
      split; [exact Hid|]. intros _. split; reflexivity. }
  destruct (objects w !! a) as [obj|] eqn:Hobj.
  2:{ injection Hex as <- <-.
      split; [repeat split; auto|]. split; [reflexivity|].
      split; [exact Hid|]. intros _. split; reflexivity. }
  destruct (bool_decide (mode w = OBJECT)) eqn:Hm.
  - apply bool_decide_eq_true in Hm.
    destruct (quantize_objects (grid_size (hg sc)) (selected_objects w)
                (objects w)) as [obs rq] eqn:Hq.
    injection Hex as <- <-. simpl.
    destruct (quantize_objects_frame _ _ _ _ _ Hq) as [Hlen Hfr].
    split; [repeat split; assumption|]. split; [assumption|]. split.
    + intros i ob Hi.
      destruct (Hfr i ob Hi) as (ob' & Ho & Ht & Hmw & Hv & Hl).
      exists ob'. repeat split; try assumption.
      * intros Hnot. apply Hl. intros Hin. apply Hnot. now split.
      * rewrite Hv. apply verts_unchanged_refl.
    + intros [Hnone | [Hno _]]; [discriminate | contradiction].
  - apply bool_decide_eq_false in Hm.
    destruct (bool_decide (ob_type obj = MESH) &&
              bool_decide (mode w = EDIT_MESH)) eqn:Hme.
    + apply andb_true_iff in Hme. destruct Hme as [Hty Hmode].
      apply bool_decide_eq_true in Hmode.
      destruct (inverted (matrix_world obj)) as [inv|e] eqn:Hinv.
      2:{ injection Hex as <- <-.
          split; [repeat split; auto|]. split; [reflexivity|].
          split; [exact Hid|].
          intros [Hnone | [_ Hno]]; [discriminate | contradiction]. }
      destruct (quantize_verts (matrix_world obj) inv (grid_size (hg sc))
                  (verts obj)) as [vs rq] eqn:Hq.
      injection Hex as <- <-. simpl.
      pose proof (quantize_verts_frame _ _ _ _ _ _ Hq) as Hvs.
      split; [repeat split; assumption|]. split; [apply length_insert|]. split.
      * intros i ob Hi.
        destruct (decide (i = a)) as [->|Hne].
        -- assert (ob = obj) by congruence. subst ob.
           exists (set_verts obj vs).
           rewrite list_lookup_insert_eq by (eapply lookup_lt_Some; eauto).
           repeat split. simpl.
           eapply Forall2_impl; [exact Hvs|].
           intros v v' [Hs Hc]. split; [assumption|].
           intros Hnot. apply Hc.
           destruct (v_select v) eqn:Hsel; [|reflexivity].
           exfalso. apply Hnot. repeat split; assumption.
        -- exists ob. rewrite list_lookup_insert_ne by congruence.
           repeat split; try assumption. apply verts_unchanged_refl.
      * intros [Hnone | [_ Hno]]; [discriminate | contradiction].
    + injection Hex as <- <-.
      split; [repeat split; auto|]. split; [reflexivity|].
      split; [exact Hid|]. intros _. split; reflexivity.
Qed.

End QuantizeOperator.

(** In a mesh with one selected and one unselected vertex, both off the
    grid, the unselected one keeps its coordinates. *)
Lemma quantize_to_grid_frame_witness :
  let w := mesh_world true [mkVert true (mkVector f_0_3 f_0_0 f_0_0);
                            mkVert false (mkVector f_0_3 f_0_0 f_0_0)] in
  let res := @HG_OT_quantize_to_grid_execute TranslationHost w in
  scene w = Some (example_scene true) /\
  res = (fst res, snd res) /\
  length (objects (fst res)) = length (objects w).
Proof.
  intros w res.
  assert (Hsc : scene w = Some (example_scene true)) by reflexivity.
  assert (Hex : res = (fst res, snd res)) by (vm_compute; reflexivity).
  split; [exact Hsc|]. split; [exact Hex|].
  exact (proj1 (proj2 (@quantize_to_grid_frame TranslationHost w (fst res)
                         (example_scene true) (snd res) Hsc Hex))).
Defined.

(** ** The invocation policy *)

Section Policy.
Context `{Mathutils}.

(** The oracle reads the mode, the active object, the selection and the
    object store, and nothing else. *)
Lemma oracle_result_ext (step : float) (w1 w2 : World) :
  mode w1 = mode w2 ->
  active_object w1 = active_object w2 ->
  selected_objects w1 = selected_objects w2 ->
  objects w1 = objects w2 ->
  snd (_selection_has_any_on_grid step w1)
  = snd (_selection_has_any_on_grid step w2).
Proof.
  intros Hm Ha Hs Ho.
  unfold _selection_has_any_on_grid, active, object_points, deref,
    mbind, lift, log, mret.
  rewrite Hm, Ha, Hs, Ho.
  destruct (active_object w2) as [a|]; [|reflexivity].
  destruct (objects w2 !! a) as [obj|]; [|reflexivity].
  destruct (bool_decide (mode w2 = OBJECT)).
  - destruct (scan_on_grid _ _ _ _); reflexivity.
  - destruct (bool_decide (ob_type obj = MESH) &&
              bool_decide (mode w2 = EDIT_MESH)).
    + destruct (scan_on_grid _ _ _ _); reflexivity.
    + destruct (_vec_remainder_to_grid _ _); reflexivity.
Qed.

(** The oracle writes to the log only. *)
Lemma oracle_world (step : float) (w : World) :
  exists evs,
    fst (_selection_has_any_on_grid step w)
    = mkWorld (scene w) (mode w) (active_object w) (selected_objects w)
        (objects w) (windows w) (trace w ++ evs).
Proof.
  unfold _selection_has_any_on_grid, mbind, lift, log, mret, emit.
  assert (Hnil : exists evs, w = mkWorld (scene w) (mode w) (active_object w)
                   (selected_objects w) (objects w) (windows w) (trace w ++ evs)).
  { exists []. rewrite app_nil_r. now destruct w. }
  destruct (active w) as [obj|]; [|exact Hnil].
  destruct (bool_decide (mode w = OBJECT)).
  - destruct (scan_on_grid _ _ _ _); simpl; [eexists; reflexivity | exact Hnil].
  - destruct (bool_decide (ob_type obj = MESH) &&
              bool_decide (mode w = EDIT_MESH)).
    + destruct (scan_on_grid _ _ _ _); simpl; [eexists; reflexivity | exact Hnil].
    + destruct (_vec_remainder_to_grid _ _); simpl;
        [eexists; reflexivity | exact Hnil].
Qed.

(** [_apply_tool_snap] returns normally, keeps the add-on's properties, the
    selection and the absolute flag, and leaves a scene in place. *)
Lemma apply_tool_snap_spec (w : World) (sc : Scene) :
  scene w = Some sc ->
  exists w1 sc1,
    _apply_tool_snap w = (w1, Ok tt) /\
    scene w1 = Some sc1 /\ hg sc1 = hg sc /\
    mode w1 = mode w /\ active_object w1 = active_object w /\
    selected_objects w1 = selected_objects w /\ objects w1 = objects w /\
    absolute_flag w1 = absolute_flag w.
Proof.
  intros Hsc. unfold _apply_tool_snap, absolute_flag. rewrite Hsc.
  destruct (tool_settings sc) as [ts|] eqn:Hts.
  - eexists _, _. split; [reflexivity|]. simpl.
    repeat split; reflexivity.
  - exists (emit w LogSkipNoToolSettings), sc. simpl. rewrite Hsc, Hts.
    repeat split; reflexivity.
Qed.

(** [_set_absolute_snap] writes the flag when it exists. *)
Lemma set_absolute_snap_spec (enable : bool) (w : World) :
  exists w2,
    _set_absolute_snap enable w = (w2, Ok tt) /\
    absolute_flag w2 = match absolute_flag w with
                       | Some _ => Some enable
                       | None => None
                       end.
Proof.
  unfold _set_absolute_snap, absolute_flag.
  destruct (scene w) as [sc|] eqn:Hsc; [|eexists; split; [reflexivity|now rewrite Hsc]].
  destruct (tool_settings sc) as [ts|] eqn:Hts;
    [|eexists; split; [reflexivity|now rewrite Hsc, Hts]].
  destruct (use_snap_grid_absolute ts) eqn:Hf;
    [|eexists; split; [reflexivity|now rewrite Hsc, Hts, Hf]].
  eexists; split; [reflexivity|reflexivity].
Qed.

(** What an enabled move gesture does once the oracle has answered. *)
Lemma move_invoke_enabled (w : World) (sc : Scene) (b : bool) :
  scene w = Some sc ->
  enabled (hg sc) = true ->
  snd (_selection_has_any_on_grid (grid_size (hg sc)) w) = Ok b ->
  exists w',
    HG_OT_move_invoke w
    = (w', Ok (host_result op_translate (Some snap_kw))) /\
    absolute_flag w' = match absolute_flag w with
                       | Some _ => Some (negb b)
                       | None => None
                       end /\
    last (trace w') = Some (CallTransform op_translate (Some snap_kw)).
Proof.
  intros Hsc Hen Hor.
  destruct (apply_tool_snap_spec w sc Hsc)
    as (w1 & sc1 & Hap & Hsc1 & Hhg & Hm & Ha & Hs & Ho & Hf).
  unfold HG_OT_move_invoke, mbind, get_hg. rewrite Hsc, Hen. simpl.
  rewrite Hap. unfold _invoke_translate, mbind, get_hg. rewrite Hsc1, Hhg.
  pose proof (oracle_result_ext (grid_size (hg sc)) w1 w Hm Ha Hs Ho) as Hext.
  destruct (oracle_world (grid_size (hg sc)) w1) as [evs Hw2].
  destruct (_selection_has_any_on_grid (grid_size (hg sc)) w1) as [w2 rb].
  simpl in Hext, Hw2. rewrite Hext, Hor.
  destruct (set_absolute_snap_spec (negb b) w2) as (w3 & Hset & Hflag).
  rewrite Hset. unfold call_transform, mbind, log, mret.
  eexists. split; [reflexivity|]. split.
  - change (absolute_flag w3 = match absolute_flag w with
                               | Some _ => Some (negb b)
                               | None => None
                               end).
    rewrite Hflag, <- Hf. subst w2. reflexivity.
  - simpl. apply last_snoc.
Qed.

(** X3: an exception of the oracle leaves the move gesture: the gesture
    raises it, and the host transform is not started. *)
Lemma move_invoke_raises (w : World) (sc : Scene) (e : exn) :
  scene w = Some sc ->
  enabled (hg sc) = true ->
  snd (_selection_has_any_on_grid (grid_size (hg sc)) w) = Raise e ->
  snd (HG_OT_move_invoke w) = Raise e.
Proof.
  intros Hsc Hen Hor.
  destruct (apply_tool_snap_spec w sc Hsc)
    as (w1 & sc1 & Hap & Hsc1 & Hhg & Hm & Ha & Hs & Ho & Hf).
  unfold HG_OT_move_invoke, mbind, get_hg. rewrite Hsc, Hen. simpl.
  rewrite Hap. unfold _invoke_translate, mbind, get_hg. rewrite Hsc1, Hhg.
  pose proof (oracle_result_ext (grid_size (hg sc)) w1 w Hm Ha Hs Ho) as Hext.
  destruct (_selection_has_any_on_grid (grid_size (hg sc)) w1) as [w2 rb].
  simpl in Hext. rewrite Hext, Hor. reflexivity.
Qed.

(** An enabled rotate or scale gesture applies the baseline and delegates;
    it neither runs the oracle nor writes the absolute flag. *)
Lemma other_invoke_enabled (op : TransformOp) (w : World) (sc : Scene) :
  scene w = Some sc ->
  enabled (hg sc) = true ->
  exists w',
    (do* props := get_hg in
     if negb (enabled props) then call_transform op None
     else _apply_tool_snap ;; call_transform op (Some snap_kw)) w
    = (w', Ok (host_result op (Some snap_kw))) /\
    absolute_flag w' = absolute_flag w.
Proof.
  intros Hsc Hen.
  destruct (apply_tool_snap_spec w sc Hsc)
    as (w1 & sc1 & Hap & Hsc1 & Hhg & Hm & Ha & Hs & Ho & Hf).
  unfold mbind, get_hg. rewrite Hsc, Hen. simpl. rewrite Hap.
  unfold call_transform, mbind, log, mret.
  eexists. split; [reflexivity|]. exact Hf.
Qed.


(** C9, as the code has it: the plain, unmodified transform is the
    fallback for a disabled add-on, for each of the three gestures, and
    nothing else is touched then.  With the add-on enabled and no active
    object the oracle answers [False], so move turns the absolute flag on
    (when the host has one) and delegates the snapped translate. *)
Theorem plain_transform_when_disabled (w : World) (sc : Scene) :
  scene w = Some sc ->
  (enabled (hg sc) = false ->
   HG_OT_move_invoke w
   = (emit w (CallTransform op_translate None),
      Ok (host_result op_translate None)) /\
   HG_OT_rotate_invoke w
   = (emit w (CallTransform op_rotate None), Ok (host_result op_rotate None)) /\
   HG_OT_scale_invoke w
   = (emit w (CallTransform op_resize None), Ok (host_result op_resize None)))
  /\ (enabled (hg sc) = true ->
      active w = None ->
      exists w',
        HG_OT_move_invoke w
        = (w', Ok (host_result op_translate (Some snap_kw))) /\
        absolute_flag w' = match absolute_flag w with
                           | Some _ => Some true
                           | None => None
                           end /\
        last (trace w') = Some (CallTransform op_translate (Some snap_kw))).
Proof.
  intros Hsc. split.
  - intros Hen.
    unfold HG_OT_move_invoke, HG_OT_rotate_invoke, HG_OT_scale_invoke,
      mbind, get_hg.
    rewrite Hsc, Hen. simpl. repeat split; reflexivity.
  - intros Hen Hact.
    apply (move_invoke_enabled w sc false Hsc Hen).
    now rewrite (oracle_no_active w _ Hact).
Qed.

End Policy.

(** A NaN origin: the enabled move gesture raises [ValueError]. *)
Lemma move_invoke_raises_witness :
  snd (@HG_OT_move_invoke TranslationHost (object_world true nan_point))
  = Raise ValueError.
Proof.
  apply (@move_invoke_raises TranslationHost (object_world true nan_point)
           (example_scene true) ValueError); vm_compute; reflexivity.
Defined.



(** The failure rule of the specification fails for move: enabled, with
    nothing active, it configures snapping and passes the snap keywords. *)
Lemma move_without_selection_still_snaps :
  ~ plain_without_selection (@HG_OT_move_invoke TranslationHost) op_translate.
Proof.
  intros Hrule.
  specialize (Hrule (empty_world true) (example_scene true) eq_refl eq_refl).
  vm_compute in Hrule. discriminate.
Qed.

(** Disabled, the three gestures are plain calls; enabled with nothing
    active, move turns the flag on. *)
Lemma plain_transform_when_disabled_witness :
  HG_OT_move_invoke (empty_world false)
  = (emit (empty_world false) (CallTransform op_translate None),
     Ok (host_result op_translate None))
  /\ exists w',
      HG_OT_move_invoke (empty_world true)
      = (w', Ok (host_result op_translate (Some snap_kw)))
      /\ absolute_flag w' = Some true.
Proof.
  split.
  - exact (proj1 (proj1 (@plain_transform_when_disabled TranslationHost
                           (empty_world false) (example_scene false) eq_refl)
                    eq_refl)).
  - destruct (proj2 (@plain_transform_when_disabled TranslationHost
                       (empty_world true) (example_scene true) eq_refl)
                eq_refl eq_refl) as (w' & Hmv & Hfl & _).
    exists w'. split; assumption.
Defined.

(** ** The Quantizer *)

Section Quantizer.

(** [round_half_even] is rounding to nearest, ties to even. *)
Lemma round_half_even_spec (m : positive) (e : Z) :
  nearest_ties_even m e (round_half_even m e).
Proof.
  unfold nearest_ties_even, round_half_even.
  destruct e as [|p|p]; simpl Z.leb; cbv iota; try reflexivity.
  cbv zeta. change (- Z.neg p) with (Z.pos p).
  assert (Hd : 0 < 2 ^ Z.pos p) by (apply Z.pow_pos_nonneg; lia).
  pose proof (Z.div_mod (Z.pos m) (2 ^ Z.pos p) ltac:(lia)) as Hdm.
  pose proof (Z.mod_pos_bound (Z.pos m) (2 ^ Z.pos p) Hd) as Hr.
  set (d := 2 ^ Z.pos p) in *.
  set (q := Z.pos m / d) in *. set (r := Z.pos m mod d) in *.
  destruct (Z.compare_spec (2 * r) d) as [Heq|Hlt|Hgt].
  - destruct (Z.even q) eqn:Hev.
    + replace (Z.pos m - q * d) with r by lia.
      split; [lia | intros _; exact Hev].
    + replace (Z.pos m - (q + 1) * d) with (r - d) by lia.
      split; [lia|]. intros _.
      rewrite Z.even_add, Hev. reflexivity.
  - replace (Z.pos m - q * d) with r by lia. split; lia.
  - replace (Z.pos m - (q + 1) * d) with (r - d) by lia. split; lia.
Qed.

(** The builtin [round] returns on every finite float, with the integer
    nearest to its magnitude, ties to even, under its sign. *)
Lemma py_round_finite (t : float) (s : bool) (m : positive) (e : Z) :
  Prim2SF t = S754_finite s m e ->
  exists k, Py.round t = Ok (cond_Zopp s k) /\ nearest_ties_even m e k.
Proof.
  intros Ht. exists (round_half_even m e). split.
  - unfold Py.round. now rewrite Ht.
  - apply round_half_even_spec.
Qed.



End Quantizer.

(** ** Halving and doubling the grid step *)

Section StepAdjust.

Lemma valid_normal (m : positive) (e : Z) :
  bounded prec emax m e = true -> -1074 < e -> Zpos (digits2_pos m) = 53.
Proof.
  unfold bounded, canonical_mantissa, fexp, SpecFloat.emin, prec, emax.
  intros Hb He. apply andb_true_iff in Hb. destruct Hb as [Hc _].
  apply Z.eqb_eq in Hc. lia.
Qed.

Lemma shr_52_exact (m : positive) (E : Z) :
  shr (shr_record_of_loc (Z.pos (4503599627370496 * m)) loc_Exact) E 52
  = ({| shr_m := Z.pos m; shr_r := false; shr_s := false |}, E + 52).
Proof.
  rewrite Pos.mul_comm. repeat rewrite Pos.mul_xO_r. rewrite Pos.mul_1_r.
  reflexivity.
Qed.

Lemma digits_shift_52 (m : positive) :
  Zdigits2 (Z.pos (4503599627370496 * m)) = Z.pos (digits2_pos m) + 52.
Proof.
  rewrite Pos.mul_comm. repeat rewrite Pos.mul_xO_r. rewrite Pos.mul_1_r.
  cbn [Zdigits2 digits2_pos]. lia.
Qed.

(** A normal positive binary64 number times a power of two (a float whose
    mantissa is [2^52]): the mantissa is kept and the exponents add, as
    long as the result is normal; past the largest exponent it is
    [+inf]. *)
Lemma mul_pow2_normal (g c : float) (m : positive) (e ec : Z) :
  Prim2SF g = S754_finite false m e -> -1074 < e ->
  Prim2SF c = S754_finite false 4503599627370496 ec ->
  -1074 < e + ec + 52 ->
  Prim2SF (PrimFloat.mul g c) =
  if e + ec + 52 <=? 971 then S754_finite false m (e + ec + 52)
  else S754_infinity false.
Proof.
  intros Hg He Hc Hlo.
  pose proof (Prim2SF_valid g) as Hv. rewrite Hg in Hv. simpl in Hv.
  pose proof (valid_normal m e Hv He) as Hd.
  rewrite mul_spec, Hg, Hc.
  unfold SF64mul, SFmul. rewrite (Pos.mul_comm m).
  unfold binary_round_aux, shr_fexp.
  rewrite digits_shift_52, Hd.
  replace (fexp prec emax (53 + 52 + (e + ec)) - (e + ec)) with 52
    by (unfold fexp, SpecFloat.emin, prec, emax; lia).
  rewrite shr_52_exact.
  cbn [shr_m loc_of_shr_record round_nearest_even Zdigits2].
  rewrite Hd.
  replace (fexp prec emax (53 + (e + ec + 52)) - (e + ec + 52)) with 0
    by (unfold fexp, SpecFloat.emin, prec, emax; lia).
  cbn. reflexivity.
Qed.

(** A float at or above a positive finite constant is positive, finite or
    [+inf], and its exponent is at least the constant's. *)
Lemma leb_from_positive (c g : float) (mc : positive) (ec : Z) :
  Prim2SF c = S754_finite false mc ec ->
  PrimFloat.leb c g = true ->
  Prim2SF g = S754_infinity false \/
  exists m e, Prim2SF g = S754_finite false m e /\ ec <= e.
Proof.
  intros Hc. rewrite FloatAxioms.leb_spec, Hc. unfold SFleb.
  destruct (Prim2SF g) as [s|s| |s m e]; simpl; try discriminate.
  - destruct s; [discriminate | now left].
  - destruct s; [discriminate|]. intros Hle. right. exists m, e.
    split; [reflexivity|].
    destruct (Z.compare_spec ec e); first [lia | discriminate].
Qed.

(** A float at or below a positive finite constant that is itself
    positive and finite has at most the constant's exponent. *)
Lemma leb_to_positive (c g : float) (mc m : positive) (ec e : Z) :
  Prim2SF c = S754_finite false mc ec ->
  Prim2SF g = S754_finite false m e ->
  PrimFloat.leb g c = true ->
  e <= ec.
Proof.
  intros Hc Hg. rewrite FloatAxioms.leb_spec, Hc, Hg. unfold SFleb. simpl.
  destruct (Z.compare_spec e ec); first [lia | discriminate].
Qed.

(** Between positive finite floats, a smaller exponent decides. *)
Lemma leb_by_exponent (a b : float) (ma mb : positive) (ea eb : Z) :
  Prim2SF a = S754_finite false ma ea ->
  Prim2SF b = S754_finite false mb eb ->
  ea < eb ->
  PrimFloat.leb a b = true.
Proof.
  intros Ha Hb Hlt. rewrite FloatAxioms.leb_spec, Ha, Hb. unfold SFleb. simpl.
  destruct (Z.compare_spec ea eb); first [lia | reflexivity].
Qed.

Lemma Prim2SF_1em6 :
  Prim2SF f_1em6 = S754_finite false 4722366482869645 (-72).
Proof. vm_compute. reflexivity. Qed.

Lemma Prim2SF_1e6 :
  Prim2SF f_1e6 = S754_finite false 8589934592000000 (-33).
Proof. vm_compute. reflexivity. Qed.

Lemma Prim2SF_half :
  Prim2SF f_0_5 = S754_finite false 4503599627370496 (-53).
Proof. vm_compute. reflexivity. Qed.

Lemma Prim2SF_two :
  Prim2SF f_2_0 = S754_finite false 4503599627370496 (-51).
Proof. vm_compute. reflexivity. Qed.

Lemma step_down_lower (g : float) :
  PrimFloat.leb f_1em6 (step_down g) = true.
Proof. unfold step_down. now apply max2_lower. Qed.

Lemma step_up_upper (g : float) :
  PrimFloat.leb (step_up g) f_1e6 = true.
Proof. unfold step_up. now apply min2_upper. Qed.

Lemma step_down_in_range (g : float) :
  in_step_range g = true -> in_step_range (step_down g) = true.
Proof.
  unfold in_step_range. intros Hg. apply andb_true_iff in Hg.
  destruct Hg as [Hlo Hhi]. rewrite step_down_lower. simpl.
  destruct (leb_from_positive f_1em6 g _ _ Prim2SF_1em6 Hlo)
    as [Hinf | (m & e & Hg & He)].
  { rewrite FloatAxioms.leb_spec, Hinf in Hhi. discriminate. }
  pose proof (leb_to_positive f_1e6 g _ _ _ _ Prim2SF_1e6 Hg Hhi) as He'.
  pose proof (mul_pow2_normal g f_0_5 m e (-53) Hg ltac:(lia) Prim2SF_half
                ltac:(lia)) as Hmul.
  replace (e + -53 + 52 <=? 971) with true in Hmul
    by (symmetry; apply Z.leb_le; lia).
  unfold step_down, max2.
  destruct (PrimFloat.ltb f_1em6 (PrimFloat.mul g f_0_5)); [|reflexivity].
  eapply leb_by_exponent; [exact Hmul | exact Prim2SF_1e6 | lia].
Qed.

Lemma step_up_in_range (g : float) :
  in_step_range g = true -> in_step_range (step_up g) = true.
Proof.
  unfold in_step_range. intros Hg. apply andb_true_iff in Hg.
  destruct Hg as [Hlo Hhi]. rewrite step_up_upper, andb_true_r.
  destruct (leb_from_positive f_1em6 g _ _ Prim2SF_1em6 Hlo)
    as [Hinf | (m & e & Hg & He)].
  { rewrite FloatAxioms.leb_spec, Hinf in Hhi. discriminate. }
  pose proof (leb_to_positive f_1e6 g _ _ _ _ Prim2SF_1e6 Hg Hhi) as He'.
  pose proof (mul_pow2_normal g f_2_0 m e (-51) Hg ltac:(lia) Prim2SF_two
                ltac:(lia)) as Hmul.
  replace (e + -51 + 52 <=? 971) with true in Hmul
    by (symmetry; apply Z.leb_le; lia).
  unfold step_up, min2.
  destruct (PrimFloat.ltb (PrimFloat.mul g f_2_0) f_1e6); [|reflexivity].
  eapply leb_by_exponent; [exact Prim2SF_1em6 | exact Hmul | lia].
Qed.

(** What the two operators store. *)
Lemma grid_step_down_stores `{Mathutils} (w : World) (sc : Scene) :
  scene w = Some sc ->
  exists w' sc',
    HG_OT_grid_step_down_execute w = (w', Ok FINISHED) /\
    scene w' = Some sc' /\
    grid_size (hg sc') = step_down (grid_size (hg sc)).
Proof.
  intros Hsc.
  unfold HG_OT_grid_step_down_execute, mbind, get_hg, set_grid_size,
    _sync_viewport_grid, _apply_tool_snap, report_grid, mbind, get_hg, log,
    mret.
  repeat (rewrite Hsc; simpl).
  destruct (tool_settings sc); simpl; eexists _, _;
    (split; [reflexivity|]); split; reflexivity.
Qed.

Lemma grid_step_up_stores `{Mathutils} (w : World) (sc : Scene) :
  scene w = Some sc ->
  exists w' sc',
    HG_OT_grid_step_up_execute w = (w', Ok FINISHED) /\
    scene w' = Some sc' /\
    grid_size (hg sc') = step_up (grid_size (hg sc)).
Proof.
  intros Hsc.
  unfold HG_OT_grid_step_up_execute, mbind, get_hg, set_grid_size,
    _sync_viewport_grid, _apply_tool_snap, report_grid, mbind, get_hg, log,
    mret.
  repeat (rewrite Hsc; simpl).
  destruct (tool_settings sc); simpl; eexists _, _;
    (split; [reflexivity|]); split; reflexivity.
Qed.


End StepAdjust.



(** ** Quantized points and the oracle *)

Section QuantizedOnGrid.

Lemma Prim2SF_infinity : Prim2SF PrimFloat.infinity = S754_infinity false.
Proof. vm_compute. reflexivity. Qed.

(** [math.isfinite] holds of the zeros and of the finite non-zero
    floats, and of nothing else. *)
Lemma isfinite_spec (x : float) :
  isfinite x = true <->
  (exists s, Prim2SF x = S754_zero s) \/
  (exists s m e, Prim2SF x = S754_finite s m e).
Proof.
  unfold isfinite, PrimFloat.is_finite, PrimFloat.is_nan,
    PrimFloat.is_infinity.
  rewrite !FloatAxioms.eqb_spec, abs_spec, Prim2SF_infinity.
  destruct (Prim2SF x) as [s|s| |s m e]; unfold SFeqb; simpl.
  - split; [intros _; left; now exists s | reflexivity].
  - split; [now destruct s|].
    intros [[s' Hx]|(s' & m & e & Hx)]; discriminate.
  - split; [discriminate|].
    intros [[s' Hx]|(s' & m & e & Hx)]; discriminate.
  - rewrite Z.compare_refl, Pos.compare_cont_refl.
    split; [intros _; right; now exists s, m, e|].
    intros _. now destruct s.
Qed.

(** A finite float minus itself is [+0.0]. *)
Lemma sub_self_finite (y : float) :
  isfinite y = true -> PrimFloat.sub y y = f_0_0.
Proof.
  intros Hy. apply Prim2SF_inj. rewrite sub_spec.
  change (Prim2SF f_0_0) with (S754_zero false).
  apply isfinite_spec in Hy.
  destruct Hy as [[s Hz]|(s & m & e & Hf)].
  - rewrite Hz. now destruct s.
  - rewrite Hf. unfold SF64sub, SFsub.
    rewrite Z.min_id. unfold shl_align. rewrite Z.sub_diag. simpl fst.
    reflexivity.
Qed.

(** The tolerance is never negative. *)
Lemma grid_eps_nonneg (step : float) :
  PrimFloat.leb f_0_0 (grid_eps step) = true.
Proof.
  unfold grid_eps, max2.
  destruct (PrimFloat.ltb f_1em5 (PrimFloat.mul step f_1em6)) eqn:E;
    [|vm_compute; reflexivity].
  set (v := PrimFloat.mul step f_1em6) in *.
  rewrite FloatAxioms.ltb_spec in E. rewrite FloatAxioms.leb_spec.
  change (Prim2SF f_1em5)
    with (S754_finite false 5902958103587057 (-69)) in E.
  change (Prim2SF f_0_0) with (S754_zero false).
  unfold SFltb, SFleb in *.
  destruct (Prim2SF v) as [s|s| |s m e]; simpl in *; try discriminate;
    destruct s; simpl in *; try discriminate; reflexivity.
Qed.

(** When dividing a finite multiple [y = k * s] by the step and rounding
    gives [k] back, the Quantizer leaves [y] where it is and its remainder
    is [+0.0]. *)
Lemma requantize_fixed (y s : float) (k : Z) :
  PrimFloat.ltb f_0_0 s = true ->
  isfinite y = true ->
  Py.round (PrimFloat.div y s) = Ok k ->
  int_mul_float k s = Ok y ->
  _round_to_step y s = Ok y /\ _remainder_to_grid y s = Ok f_0_0.
Proof.
  intros Hs Hy Hk Hm. apply ltb_not_leb in Hs.
  unfold _round_to_step, _remainder_to_grid.
  rewrite Hs, Hy, Hk. simpl. rewrite Hm. simpl.
  split; [reflexivity|]. rewrite (sub_self_finite y Hy). reflexivity.
Qed.

Lemma round_to_step_finite (c s y : float) :
  PrimFloat.ltb f_0_0 s = true ->
  isfinite c = true ->
  _round_to_step c s = Ok y ->
  exists k, Py.round (PrimFloat.div c s) = Ok k /\ int_mul_float k s = Ok y.
Proof.
  intros Hs Hc. apply ltb_not_leb in Hs.
  unfold _round_to_step. rewrite Hs, Hc. simpl.
  destruct (Py.round (PrimFloat.div c s)) as [k|e]; simpl; [|discriminate].
  intros Hy. now exists k.
Qed.

Lemma quantize_components (P Q : Vector) (s : float) :
  _quantize_vector_world P s = Ok Q ->
  _round_to_step (vx P) s = Ok (vx Q) /\
  _round_to_step (vy P) s = Ok (vy Q) /\
  _round_to_step (vz P) s = Ok (vz Q).
Proof.
  unfold _quantize_vector_world.
  destruct (_round_to_step (vx P) s) as [qx|]; simpl; [|discriminate].
  destruct (_round_to_step (vy P) s) as [qy|]; simpl; [|discriminate].
  destruct (_round_to_step (vz P) s) as [qz|]; simpl; [|discriminate].
  intros [= <-]. simpl. repeat split.
Qed.

End QuantizedOnGrid.

(** ** The rounding of [SpecFloat], as a function of the rational *)

Section RoundingModel.

Lemma iter_pos_nat {A} (f : A -> A) (p : positive) (x : A) :
  SpecFloat.iter_pos f p x = Nat.iter (Pos.to_nat p) f x.
Proof.
  revert x. induction p as [p IH|p IH|]; intros x; simpl SpecFloat.iter_pos.
  - rewrite !IH. rewrite <- Nat.iter_succ_r, <- Nat.iter_add.
    f_equal. lia.
  - rewrite !IH. rewrite <- Nat.iter_add. f_equal. lia.
  - reflexivity.
Qed.

Lemma shr_1_rec_of (a b : Z) :
  0 <= a -> 0 < b -> shr_1 (rec_of a b) = rec_of a (2 * b).
Proof.
  intros Ha Hb. unfold rec_of, loc_of.
  pose proof (Z.div_mod a b ltac:(lia)) as Hdm.
  pose proof (Z.mod_pos_bound a b Hb) as Hr.
  assert (Hq : 0 <= a / b) by (apply Z.div_pos; lia).
  set (q := a / b) in *. set (r := a mod b) in *.
  pose proof (Z.div_mod q 2 ltac:(lia)) as Hdm2.
  pose proof (Z.mod_pos_bound q 2 ltac:(lia)) as Hr2.
  assert (Hdiv : a / (2 * b) = q / 2).
  { rewrite (Z.mul_comm 2 b). rewrite <- Z.div_div by lia. reflexivity. }
  assert (Hmod : a mod (2 * b) = (q mod 2) * b + r).
  { symmetry. apply Z.mod_unique with (q := q / 2); [left; nia | nia]. }
  rewrite Hdiv, Hmod.
  assert (Hcase : q mod 2 = 0 \/ q mod 2 = 1) by lia.
  (* shape of q *)
  destruct q as [|p|p] eqn:Eqq; [| |lia].
  - (* q = 0 *)
    change (0 mod 2) with 0. change (0 / 2) with 0. rewrite Z.mul_0_l, Z.add_0_l.
    destruct (Z.eqb_spec r 0) as [E|E].
    + simpl. reflexivity.
    + simpl.
      assert ((2 * r ?= 2 * b) = Lt) as -> by (apply Z.compare_lt_iff; lia).
      destruct (2 * r ?= b); reflexivity.
  - destruct p as [p'|p'|].
    + (* odd *)
      assert (Z.pos p'~1 mod 2 = 1) as -> by lia.
      assert (Z.pos p'~1 / 2 = Z.pos p') as -> by lia.
      rewrite Z.mul_1_l.
      destruct (Z.eqb_spec r 0) as [E|E].
      * rewrite E, Z.add_0_r.
        assert ((b =? 0) = false) as -> by (apply Z.eqb_neq; lia).
        assert ((2 * b ?= 2 * b) = Eq) as -> by apply Z.compare_refl.
        simpl. reflexivity.
      * assert ((b + r =? 0) = false) as -> by (apply Z.eqb_neq; lia).
        assert ((2 * (b + r) ?= 2 * b) = Gt) as -> by (apply Z.compare_gt_iff; lia).
        simpl. destruct (2 * r ?= b); reflexivity.
    + (* even *)
      assert (Z.pos p'~0 mod 2 = 0) as -> by lia.
      assert (Z.pos p'~0 / 2 = Z.pos p') as -> by lia.
      rewrite Z.mul_0_l, Z.add_0_l.
      destruct (Z.eqb_spec r 0) as [E|E].
      * simpl. reflexivity.
      * assert ((2 * r ?= 2 * b) = Lt) as -> by (apply Z.compare_lt_iff; lia).
        simpl. destruct (2 * r ?= b); reflexivity.
    + (* q = 1 *)
      change (1 mod 2) with 1. change (1 / 2) with 0. rewrite Z.mul_1_l.
      destruct (Z.eqb_spec r 0) as [E|E].
      * rewrite E, Z.add_0_r.
        assert ((b =? 0) = false) as -> by (apply Z.eqb_neq; lia).
        assert ((2 * b ?= 2 * b) = Eq) as -> by apply Z.compare_refl.
        simpl. reflexivity.
      * assert ((b + r =? 0) = false) as -> by (apply Z.eqb_neq; lia).
        assert ((2 * (b + r) ?= 2 * b) = Gt) as -> by (apply Z.compare_gt_iff; lia).
        simpl. destruct (2 * r ?= b); reflexivity.
Qed.

Lemma iter_shr_1_rec_of (n : nat) (a b : Z) :
  0 <= a -> 0 < b ->
  Nat.iter n shr_1 (rec_of a b) = rec_of a (b * 2 ^ Z.of_nat n).
Proof.
  intros Ha Hb. induction n as [|n IH].
  - simpl. now rewrite Z.mul_1_r.
  - rewrite Nat.iter_succ, IH.
    rewrite shr_1_rec_of by (try apply Z.mul_pos_pos; lia).
    f_equal. rewrite Nat2Z.inj_succ, Z.pow_succ_r by lia. ring.
Qed.

Lemma shr_rec_of (a b e n : Z) :
  0 <= a -> 0 < b ->
  shr (rec_of a b) e n = (rec_of a (b * 2 ^ Z.max 0 n), e + Z.max 0 n).
Proof.
  intros Ha Hb. unfold shr. destruct n as [|p|p].
  - simpl Z.max. now rewrite Z.mul_1_r, Z.add_0_r.
  - rewrite iter_pos_nat, iter_shr_1_rec_of by assumption.
    rewrite positive_nat_Z. replace (Z.max 0 (Z.pos p)) with (Z.pos p) by lia.
    reflexivity.
  - replace (Z.max 0 (Z.neg p)) with 0 by lia.
    now rewrite Z.mul_1_r, Z.add_0_r.
Qed.

Lemma rec_of_exact (m : Z) : shr_record_of_loc m loc_Exact = rec_of m 1.
Proof.
  unfold rec_of, loc_of. now rewrite Z.mod_1_r, Z.div_1_r.
Qed.

Lemma loc_of_shr_record_of_loc (m : Z) (l : SpecFloat.location) :
  loc_of_shr_record (shr_record_of_loc m l) = l.
Proof. destruct l as [|[]]; reflexivity. Qed.

Lemma shr_m_of_loc (m : Z) (l : SpecFloat.location) :
  shr_m (shr_record_of_loc m l) = m.
Proof. destruct l as [|[]]; reflexivity. Qed.

Lemma round_rec_of (a b : Z) :
  0 < b ->
  round_nearest_even (shr_m (rec_of a b)) (loc_of_shr_record (rec_of a b))
  = rne a b.
Proof.
  intros Hb. unfold rec_of. rewrite shr_m_of_loc, loc_of_shr_record_of_loc.
  unfold loc_of, rne, round_nearest_even.
  pose proof (Z.mod_pos_bound a b Hb) as Hr.
  destruct (Z.eqb_spec (a mod b) 0) as [E|E].
  - rewrite E. change (2 * 0) with 0.
    assert ((0 ?= b) = Lt) as -> by (apply Z.compare_lt_iff; lia).
    reflexivity.
  - destruct (2 * (a mod b) ?= b); reflexivity.
Qed.

Lemma new_location_loc_of (a b : Z) :
  0 < b -> new_location b (a mod b) = loc_of a b.
Proof.
  intros Hb. unfold new_location, new_location_even, new_location_odd, loc_of.
  pose proof (Z.mod_pos_bound a b Hb) as Hr.
  set (r := a mod b) in *.
  destruct (Z.even b) eqn:Ev; [reflexivity|].
  destruct (r =? 0); [reflexivity|]. f_equal.
  assert (Hodd : Z.odd b = true) by (rewrite <- Z.negb_even, Ev; reflexivity).
  apply Z.odd_spec in Hodd. destruct Hodd as [c Hc].
  destruct (Z.compare_spec (2 * r + 1) b);
    destruct (Z.compare_spec (2 * r) b); try reflexivity; lia.
Qed.


Lemma rne_nonneg (a b : Z) : 0 <= a -> 0 < b -> 0 <= rne a b.
Proof.
  intros Ha Hb. unfold rne.
  assert (0 <= a / b) by (apply Z.div_pos; lia).
  destruct (2 * (a mod b) ?= b); [destruct (Z.even (a / b))| |]; lia.
Qed.

Lemma binary_round_aux_rec (sx : bool) (a b e : Z) :
  0 <= a -> 0 < b ->
  binary_round_aux prec emax sx (a / b) e (loc_of a b) = round_aux sx a b e.
Proof.
  intros Ha Hb. unfold binary_round_aux, shr_fexp, round_aux.
  fold (rec_of a b). rewrite shr_rec_of by assumption.
  assert (Hb' : 0 < b * 2 ^ Z.max 0 (fexp prec emax (Zdigits2 (a / b) + e) - e)).
  { apply Z.mul_pos_pos; [assumption|]. apply Z.pow_pos_nonneg; lia. }
  rewrite round_rec_of by assumption.
  set (n1 := Z.max 0 (fexp prec emax (Zdigits2 (a / b) + e) - e)) in *.
  set (m1 := rne a (b * 2 ^ n1)).
  assert (Hm1 : 0 <= m1) by (apply rne_nonneg; assumption).
  rewrite rec_of_exact, shr_rec_of by lia.
  unfold rec_of. rewrite shr_m_of_loc, Z.mul_1_l.
  reflexivity.
Qed.

End RoundingModel.

(** ** Nearest integer, ties to even *)

Section NearestEven.

Lemma rne_spec (a b : Z) :
  0 < b ->
  2 * Z.abs (a - rne a b * b) <= b /\
  (2 * Z.abs (a - rne a b * b) = b -> Z.even (rne a b) = true).
Proof.
  intros Hb. unfold rne.
  pose proof (Z.div_mod a b ltac:(lia)) as Hdm.
  pose proof (Z.mod_pos_bound a b Hb) as Hr.
  set (q := a / b) in *. set (r := a mod b) in *.
  destruct (Z.compare_spec (2 * r) b) as [Heq|Hlt|Hgt].
  - destruct (Z.even q) eqn:Hev.
    + replace (a - q * b) with r by lia. split; [lia | intros _; exact Hev].
    + replace (a - (q + 1) * b) with (r - b) by lia.
      split; [lia|]. intros _. rewrite Z.even_add, Hev. reflexivity.
  - replace (a - q * b) with r by lia. split; lia.
  - replace (a - (q + 1) * b) with (r - b) by lia. split; lia.
Qed.

Lemma rne_unique (a b z : Z) :
  0 < b ->
  2 * Z.abs (a - z * b) <= b ->
  (2 * Z.abs (a - z * b) = b -> Z.even z = true) ->
  rne a b = z.
Proof.
  intros Hb Hz Hev.
  destruct (rne_spec a b Hb) as [Hr Hrev].
  set (w := rne a b) in *.
  assert (Hclose : Z.abs (w - z) <= 1) by nia.
  destruct (Z.eq_dec w z) as [E|E]; [exact E|exfalso].
  assert (Hone : w = z + 1 \/ w = z - 1) by lia.
  assert (Hb1 : 2 * Z.abs (a - z * b) = b) by (destruct Hone; subst w; nia).
  assert (Hb2 : 2 * Z.abs (a - w * b) = b) by (destruct Hone; nia).
  specialize (Hev Hb1). specialize (Hrev Hb2).
  destruct Hone as [-> | ->].
  - rewrite Z.even_add, Hev in Hrev. discriminate.
  - rewrite Z.even_sub, Hev in Hrev. discriminate.
Qed.

Lemma rne_exact (z b : Z) : 0 < b -> rne (z * b) b = z.
Proof.
  intros Hb. apply rne_unique; [assumption | |];
    replace (z * b - z * b) with 0 by ring; simpl; lia.
Qed.

Lemma rne_scale (a b k : Z) : 0 < b -> 0 < k -> rne (a * k) (b * k) = rne a b.
Proof.
  intros Hb Hk. destruct (rne_spec a b Hb) as [Hr Hev].
  apply rne_unique; [nia | |].
  - replace (a * k - rne a b * (b * k)) with ((a - rne a b * b) * k) by ring.
    rewrite Z.abs_mul, (Z.abs_eq k) by lia. nia.
  - replace (a * k - rne a b * (b * k)) with ((a - rne a b * b) * k) by ring.
    rewrite Z.abs_mul, (Z.abs_eq k) by lia. intros E. apply Hev. nia.
Qed.

(** [rne] depends on the rational only. *)
Lemma rne_ext (a b c d : Z) :
  0 < b -> 0 < d -> a * d = c * b -> rne a b = rne c d.
Proof.
  intros Hb Hd E.
  rewrite <- (rne_scale a b d), <- (rne_scale c d b) by assumption.
  rewrite E. f_equal. ring.
Qed.

Lemma rne_nearest (a b w : Z) :
  0 < b -> Z.abs (a - rne a b * b) <= Z.abs (a - w * b).
Proof.
  intros Hb. destruct (rne_spec a b Hb) as [Hr _].
  destruct (Z.eq_dec w (rne a b)) as [->|E]; [lia|].
  assert (b <= Z.abs ((w - rne a b) * b)) by (rewrite Z.abs_mul; nia).
  nia.
Qed.

Lemma rne_mono (a a' b : Z) : 0 < b -> a <= a' -> rne a b <= rne a' b.
Proof.
  intros Hb Hle.
  destruct (rne_spec a b Hb) as [Hr Hev].
  destruct (rne_spec a' b Hb) as [Hr' Hev'].
  destruct (Z_le_gt_dec (rne a b) (rne a' b)) as [H|H]; [exact H|exfalso].
  assert (rne a b = rne a' b + 1) by nia.
  assert (2 * Z.abs (a - rne a b * b) = b) by nia.
  assert (2 * Z.abs (a' - rne a' b * b) = b) by nia.
  specialize (Hev H1). specialize (Hev' H2).
  rewrite H0, Z.even_add, Hev' in Hev. discriminate.
Qed.

Lemma rne_le_int (a b z : Z) : 0 < b -> a <= z * b -> rne a b <= z.
Proof.
  intros Hb Hle. rewrite <- (rne_exact z b Hb). now apply rne_mono.
Qed.

Lemma rne_ge_int (a b z : Z) : 0 < b -> z * b <= a -> z <= rne a b.
Proof.
  intros Hb Hle. rewrite <- (rne_exact z b Hb). now apply rne_mono.
Qed.

End NearestEven.

(** ** Bit length *)

Section BitLength.

Lemma digits2_pos_size (p : positive) : digits2_pos p = Pos.size p.
Proof. induction p; simpl; congruence. Qed.

Lemma Zdigits2_log2 (n : Z) : 0 < n -> Zdigits2 n = Z.log2 n + 1.
Proof.
  destruct n as [|p|p]; try lia. intros _.
  unfold Zdigits2. rewrite digits2_pos_size.
  destruct p; simpl; lia.
Qed.

Lemma Zdigits2_nonneg (n : Z) : 0 <= Zdigits2 n.
Proof. destruct n; simpl; lia. Qed.

Lemma Zdigits2_bounds (n : Z) :
  0 < n -> 2 ^ (Zdigits2 n - 1) <= n < 2 ^ Zdigits2 n.
Proof.
  intros Hn. rewrite Zdigits2_log2 by assumption.
  replace (Z.log2 n + 1 - 1) with (Z.log2 n) by ring.
  pose proof (Z.log2_spec n Hn). replace (Z.log2 n + 1) with (Z.succ (Z.log2 n)) by ring.
  assumption.
Qed.

Lemma Zdigits2_unique (n d : Z) :
  2 ^ (d - 1) <= n < 2 ^ d -> 0 < n -> Zdigits2 n = d.
Proof.
  intros Hb Hn. rewrite Zdigits2_log2 by assumption.
  assert (0 < d).
  { destruct (Z_lt_le_dec 0 d); [assumption|].
    rewrite (Z.pow_neg_r 2 d) in Hb by lia || (destruct (Z.eq_dec d 0); [subst; simpl in Hb; lia|rewrite Z.pow_neg_r in Hb by lia; lia]). lia. }
  assert (Z.log2 n = d - 1); [|lia].
  apply Z.log2_unique; [lia|]. replace (Z.succ (d - 1)) with d by ring. assumption.
Qed.

Lemma Zdigits2_pos (n : Z) : 0 < n -> 0 < Zdigits2 n.
Proof. intros. rewrite Zdigits2_log2 by assumption. pose proof (Z.log2_nonneg n). lia. Qed.

Lemma Zdigits2_lt_pow (n d : Z) : 0 <= n -> 0 <= d -> n < 2 ^ d -> Zdigits2 n <= d.
Proof.
  intros Hn Hd Hlt. destruct (Z.eq_dec n 0) as [->|Hne]; [simpl; lia|].
  pose proof (Zdigits2_bounds n ltac:(lia)) as [Hlo _].
  destruct (Z_le_gt_dec (Zdigits2 n) d) as [H|H]; [exact H|exfalso].
  assert (2 ^ d <= 2 ^ (Zdigits2 n - 1)) by (apply Z.pow_le_mono_r; lia).
  lia.
Qed.

Lemma Zdigits2_ge_pow (n d : Z) : 0 <= d -> 2 ^ d <= n -> d + 1 <= Zdigits2 n.
Proof.
  intros Hd Hle.
  assert (0 < n) by (pose proof (Z.pow_pos_nonneg 2 d); lia).
  pose proof (Zdigits2_bounds n H) as [_ Hhi].
  pose proof (Zdigits2_nonneg n).
  destruct (Z_le_gt_dec (d + 1) (Zdigits2 n)) as [H'|H']; [exact H'|exfalso].
  assert (2 ^ Zdigits2 n <= 2 ^ d) by (apply Z.pow_le_mono_r; lia).
  lia.
Qed.

(** Scaling by a power of two. *)
Lemma Zdigits2_mul_pow2 (n k : Z) :
  0 < n -> 0 <= k -> Zdigits2 (n * 2 ^ k) = Zdigits2 n + k.
Proof.
  intros Hn Hk. pose proof (Zdigits2_bounds n Hn) as [Hlo Hhi].
  pose proof (Zdigits2_pos n Hn).
  assert (0 < 2 ^ k) by (apply Z.pow_pos_nonneg; lia).
  apply Zdigits2_unique; [|nia].
  replace (Zdigits2 n + k - 1) with ((Zdigits2 n - 1) + k) by ring.
  rewrite !Z.pow_add_r by lia. nia.
Qed.

Lemma Zdigits2_div_pow2 (n k : Z) :
  0 <= n -> 0 <= k -> Zdigits2 (n / 2 ^ k) = Z.max 0 (Zdigits2 n - k).
Proof.
  intros Hn Hk.
  assert (Hp : 0 < 2 ^ k) by (apply Z.pow_pos_nonneg; lia).
  destruct (Z.eq_dec n 0) as [->|Hne].
  { rewrite Z.div_0_l by lia. simpl. lia. }
  pose proof (Zdigits2_bounds n ltac:(lia)) as [Hlo Hhi].
  pose proof (Zdigits2_pos n ltac:(lia)).
  destruct (Z_lt_le_dec (Zdigits2 n) (k + 1)) as [Hsmall|Hbig].
  - assert (n < 2 ^ k).
    { eapply Z.lt_le_trans; [exact Hhi|]. apply Z.pow_le_mono_r; lia. }
    rewrite Z.div_small by lia. simpl. lia.
  - rewrite Z.max_r by lia.
    assert (Hq : 2 ^ (Zdigits2 n - k - 1) <= n / 2 ^ k < 2 ^ (Zdigits2 n - k)).
    { split.
      - apply Z.div_le_lower_bound; [lia|].
        rewrite <- Z.pow_add_r by lia.
        replace (k + (Zdigits2 n - k - 1)) with (Zdigits2 n - 1) by ring. lia.
      - apply Z.div_lt_upper_bound; [lia|].
        rewrite <- Z.pow_add_r by lia.
        replace (k + (Zdigits2 n - k)) with (Zdigits2 n) by ring. lia. }
    apply Zdigits2_unique; [exact Hq|].
    assert (0 < 2 ^ (Zdigits2 n - k - 1)) by (apply Z.pow_pos_nonneg; lia). lia.
Qed.

End BitLength.

(** ** Rounding in units of [2^-1074] *)

Section Units.




Lemma cexpU_nonneg (n : Z) : 0 <= cexpU n.
Proof. unfold cexpU. lia. Qed.

Lemma pow2_pos (k : Z) : 0 <= k -> 0 < 2 ^ k.
Proof. intros. apply Z.pow_pos_nonneg; lia. Qed.

(** The mantissa chosen by [RNq] has at most 53 bits, or is [2^53]. *)
Lemma RNq_mantissa_bounds (a b : Z) :
  0 <= a -> 0 < b ->
  let c := cexpU (a / b) in
  0 <= rne a (b * 2 ^ c) <= 2 ^ 53 /\
  (0 < c -> 2 ^ 52 <= rne a (b * 2 ^ c)).
Proof.
  intros Ha Hb c.
  assert (Hc : 0 <= c) by apply cexpU_nonneg.
  pose proof (pow2_pos c Hc) as Hpc.
  assert (Hbc : 0 < b * 2 ^ c) by nia.
  assert (Hq : 0 <= a / b) by (apply Z.div_pos; lia).
  pose proof (Z.div_mod a b ltac:(lia)) as Hdm.
  pose proof (Z.mod_pos_bound a b Hb) as Hr.
  assert (Hup : a / b < 2 ^ (c + 53)).
  { destruct (Z.eq_dec (a / b) 0) as [E|E].
    - rewrite E. apply pow2_pos. lia.
    - pose proof (Zdigits2_bounds (a / b) ltac:(lia)) as [_ Hhi].
      eapply Z.lt_le_trans; [exact Hhi|]. apply Z.pow_le_mono_r; [lia|].
      unfold c, cexpU. lia. }
  rewrite Z.pow_add_r in Hup by lia.
  split; [split|].
  - apply rne_nonneg; lia.
  - apply rne_le_int; [lia|]. nia.
  - intros Hcpos.
    assert (Hd : Zdigits2 (a / b) = c + 53) by (unfold c, cexpU in *; lia).
    assert (0 < a / b).
    { destruct (Z.eq_dec (a / b) 0) as [E|E]; [|lia].
      rewrite E in Hd. simpl in Hd. lia. }
    pose proof (Zdigits2_bounds (a / b) H) as [Hlo _].
    rewrite Hd in Hlo. replace (c + 53 - 1) with (c + 52) in Hlo by ring.
    rewrite Z.pow_add_r in Hlo by lia.
    apply rne_ge_int; [lia|]. nia.
Qed.

Lemma round_aux_core (s : bool) (a' b' e' a b : Z) :
  0 <= a' -> 0 < b' -> 0 <= a -> 0 < b ->
  let n1 := Z.max 0 (fexp prec emax (Zdigits2 (a' / b') + e') - e') in
  e' + n1 + 1074 = cexpU (a / b) ->
  a' * (b * 2 ^ cexpU (a / b)) = a * (b' * 2 ^ n1) ->
  round_aux s a' b' e' = packU s (RNq a b).
Proof.
  intros Ha' Hb' Ha Hb n1 He Hx.
  unfold round_aux. fold n1.
  assert (Hn1 : 0 <= n1) by (unfold n1; lia).
  set (c := cexpU (a / b)) in *.
  assert (Hc : 0 <= c) by apply cexpU_nonneg.
  pose proof (pow2_pos c Hc) as Hpc. pose proof (pow2_pos n1 Hn1) as Hpn.
  assert (Hm : rne a' (b' * 2 ^ n1) = rne a (b * 2 ^ c)).
  { apply rne_ext; nia. }
  rewrite Hm.
  destruct (RNq_mantissa_bounds a b Ha Hb) as [[Hm0 Hm53] Hm52].
  fold c in Hm0, Hm53, Hm52.
  unfold RNq. fold c.
  set (m1 := rne a (b * 2 ^ c)) in *.
  unfold packU.
  destruct (Z.eq_dec m1 0) as [E0|E0].
  { rewrite E0. simpl Z.mul. rewrite !Z.div_0_l; [reflexivity| |].
    - unfold cexpU. simpl. lia.
    - pose proof (pow2_pos (Z.max 0 (fexp prec emax (Zdigits2 0 + (e' + n1)) - (e' + n1))) ltac:(lia)). lia. }
  assert (Hm1 : 0 < m1) by lia.
  destruct (Z.eq_dec m1 (2 ^ 53)) as [E53|E53].
  - (* carry *)
    assert (Hd1 : Zdigits2 m1 = 54) by (rewrite E53; reflexivity).
    assert (Hn2 : Z.max 0 (fexp prec emax (Zdigits2 m1 + (e' + n1)) - (e' + n1)) = 1).
    { rewrite Hd1. unfold fexp, SpecFloat.emin, prec, emax. lia. }
    rewrite Hn2.
    assert (Hd2 : Zdigits2 (m1 * 2 ^ c) = 54 + c)
      by (rewrite Zdigits2_mul_pow2, Hd1 by lia; reflexivity).
    assert (Hc2 : cexpU (m1 * 2 ^ c) = c + 1) by (unfold cexpU; rewrite Hd2; lia).
    rewrite Hc2.
    assert (Hdiv : m1 * 2 ^ c / 2 ^ (c + 1) = m1 / 2 ^ 1).
    { replace (2 ^ (c + 1)) with (2 ^ 1 * 2 ^ c)
        by (rewrite <- Z.pow_add_r by lia; f_equal; lia).
      apply Z.div_mul_cancel_r; lia. }
    rewrite Hdiv. replace (e' + n1 + 1) with (c + 1 - 1074) by lia.
    reflexivity.
  - assert (Hlt : m1 < 2 ^ 53) by lia.
    assert (Hd1 : Zdigits2 m1 <= 53) by (apply Zdigits2_lt_pow; lia).
    pose proof (Zdigits2_pos m1 Hm1) as Hd1p.
    assert (Hd1' : 0 < c -> Zdigits2 m1 = 53).
    { intros Hcp. specialize (Hm52 Hcp).
      pose proof (Zdigits2_ge_pow m1 52 ltac:(lia) Hm52). lia. }
    assert (Hn2 : Z.max 0 (fexp prec emax (Zdigits2 m1 + (e' + n1)) - (e' + n1)) = 0).
    { unfold fexp, SpecFloat.emin, prec, emax. lia. }
    rewrite Hn2.
    assert (Hd2 : Zdigits2 (m1 * 2 ^ c) = Zdigits2 m1 + c)
      by (rewrite Zdigits2_mul_pow2 by lia; reflexivity).
    assert (Hc2 : cexpU (m1 * 2 ^ c) = c).
    { unfold cexpU. rewrite Hd2.
      destruct (Z.eq_dec c 0) as [Ec|Ec]; [lia|].
      rewrite Hd1' by lia. lia. }
    rewrite Hc2. rewrite Z.div_mul by lia.
    change (2 ^ 0) with 1. rewrite Z.div_1_r.
    replace (e' + n1 + 0) with (c - 1074) by lia.
    reflexivity.
Qed.

Lemma Zdiv_ext (a b c d : Z) :
  0 < b -> 0 < d -> a * d = c * b -> a / b = c / d.
Proof.
  intros Hb Hd E.
  rewrite <- (Z.div_mul_cancel_r a b d) by lia.
  rewrite E. rewrite (Z.mul_comm b d).
  apply Z.div_mul_cancel_r; lia.
Qed.

Lemma RNq_ext (a b c d : Z) :
  0 < b -> 0 < d -> a * d = c * b -> RNq a b = RNq c d.
Proof.
  intros Hb Hd E. unfold RNq.
  rewrite (Zdiv_ext a b c d Hb Hd E).
  set (k := cexpU (c / d)).
  assert (0 < 2 ^ k) by (apply pow2_pos, cexpU_nonneg).
  f_equal. apply rne_ext; nia.
Qed.

Lemma bounded_facts (m : positive) (e : Z) :
  bounded prec emax m e = true ->
  -1074 <= e <= 971 /\
  1 <= Z.pos (digits2_pos m) <= 53 /\
  (Z.pos (digits2_pos m) = 53 \/ e = -1074).
Proof.
  unfold bounded, canonical_mantissa, fexp, SpecFloat.emin, prec, emax.
  intros Hb. apply andb_true_iff in Hb. destruct Hb as [Hc He].
  apply Z.eqb_eq in Hc. apply Z.leb_le in He. lia.
Qed.


Lemma Zpos_digits (m : positive) : Zdigits2 (Z.pos m) = Z.pos (digits2_pos m).
Proof. reflexivity. Qed.

Lemma RNq_Frep (a b : Z) : 0 <= a -> 0 < b -> Frep (RNq a b).
Proof.
  intros Ha Hb.
  pose proof (RNq_mantissa_bounds a b Ha Hb) as HB. cbv zeta in HB.
  destruct HB as [[Hm0 Hm53] Hm52].
  unfold RNq. set (c := cexpU (a / b)) in *. set (m1 := rne a (b * 2 ^ c)) in *.
  assert (Hc : 0 <= c) by apply cexpU_nonneg.
  pose proof (pow2_pos c Hc) as Hpc.
  split; [nia|].
  destruct (Z.eq_dec m1 0) as [E0|E0].
  { rewrite E0, Z.mul_0_l. apply Z.mod_0_l.
    pose proof (pow2_pos (cexpU 0) (cexpU_nonneg 0)). lia. }
  assert (Hd2 : Zdigits2 (m1 * 2 ^ c) = Zdigits2 m1 + c)
    by (rewrite Zdigits2_mul_pow2 by lia; reflexivity).
  assert (Hd1 : Zdigits2 m1 <= 54).
  { destruct (Z.eq_dec m1 (2 ^ 53)) as [->|]; [simpl; lia|].
    assert (Zdigits2 m1 <= 53) by (apply Zdigits2_lt_pow; lia). lia. }
  assert (Hd1' : 0 < c -> 53 <= Zdigits2 m1).
  { intros Hcp. specialize (Hm52 Hcp).
    pose proof (Zdigits2_ge_pow m1 52 ltac:(lia) Hm52). lia. }
  pose proof (Zdigits2_pos m1 ltac:(lia)).
  assert (Hcc : cexpU (m1 * 2 ^ c) = c \/
                (cexpU (m1 * 2 ^ c) = c + 1 /\ m1 = 2 ^ 53)).
  { unfold cexpU. rewrite Hd2.
    destruct (Z.eq_dec m1 (2 ^ 53)) as [E|E].
    - right. rewrite E. simpl Zdigits2. split; [lia|reflexivity].
    - left. assert (Zdigits2 m1 <= 53) by (apply Zdigits2_lt_pow; lia).
      destruct (Z.eq_dec c 0); [lia|]. specialize (Hd1' ltac:(lia)). lia. }
  destruct Hcc as [-> | [-> ->]].
  - apply Z.mod_mul. lia.
  - rewrite Z.pow_add_r by lia.
    replace (2 ^ 53 * 2 ^ c) with (2 ^ 52 * (2 ^ c * 2 ^ 1)) by (change (2^53) with (2^52 * 2^1); ring).
    apply Z.mod_mul. lia.
Qed.

Lemma RNq_exact (n : Z) : Frep n -> RNq n 1 = n.
Proof.
  intros [Hn Hmod]. unfold RNq. rewrite Z.div_1_r, Z.mul_1_l.
  set (c := cexpU n) in *.
  pose proof (pow2_pos c (cexpU_nonneg n)) as Hpc.
  pose proof (Z.div_mod n (2 ^ c) ltac:(lia)) as Hdm.
  rewrite Hmod, Z.add_0_r in Hdm.
  rewrite Hdm at 1. rewrite (Z.mul_comm (2 ^ c)), rne_exact by lia. lia.
Qed.

(** A value [m * 2^c] packs to mantissa [m] and exponent [c - 1074]. *)
Lemma packU_Frep (s : bool) (n : Z) :
  Frep n -> 0 < n ->
  exists m : positive,
    n = Z.pos m * 2 ^ cexpU n /\
    packU s n = (if cexpU n - 1074 <=? 971
                 then S754_finite s m (cexpU n - 1074)
                 else S754_infinity s) /\
    (Z.pos (digits2_pos m) <= 53) /\
    (0 < cexpU n -> Z.pos (digits2_pos m) = 53).
Proof.
  intros [Hn Hmod] Hpos. unfold packU.
  set (c := cexpU n) in *.
  pose proof (pow2_pos c (cexpU_nonneg n)) as Hpc.
  pose proof (Z.div_mod n (2 ^ c) ltac:(lia)) as Hdm.
  rewrite Hmod, Z.add_0_r in Hdm.
  assert (Hq : 0 < n / 2 ^ c) by nia.
  destruct (n / 2 ^ c) as [|m|m] eqn:Eq; try lia.
  exists m. split; [lia|]. split; [reflexivity|].
  assert (Hd : Zdigits2 n = Z.pos (digits2_pos m) + c).
  { rewrite Hdm, (Z.mul_comm (2 ^ c)), Zdigits2_mul_pow2 by (try apply cexpU_nonneg; lia).
    reflexivity. }
  unfold c, cexpU in *. lia.
Qed.

Lemma packU_valid (s : bool) (n : Z) :
  Frep n -> valid_binary (packU s n) = true.
Proof.
  intros HF. destruct (Z.eq_dec n 0) as [->|Hne].
  { reflexivity. }
  destruct (packU_Frep s n HF ltac:(destruct HF; lia)) as (m & Hn & Hp & Hd & Hd').
  rewrite Hp. destruct (Z.leb_spec (cexpU n - 1074) 971); [|reflexivity].
  simpl. unfold bounded, canonical_mantissa, fexp, SpecFloat.emin, prec, emax.
  pose proof (cexpU_nonneg n).
  apply andb_true_iff. split; [apply Z.eqb_eq | apply Z.leb_le; lia].
  destruct (Z.eq_dec (cexpU n) 0) as [E|E]; [rewrite E; lia|].
  rewrite Hd' by lia. lia.
Qed.

(** A valid finite float is the packing of its value in units. *)
Lemma packU_bounded (s : bool) (m : positive) (e : Z) :
  bounded prec emax m e = true ->
  Frep (Z.pos m * 2 ^ (e + 1074)) /\
  cexpU (Z.pos m * 2 ^ (e + 1074)) = e + 1074 /\
  packU s (Z.pos m * 2 ^ (e + 1074)) = S754_finite s m e.
Proof.
  intros Hb. destruct (bounded_facts m e Hb) as (He & Hd & Hcan).
  assert (Hdig : Zdigits2 (Z.pos m * 2 ^ (e + 1074)) = Z.pos (digits2_pos m) + (e + 1074)).
  { rewrite Zdigits2_mul_pow2 by lia. reflexivity. }
  assert (Hc : cexpU (Z.pos m * 2 ^ (e + 1074)) = e + 1074).
  { unfold cexpU. rewrite Hdig. lia. }
  pose proof (pow2_pos (e + 1074) ltac:(lia)).
  split; [|split].
  - split; [nia|]. rewrite Hc. apply Z.mod_mul. lia.
  - exact Hc.
  - unfold packU. rewrite Hc, Z.div_mul by lia.
    replace (e + 1074 - 1074) with e by ring.
    destruct (Z.leb_spec e 971); [reflexivity|lia].
Qed.

Lemma Zdigits2_div_scale (a b g : Z) :
  0 < b -> 0 <= g -> 0 < a / b ->
  Zdigits2 (a * 2 ^ g / b) = Zdigits2 (a / b) + g.
Proof.
  intros Hb Hg Hq.
  pose proof (Zdigits2_bounds (a / b) Hq) as [Hlo Hhi].
  pose proof (Zdigits2_pos (a / b) Hq) as Hd.
  pose proof (pow2_pos g Hg) as Hpg.
  pose proof (Z.div_mod a b ltac:(lia)) as Hdm.
  pose proof (Z.mod_pos_bound a b Hb) as Hr.
  set (D := Zdigits2 (a / b)) in *.
  assert (H1 : 2 ^ (D - 1) * b <= a) by nia.
  assert (H2 : a < 2 ^ D * b) by nia.
  assert (Hq2 : 2 ^ (D + g - 1) <= a * 2 ^ g / b < 2 ^ (D + g)).
  { split.
    - apply Z.div_le_lower_bound; [lia|].
      replace (D + g - 1) with ((D - 1) + g) by ring.
      rewrite Z.pow_add_r by lia. nia.
    - apply Z.div_lt_upper_bound; [lia|].
      rewrite Z.pow_add_r by lia. nia. }
  apply Zdigits2_unique; [exact Hq2|].
  pose proof (pow2_pos (D + g - 1) ltac:(lia)). lia.
Qed.

Lemma div_eucl_div_mod (a b : Z) : Z.div_eucl a b = (a / b, a mod b).
Proof. unfold Z.div, Z.modulo. now destruct (Z.div_eucl a b). Qed.

Lemma SFdiv_RNq (sx sy : bool) (mx my : positive) (ex ey : Z) :
  bounded prec emax mx ex = true ->
  bounded prec emax my ey = true ->
  SFdiv prec emax (S754_finite sx mx ex) (S754_finite sy my ey)
  = packU (xorb sx sy)
      (RNq (Z.pos mx * 2 ^ (ex + 1074) * 2 ^ 1074) (Z.pos my * 2 ^ (ey + 1074))).
Proof.
  intros Hbx Hby.
  destruct (bounded_facts mx ex Hbx) as (Hex & Hdx & _).
  destruct (bounded_facts my ey Hby) as (Hey & Hdy & _).
  unfold SFdiv, SFdiv_core_binary. rewrite !Zpos_digits.
  set (d1 := Z.pos (digits2_pos mx)) in *. set (d2 := Z.pos (digits2_pos my)) in *.
  set (e' := Z.min (fexp prec emax (d1 + ex - (d2 + ey))) (ex - ey)).
  set (s := ex - ey - e').
  assert (Hs : 0 <= s) by (unfold s, e'; lia).
  assert (Hm' : match s with
                | 0 => Z.pos mx
                | Z.pos _ => Z.shiftl (Z.pos mx) s
                | Z.neg _ => 0
                end = Z.pos mx * 2 ^ s).
  { destruct s as [|p|p] eqn:Es; [simpl; lia | apply Z.shiftl_mul_pow2; lia | lia]. }
  rewrite Hm'. rewrite div_eucl_div_mod.
  rewrite new_location_loc_of by lia.
  pose proof (pow2_pos s Hs) as Hps.
  rewrite binary_round_aux_rec by nia.
  pose proof (pow2_pos (ex + 1074) ltac:(lia)) as Hpx.
  pose proof (pow2_pos (ey + 1074) ltac:(lia)) as Hpy.
  pose proof (pow2_pos 1074 ltac:(lia)) as Hpu.
  (* bounds on the mantissas *)
  pose proof (Zdigits2_bounds (Z.pos mx) ltac:(lia)) as [Hxlo Hxhi].
  pose proof (Zdigits2_bounds (Z.pos my) ltac:(lia)) as [Hylo Hyhi].
  rewrite !Zpos_digits in Hxlo, Hxhi, Hylo, Hyhi. fold d1 in Hxlo, Hxhi. fold d2 in Hylo, Hyhi.
  set (a' := Z.pos mx * 2 ^ s). set (b' := Z.pos my).
  set (a := Z.pos mx * 2 ^ (ex + 1074) * 2 ^ 1074).
  set (b := Z.pos my * 2 ^ (ey + 1074)).
  assert (Hb : 0 < b) by (unfold b; nia).
  assert (Ha : 0 <= a) by (unfold a; nia).
  assert (Ha' : 0 <= a') by (unfold a'; nia).
  set (D' := Zdigits2 (a' / b')).
  set (n1 := Z.max 0 (fexp prec emax (D' + e') - e')).
  (* the two representations denote the same rational, shifted by g *)
  set (g := e' + 1074).
  assert (Hsg : s + g = ex - ey + 1074) by (unfold s, g; lia).
  destruct (Z_le_gt_dec (-1074) (d1 + ex - (d2 + ey) - 53)) as [Hnorm|Hsub].
  - (* the quotient is normal *)
    assert (He' : e' = d1 + ex - (d2 + ey) - 53)
      by (unfold e', fexp, SpecFloat.emin, prec, emax; lia).
    assert (Hsv : s = 53 + d2 - d1) by (unfold s; lia).
    assert (Hg : 0 <= g) by (unfold g; lia).
    pose proof (pow2_pos g Hg) as Hpg.
    assert (Hq52 : 2 ^ 52 <= a' / b').
    { apply Z.div_le_lower_bound; [unfold b'; lia|]. unfold a', b'.
      assert (2 ^ 52 * 2 ^ d2 <= 2 ^ (d1 - 1) * 2 ^ s).
      { rewrite <- !Z.pow_add_r by lia. apply Z.pow_le_mono_r; lia. }
      nia. }
    assert (HD' : 53 <= D').
    { unfold D'. pose proof (Zdigits2_ge_pow (a' / b') 52 ltac:(lia) Hq52). lia. }
    assert (Hq0 : 0 < a' / b') by (pose proof (pow2_pos 52 ltac:(lia)); lia).
    assert (Hab : a / b = a' * 2 ^ g / b').
    { apply Zdiv_ext; [assumption | unfold b'; lia|].
      unfold a, b, a', b'.
      replace (Z.pos mx * 2 ^ (ex + 1074) * 2 ^ 1074 * Z.pos my)
        with (Z.pos mx * Z.pos my * (2 ^ (ex + 1074) * 2 ^ 1074)) by ring.
      replace (Z.pos mx * 2 ^ s * 2 ^ g * (Z.pos my * 2 ^ (ey + 1074)))
        with (Z.pos mx * Z.pos my * (2 ^ s * 2 ^ g * 2 ^ (ey + 1074))) by ring.
      f_equal. rewrite <- !Z.pow_add_r by lia. f_equal. lia. }
    assert (Hc : cexpU (a / b) = D' + g - 53).
    { unfold cexpU. rewrite Hab.
      rewrite Zdigits2_div_scale by (unfold b'; lia || assumption). fold D'. lia. }
    assert (Hn1 : n1 = D' - 53)
      by (unfold n1, fexp, SpecFloat.emin, prec, emax; lia).
    pose proof (round_aux_core (xorb sx sy) a' b' e' a b Ha'
                  ltac:(unfold b'; lia) Ha Hb) as Hcore.
    cbv zeta in Hcore. fold D' n1 in Hcore. apply Hcore.
    + rewrite Hc, Hn1. unfold g. lia.
    + rewrite Hc, Hn1. unfold a, b, a', b'.
      replace (Z.pos mx * 2 ^ s * (Z.pos my * 2 ^ (ey + 1074) * 2 ^ (D' + g - 53)))
        with (Z.pos mx * Z.pos my * (2 ^ s * 2 ^ (ey + 1074) * 2 ^ (D' + g - 53))) by ring.
      replace (Z.pos mx * 2 ^ (ex + 1074) * 2 ^ 1074 * (Z.pos my * 2 ^ (D' - 53)))
        with (Z.pos mx * Z.pos my * (2 ^ (ex + 1074) * 2 ^ 1074 * 2 ^ (D' - 53))) by ring.
      f_equal. rewrite <- !Z.pow_add_r by lia. f_equal. lia.
  - (* the quotient is subnormal or below *)
    assert (He' : e' = Z.min (-1074) (ex - ey))
      by (unfold e', fexp, SpecFloat.emin, prec, emax; lia).
    assert (Hg : g <= 0) by (unfold g; lia).
    pose proof (pow2_pos (- g) ltac:(lia)) as Hpg.
    assert (Hab : a / b = a' / b' / 2 ^ (- g)).
    { rewrite Z.div_div by (unfold b'; lia).
      apply Zdiv_ext; [assumption | unfold b'; nia|].
      unfold a, b, a', b'.
      replace (Z.pos mx * 2 ^ (ex + 1074) * 2 ^ 1074 * (Z.pos my * 2 ^ (- g)))
        with (Z.pos mx * Z.pos my * (2 ^ (ex + 1074) * 2 ^ 1074 * 2 ^ (- g))) by ring.
      replace (Z.pos mx * 2 ^ s * (Z.pos my * 2 ^ (ey + 1074)))
        with (Z.pos mx * Z.pos my * (2 ^ s * 2 ^ (ey + 1074))) by ring.
      f_equal. rewrite <- !Z.pow_add_r by lia. f_equal. lia. }
    assert (Hq' : 0 <= a' / b') by (apply Z.div_pos; unfold b'; lia).
    assert (Hc : cexpU (a / b) = Z.max 0 (D' + g - 53)).
    { unfold cexpU. rewrite Hab, Zdigits2_div_pow2 by lia. fold D'. lia. }
    assert (HD'0 : 0 <= D') by apply Zdigits2_nonneg.
    assert (Hn1 : n1 = Z.max (D' - 53) (- g))
      by (unfold n1, fexp, SpecFloat.emin, prec, emax, g in *; lia).
    pose proof (round_aux_core (xorb sx sy) a' b' e' a b Ha'
                  ltac:(unfold b'; lia) Ha Hb) as Hcore.
    cbv zeta in Hcore. fold D' n1 in Hcore. apply Hcore.
    + rewrite Hc, Hn1. unfold g. lia.
    + rewrite Hc, Hn1. unfold a, b, a', b'.
      replace (Z.pos mx * 2 ^ s * (Z.pos my * 2 ^ (ey + 1074) * 2 ^ Z.max 0 (D' + g - 53)))
        with (Z.pos mx * Z.pos my * (2 ^ s * 2 ^ (ey + 1074) * 2 ^ Z.max 0 (D' + g - 53))) by ring.
      replace (Z.pos mx * 2 ^ (ex + 1074) * 2 ^ 1074 * (Z.pos my * 2 ^ Z.max (D' - 53) (- g)))
        with (Z.pos mx * Z.pos my * (2 ^ (ex + 1074) * 2 ^ 1074 * 2 ^ Z.max (D' - 53) (- g))) by ring.
      f_equal. rewrite <- !Z.pow_add_r by lia. f_equal. lia.
Qed.

Lemma binary_round_aux_exact (s : bool) (a e : Z) :
  0 <= a ->
  binary_round_aux prec emax s a e loc_Exact = round_aux s a 1 e.
Proof.
  intros Ha. rewrite <- binary_round_aux_rec by lia.
  unfold loc_of. now rewrite Z.mod_1_r, Z.div_1_r.
Qed.

Lemma Zdigits2_mul_bounds (x y : Z) :
  0 < x -> 0 < y ->
  Zdigits2 x + Zdigits2 y - 1 <= Zdigits2 (x * y) <= Zdigits2 x + Zdigits2 y.
Proof.
  intros Hx Hy.
  pose proof (Zdigits2_bounds x Hx) as [Hxl Hxh].
  pose proof (Zdigits2_bounds y Hy) as [Hyl Hyh].
  pose proof (Zdigits2_pos x Hx). pose proof (Zdigits2_pos y Hy).
  split.
  - assert (2 ^ (Zdigits2 x + Zdigits2 y - 2) <= x * y).
    { replace (Zdigits2 x + Zdigits2 y - 2) with ((Zdigits2 x - 1) + (Zdigits2 y - 1)) by ring.
      rewrite Z.pow_add_r by lia.
      pose proof (pow2_pos (Zdigits2 x - 1) ltac:(lia)).
      pose proof (pow2_pos (Zdigits2 y - 1) ltac:(lia)). nia. }
    pose proof (Zdigits2_ge_pow (x * y) (Zdigits2 x + Zdigits2 y - 2) ltac:(lia) H1). lia.
  - apply Zdigits2_lt_pow; [nia | lia |].
    rewrite Z.pow_add_r by lia. nia.
Qed.

Lemma SFmul_RNq (sx sy : bool) (mx my : positive) (ex ey : Z) :
  bounded prec emax mx ex = true ->
  bounded prec emax my ey = true ->
  SFmul prec emax (S754_finite sx mx ex) (S754_finite sy my ey)
  = packU (xorb sx sy)
      (RNq (Z.pos mx * 2 ^ (ex + 1074) * (Z.pos my * 2 ^ (ey + 1074))) (2 ^ 1074)).
Proof.
  intros Hbx Hby.
  destruct (bounded_facts mx ex Hbx) as (Hex & Hdx & Hcx).
  destruct (bounded_facts my ey Hby) as (Hey & Hdy & Hcy).
  unfold SFmul. rewrite binary_round_aux_exact by lia.
  rewrite Pos2Z.inj_mul.
  pose proof (pow2_pos (ex + 1074) ltac:(lia)) as Hpx.
  pose proof (pow2_pos (ey + 1074) ltac:(lia)) as Hpy.
  pose proof (pow2_pos 1074 ltac:(lia)) as Hpu.
  set (a' := Z.pos mx * Z.pos my).
  set (a := Z.pos mx * 2 ^ (ex + 1074) * (Z.pos my * 2 ^ (ey + 1074))).
  set (e' := ex + ey). set (g := e' + 1074).
  assert (Ha' : 0 < a') by (unfold a'; lia).
  assert (Ha : 0 <= a) by (unfold a; nia).
  pose proof (Zdigits2_mul_bounds (Z.pos mx) (Z.pos my) ltac:(lia) ltac:(lia)) as HD.
  rewrite !Zpos_digits in HD. fold a' in HD.
  set (D' := Zdigits2 (a' / 1)).
  assert (HDeq : D' = Zdigits2 a') by (unfold D'; now rewrite Z.div_1_r).
  set (n1 := Z.max 0 (fexp prec emax (D' + e') - e')).
  assert (Hc : cexpU (a / 2 ^ 1074) = g + n1).
  { destruct (Z_le_gt_dec 0 g) as [Hg|Hg].
    + pose proof (pow2_pos g Hg) as Hpg.
      assert (Hab : a / 2 ^ 1074 = a' * 2 ^ g).
      { replace a with (a' * 2 ^ g * 2 ^ 1074); [apply Z.div_mul; lia|].
        unfold a, a'.
        assert (Hp : 2 ^ (ex + 1074) * 2 ^ (ey + 1074) = 2 ^ g * 2 ^ 1074)
          by (rewrite <- !Z.pow_add_r by lia; f_equal; unfold g, e'; lia).
        transitivity (Z.pos mx * Z.pos my * (2 ^ g * 2 ^ 1074)); [ring|].
        rewrite <- Hp. ring. }
      unfold cexpU. rewrite Hab, Zdigits2_mul_pow2 by lia. rewrite <- HDeq.
      unfold n1, fexp, SpecFloat.emin, prec, emax, g, e' in *. lia.
    + pose proof (pow2_pos (- g) ltac:(lia)) as Hpg.
      assert (Hab : a / 2 ^ 1074 = a' / 2 ^ (- g)).
      { apply Zdiv_ext; [lia | lia |].
        unfold a, a'.
        assert (Hp : 2 ^ (ex + 1074) * 2 ^ (ey + 1074) * 2 ^ (- g) = 2 ^ 1074)
          by (rewrite <- !Z.pow_add_r by (unfold g, e' in *; lia);
              f_equal; unfold g, e'; lia).
        rewrite <- Hp. ring. }
      unfold cexpU. rewrite Hab, Zdigits2_div_pow2 by lia. rewrite <- HDeq.
      pose proof (Zdigits2_nonneg a').
      unfold n1, fexp, SpecFloat.emin, prec, emax, g, e' in *. lia. }
  pose proof (round_aux_core (xorb sx sy) a' 1 e' a (2 ^ 1074)
                ltac:(lia) ltac:(lia) Ha Hpu) as Hcore.
  cbv zeta in Hcore. fold D' n1 in Hcore. apply Hcore; clear Hcore.
  - rewrite Hc. unfold g. lia.
  - rewrite Hc.
    assert (Hn1 : 0 <= n1) by (unfold n1; lia).
    assert (Hgn : 0 <= g + n1) by (rewrite <- Hc; apply cexpU_nonneg).
    unfold a, a'.
    assert (Hp : 2 ^ 1074 * 2 ^ (g + n1)
                 = 2 ^ (ex + 1074) * 2 ^ (ey + 1074) * 2 ^ n1)
      by (rewrite <- !Z.pow_add_r by lia; f_equal; unfold g, e'; lia).
    transitivity (Z.pos mx * Z.pos my * (2 ^ 1074 * 2 ^ (g + n1))); [ring|].
    rewrite Hp. ring.
Qed.

End Units.

(** ** Quantizing twice, on integers *)

Section QuantizeTwice.


Lemma U_pos : 0 < U.
Proof. apply pow2_pos. lia. Qed.

Lemma Frep_mul_pow2 (n j : Z) : Frep n -> 0 <= j -> Frep (n * 2 ^ j).
Proof.
  intros [Hn Hmod] Hj. pose proof (pow2_pos j Hj) as Hpj.
  split; [nia|].
  destruct (Z.eq_dec n 0) as [->|Hne].
  { rewrite Z.mul_0_l. apply Z.mod_0_l.
    pose proof (pow2_pos (cexpU 0) (cexpU_nonneg 0)). lia. }
  assert (Hd : Zdigits2 (n * 2 ^ j) = Zdigits2 n + j)
    by (apply Zdigits2_mul_pow2; lia).
  pose proof (cexpU_nonneg n) as Hc. pose proof (pow2_pos (cexpU n) Hc) as Hpc.
  apply Z.mod_divide in Hmod; [|lia]. destruct Hmod as [z Hz].
  apply Z.mod_divide; [pose proof (pow2_pos (cexpU (n * 2 ^ j)) (cexpU_nonneg _)); lia|].
  assert (Hle : cexpU (n * 2 ^ j) <= cexpU n + j) by (unfold cexpU in *; lia).
  exists (z * 2 ^ (cexpU n + j - cexpU (n * 2 ^ j))).
  rewrite <- Z.mul_assoc, <- Z.pow_add_r by (try apply cexpU_nonneg; lia).
  replace (cexpU n + j - cexpU (n * 2 ^ j) + cexpU (n * 2 ^ j)) with (cexpU n + j) by ring.
  rewrite Z.pow_add_r by lia. rewrite Hz at 1. ring.
Qed.

(** An integer with at most 53 bits is a binary64 value, at any scale of
    at least [2^-1074]. *)
Lemma Frep_small (k j : Z) :
  0 <= k -> Zdigits2 k <= 53 -> 0 <= j -> Frep (k * 2 ^ j).
Proof.
  intros Hk Hd Hj. apply Frep_mul_pow2; [|assumption].
  split; [assumption|]. unfold cexpU.
  replace (Z.max 0 (Zdigits2 k - 53)) with 0 by lia. apply Z.mod_1_r.
Qed.

Lemma rne_small_digits (m e : Z) :
  0 <= m -> 0 <= e -> Zdigits2 (rne m (2 ^ e)) <= Z.max 1 (Zdigits2 m - e + 1).
Proof.
  intros Hm He. pose proof (pow2_pos e He) as Hpe.
  pose proof (Zdigits2_nonneg m) as Hdm.
  assert (Hr : 0 <= rne m (2 ^ e)) by (apply rne_nonneg; lia).
  set (k := Z.max 1 (Zdigits2 m - e + 1)).
  assert (Hle : rne m (2 ^ e) <= 2 ^ (k - 1)).
  { apply rne_le_int; [lia|]. rewrite <- Z.pow_add_r by lia.
    destruct (Z.eq_dec m 0) as [->|Hne]; [apply Z.pow_nonneg; lia|].
    pose proof (Zdigits2_bounds m ltac:(lia)) as [_ Hhi].
    apply Z.lt_le_incl. eapply Z.lt_le_trans; [exact Hhi|].
    apply Z.pow_le_mono_r; lia. }
  destruct (Z.eq_dec (rne m (2 ^ e)) (2 ^ (k - 1))) as [E|E].
  - rewrite E.
    replace (2 ^ (k - 1)) with (1 * 2 ^ (k - 1)) by ring.
    rewrite Zdigits2_mul_pow2 by lia. simpl. lia.
  - assert (Zdigits2 (rne m (2 ^ e)) <= k - 1); [|lia].
    apply Zdigits2_lt_pow; lia.
Qed.

(** The integer nearest to a binary64 value is a binary64 value. *)
Lemma Frep_rint (T : Z) : Frep T -> Frep (rne T U * U).
Proof.
  intros [HT Hmod]. pose proof U_pos as HU.
  pose proof (cexpU_nonneg T) as Hc.
  assert (HdT : Zdigits2 T <= 53 + cexpU T) by (unfold cexpU; lia).
  remember (cexpU T) as c eqn:Ec.
  pose proof (pow2_pos c Hc) as Hpc.
  apply Z.mod_divide in Hmod; [|lia]. destruct Hmod as [m Hm].
  assert (Hm0 : 0 <= m) by nia.
  destruct (Z_le_gt_dec 1074 c) as [Hbig|Hsmall].
  - (* T is an integer number of ones *)
    assert (HTU : T = m * 2 ^ (c - 1074) * U).
    { rewrite Hm. unfold U. rewrite <- Z.mul_assoc, <- Z.pow_add_r by lia.
      do 2 f_equal. lia. }
    rewrite HTU at 1. rewrite rne_exact by lia.
    rewrite <- HTU.
    split; [assumption|]. apply Z.mod_divide; rewrite <- Ec; [lia|]. now exists m.
  - (* the rounded integer has at most 53 bits *)
    assert (Hdm : Zdigits2 m <= 53).
    { destruct (Z.eq_dec m 0) as [->|Hne]; [simpl; lia|].
      rewrite Hm, Zdigits2_mul_pow2 in HdT by lia. lia. }
    assert (Hk : rne T U = rne m (2 ^ (1074 - c))).
    { apply rne_ext; [lia | apply pow2_pos; lia |].
      rewrite Hm. unfold U. rewrite <- !Z.mul_assoc. f_equal.
      rewrite <- !Z.pow_add_r by lia. f_equal. lia. }
    rewrite Hk. unfold U.
    apply Frep_small; [apply rne_nonneg; [lia|apply pow2_pos; lia] | | lia].
    pose proof (rne_small_digits m (1074 - c) Hm0 ltac:(lia)). lia.
Qed.

Lemma cexpU_pos_bounds (v : Z) :
  0 <= v -> 0 < cexpU v -> 2 ^ (cexpU v + 52) <= v < 2 ^ (cexpU v + 53).
Proof.
  intros Hv Hc. unfold cexpU in *.
  assert (Hv0 : 0 < v).
  { destruct (Z.eq_dec v 0) as [->|]; [simpl in Hc; lia | lia]. }
  pose proof (Zdigits2_bounds v Hv0) as [Hlo Hhi].
  replace (Z.max 0 (Zdigits2 v - 53) + 52) with (Zdigits2 v - 1) by lia.
  replace (Z.max 0 (Zdigits2 v - 53) + 53) with (Zdigits2 v) by lia.
  lia.
Qed.

Lemma cexpU_of_bounds (n d : Z) :
  53 <= d -> 2 ^ (d - 1) <= n < 2 ^ d -> cexpU n = d - 53.
Proof.
  intros Hd Hn. unfold cexpU.
  pose proof (pow2_pos (d - 1) ltac:(lia)).
  rewrite (Zdigits2_unique n d) by lia. lia.
Qed.

Lemma Frep_decomp (T : Z) :
  Frep T -> 0 < cexpU T ->
  exists m, T = m * 2 ^ cexpU T /\ 2 ^ 52 <= m < 2 ^ 53.
Proof.
  intros [HT Hmod] Hc.
  pose proof (cexpU_pos_bounds T HT Hc) as [Hlo Hhi].
  remember (cexpU T) as c eqn:Ec.
  pose proof (pow2_pos c ltac:(lia)) as Hpc.
  apply Z.mod_divide in Hmod; [|lia]. destruct Hmod as [m Hm].
  exists m. split; [exact Hm|].
  rewrite !Z.pow_add_r in Hlo, Hhi by lia.
  split; nia.
Qed.

(** Among the binary64 values, the rounded one is nearest. *)
Lemma RNq_nearest_float (v X : Z) :
  0 <= v -> Frep X -> Z.abs (v - RNq v 1) <= Z.abs (v - X).
Proof.
  intros Hv [HX Hmod]. unfold RNq. rewrite Z.div_1_r, Z.mul_1_l.
  destruct (Z_le_gt_dec (cexpU v) 0) as [Hc0|Hc].
  { assert (E : cexpU v = 0) by (pose proof (cexpU_nonneg v); lia).
    rewrite E. change (2 ^ 0) with 1.
    replace v with (v * 1) at 2 by ring. rewrite rne_exact by lia. lia. }
  pose proof (cexpU_pos_bounds v Hv ltac:(lia)) as [Hlo Hhi].
  remember (cexpU v) as c eqn:Ec.
  pose proof (pow2_pos c ltac:(lia)) as Hpc.
  destruct (Z_le_gt_dec c (cexpU X)) as [Hge|Hlt].
  - (* X is on the lattice of spacing 2^c *)
    pose proof (pow2_pos (cexpU X) (cexpU_nonneg X)) as HpX.
    apply Z.mod_divide in Hmod; [|lia]. destruct Hmod as [z Hz].
    assert (HXw : X = z * 2 ^ (cexpU X - c) * 2 ^ c).
    { rewrite <- Z.mul_assoc, <- Z.pow_add_r by lia.
      replace (cexpU X - c + c) with (cexpU X) by ring. exact Hz. }
    rewrite HXw. apply rne_nearest. lia.
  - (* X is below 2^(c+52), itself on the lattice *)
    assert (HXlt : X < 2 ^ (c + 52)).
    { destruct (Z.eq_dec X 0) as [->|Hne]; [apply pow2_pos; lia|].
      pose proof (Zdigits2_bounds X ltac:(lia)) as [_ Hh].
      eapply Z.lt_le_trans; [exact Hh|].
      apply Z.pow_le_mono_r; [lia|]. unfold cexpU in Hlt. lia. }
    pose proof (rne_nearest v (2 ^ c) (2 ^ 52) Hpc) as Hn.
    rewrite <- Z.pow_add_r in Hn by lia.
    replace (52 + c) with (c + 52) in Hn by ring. lia.
Qed.

(** A binary64 value that rounds to an integer [K >= 2^51], odd or above
    [2^52], is that integer. *)
Lemma rint_exact_large (T K : Z) :
  Frep T -> K = rne T U -> 2 ^ 51 <= K ->
  Z.odd K = true \/ 2 ^ 52 < K ->
  T = K * U.
Proof.
  intros HF HK Hbig Hodd. pose proof U_pos as HU.
  assert (HT0 : 0 <= T) by apply HF.
  destruct (Z_le_gt_dec (cexpU T) 1072) as [Hsmall|Hc].
  - (* T < 2^51, so K <= 2^51 *)
    exfalso.
    assert (HTlt : T < 2 ^ 51 * U).
    { destruct (Z.eq_dec T 0) as [->|Hne]; [nia|].
      pose proof (Zdigits2_bounds T ltac:(lia)) as [_ Hh].
      eapply Z.lt_le_trans; [exact Hh|]. unfold U.
      rewrite <- Z.pow_add_r by lia.
      apply Z.pow_le_mono_r; [lia|]. unfold cexpU in Hsmall. lia. }
    assert (Hle : K <= 2 ^ 51) by (rewrite HK; apply rne_le_int; lia).
    assert (E : K = 2 ^ 51) by lia.
    destruct Hodd as [Ho|Hgt]; [|lia].
    rewrite E in Ho. vm_compute in Ho. discriminate.
  - destruct (Frep_decomp T HF ltac:(lia)) as (m & Hm & Hm1 & Hm2).
    remember (cexpU T) as c eqn:Ec.
    destruct (Z_le_gt_dec 1074 c) as [Hint|Hhalf].
    + (* T is an integer *)
      assert (HTU : T = m * 2 ^ (c - 1074) * U).
      { rewrite Hm. unfold U. rewrite <- Z.mul_assoc, <- Z.pow_add_r by lia.
        do 2 f_equal. lia. }
      rewrite HK. rewrite HTU at 2. rewrite rne_exact by lia. exact HTU.
    + (* T = m * (1/2) *)
      assert (Hc1 : c = 1073) by lia.
      assert (HUh : U = 2 * 2 ^ c).
      { rewrite Hc1. unfold U. rewrite <- Z.pow_succ_r by lia. reflexivity. }
      assert (Hr : rne T U = rne m 2).
      { apply rne_ext; [lia|lia|]. rewrite Hm, HUh. ring. }
      rewrite Hr in HK.
      pose proof (rne_spec m 2 ltac:(lia)) as [Hs1 Hs2]. rewrite <- HK in Hs1, Hs2.
      assert (Hcase : m = K * 2 \/ 2 * Z.abs (m - K * 2) = 2) by lia.
      destruct Hcase as [E|Htie].
      * rewrite Hm, E, HUh. ring.
      * exfalso. specialize (Hs2 Htie).
        destruct Hodd as [Ho|Hgt].
        -- rewrite <- Z.negb_even, Hs2 in Ho. discriminate.
        -- lia.
Qed.

Lemma RNq_nonneg (a b : Z) : 0 <= a -> 0 < b -> 0 <= RNq a b.
Proof.
  intros Ha Hb. unfold RNq.
  pose proof (pow2_pos _ (cexpU_nonneg (a / b))) as Hp.
  pose proof (rne_nonneg a (b * 2 ^ cexpU (a / b)) Ha ltac:(nia)). nia.
Qed.

Lemma RNq1_error (v : Z) :
  0 <= v ->
  (cexpU v = 0 /\ RNq v 1 = v) \/
  (0 < cexpU v /\ 2 * Z.abs (v - RNq v 1) <= 2 ^ cexpU v).
Proof.
  intros Hv. unfold RNq. rewrite Z.div_1_r, Z.mul_1_l.
  pose proof (cexpU_nonneg v) as Hc.
  destruct (Z.eq_dec (cexpU v) 0) as [E|E].
  - left. split; [exact E|]. rewrite E. change (2 ^ 0) with 1.
    replace v with (v * 1) at 1 by ring. rewrite rne_exact by lia. ring.
  - right. split; [lia|].
    apply (rne_spec v (2 ^ cexpU v)). apply pow2_pos. lia.
Qed.

(** When the product [K * S] is itself a binary64 value, dividing it by
    [S] gives [K] back exactly. *)
Lemma requant_exact (S K : Z) :
  0 < S -> Frep (K * U) -> RNq (K * S) 1 = K * S ->
  rne (RNq (RNq (K * S) 1 * U) S) U = K.
Proof.
  intros HS HF HY. pose proof U_pos as HU. rewrite HY.
  rewrite (RNq_ext (K * S * U) S (K * U) 1) by (try lia; ring).
  rewrite RNq_exact by assumption. apply rne_exact. lia.
Qed.

(** Below [2^51] the two rounding errors together stay under one half. *)
Lemma requant_small (S K : Z) :
  0 < S -> 0 < K -> K < 2 ^ 51 ->
  rne (RNq (RNq (K * S) 1 * U) S) U = K.
Proof.
  intros HS HK Hlt. pose proof U_pos as HU.
  set (v := K * S). assert (Hv : 0 <= v) by (unfold v; nia).
  pose proof (RNq_nonneg v 1 Hv ltac:(lia)) as HY0.
  assert (Hd : 4 * Z.abs (v - RNq v 1) < S).
  { destruct (RNq1_error v Hv) as [[_ E]|[Hc He]]; [rewrite E; lia|].
    pose proof (cexpU_pos_bounds v Hv Hc) as [Hlo _].
    rewrite Z.pow_add_r in Hlo by lia.
    pose proof (pow2_pos (cexpU v) ltac:(lia)).
    assert (v < 2 ^ 51 * S) by (unfold v; nia).
    change (2 ^ 52) with (2 * 2 ^ 51) in Hlo.
    assert (2 * 2 ^ cexpU v < S) by nia. lia. }
  set (Y := RNq v 1) in *.
  unfold RNq at 1.
  set (c' := cexpU (Y * U / S)).
  assert (Hc' : 0 <= c' <= 1072).
  { split; [apply cexpU_nonneg|]. unfold c', cexpU.
    assert (Hq : Y * U / S < 2 ^ 1125).
    { apply Z.div_lt_upper_bound; [lia|].
      change (2 ^ 1125) with (2 ^ 51 * U).
      assert (Y < 2 ^ 51 * S); [|nia].
      assert (v + S <= 2 ^ 51 * S) by (unfold v; nia). lia. }
    assert (0 <= Y * U / S) by (apply Z.div_pos; nia).
    pose proof (Zdigits2_lt_pow (Y * U / S) 1125 ltac:(lia) ltac:(lia) Hq). lia. }
  set (W := 2 ^ c').
  assert (HW : 0 < W) by (apply pow2_pos; lia).
  assert (HWU : 4 * W <= U).
  { change U with (4 * 2 ^ 1072). apply Z.mul_le_mono_nonneg_l; [lia|].
    apply Z.pow_le_mono_r; lia. }
  pose proof (rne_spec (Y * U) (S * W) ltac:(nia)) as [Hs _].
  set (m := rne (Y * U) (S * W)) in *.
  assert (Hclose : 2 * Z.abs (m * W - K * U) < U).
  { assert (HE : (m * W - K * U) * S = (Y - v) * U - (Y * U - m * (S * W)))
      by (unfold v; ring).
    assert (H1 : 4 * Z.abs ((Y - v) * U) < S * U).
    { rewrite Z.abs_mul, (Z.abs_eq U) by lia.
      replace (Z.abs (Y - v)) with (Z.abs (v - Y)) by lia. nia. }
    assert (H2 : 4 * (S * W) <= S * U) by nia.
    assert (H3 : 4 * Z.abs ((m * W - K * U) * S) < 3 * (S * U)) by lia.
    rewrite Z.abs_mul, (Z.abs_eq S) in H3 by lia. nia. }
  apply rne_unique; [lia|lia|lia].
Qed.

(** The setting of the large case: [K] in a binade [2^51 h < K < 2^52 h]
    with [h = 2^(j-51)], and [K U = kappa u] with [2 u = h U]. *)
Lemma large_frame (K : Z) :
  2 ^ 51 <= K -> Frep (K * U) ->
  exists j h u kappa,
    51 <= j /\ h = 2 ^ (j - 51) /\ u = 2 ^ (j + 1022) /\
    2 * u = h * U /\ 0 < h /\
    2 ^ 51 * h <= K < 2 ^ 52 * h /\
    2 * K = kappa * h /\ K * U = kappa * u /\
    (K = 2 ^ 51 * h -> K = 2 ^ j) /\
    (j = 51 -> h = 1).
Proof.
  intros HK [_ Hmod]. pose proof U_pos as HU.
  assert (HK0 : 0 < K) by (pose proof (pow2_pos 51 ltac:(lia)); lia).
  pose proof (Z.log2_spec K HK0) as [Hlo Hhi].
  pose proof (Z.log2_nonneg K) as Hj0.
  set (j := Z.log2 K) in *.
  assert (Hj : 51 <= j).
  { destruct (Z_lt_le_dec j 51) as [Hlt|]; [|assumption]. exfalso.
    assert (2 ^ Z.succ j <= 2 ^ 51) by (apply Z.pow_le_mono_r; lia). lia. }
  assert (Hpj : 2 ^ j = 2 ^ 51 * 2 ^ (j - 51)).
  { rewrite <- Z.pow_add_r by lia. f_equal. lia. }
  assert (Hpj1 : 2 ^ Z.succ j = 2 ^ 52 * 2 ^ (j - 51)).
  { rewrite <- Z.pow_add_r by lia. f_equal. lia. }
  assert (Hu : 2 * 2 ^ (j + 1022) = 2 ^ (j - 51) * U).
  { unfold U. rewrite <- Z.pow_succ_r, <- Z.pow_add_r by lia. f_equal. lia. }
  assert (Hc : cexpU (K * U) = j + 1022).
  { unfold U, cexpU. rewrite Zdigits2_mul_pow2 by lia.
    rewrite (Zdigits2_log2 K HK0). fold j. lia. }
  rewrite Hc in Hmod.
  pose proof (pow2_pos (j + 1022) ltac:(lia)) as Hpu.
  pose proof (pow2_pos (j - 51) ltac:(lia)) as Hph.
  apply Z.mod_divide in Hmod; [|lia]. destruct Hmod as [kappa Hk].
  exists j, (2 ^ (j - 51)), (2 ^ (j + 1022)), kappa.
  split; [exact Hj|]. split; [reflexivity|]. split; [reflexivity|].
  split; [exact Hu|]. split; [exact Hph|]. split; [lia|].
  split; [nia|]. split; [exact Hk|]. split.
  - intros E. rewrite E. symmetry. exact Hpj.
  - intros E. rewrite E. reflexivity.
Qed.

Lemma abs_mul_U (a : Z) : Z.abs (a * U) = Z.abs a * U.
Proof. pose proof U_pos. rewrite Z.abs_mul, (Z.abs_eq U) by lia. reflexivity. Qed.

(** Bounds inside one binade: [p] stands for [2^51], [g] for the spacing
    of the floats at the product [v], [Y] for the rounded product. *)
Lemma binade_bounds (p h K kappa S v g Y : Z) :
  0 < p -> 0 < h -> 0 < S ->
  p * h < K < 2 * p * h -> 2 * K = kappa * h -> v = K * S ->
  2 * p * g <= v -> 2 * Z.abs (v - Y) <= g ->
  2 * p < kappa < 4 * p /\ g < h * S /\ p * (h * S) < Y < 2 * p * (h * S).
Proof.
  intros Hp Hh HS HK Hk Hv Hg Hd.
  assert (Hkb : 2 * p < kappa < 4 * p) by (clear - Hh HK Hk; nia).
  assert (HhS : 0 < h * S) by (apply Z.mul_pos_pos; assumption).
  assert (Hgap : g < h * S).
  { assert (Hv2 : v < 2 * p * (h * S)).
    { rewrite Hv. replace (2 * p * (h * S)) with (2 * p * h * S) by ring.
      apply Z.mul_lt_mono_pos_r; lia. }
    clear - Hp Hg Hv2. nia. }
  split; [exact Hkb|]. split; [exact Hgap|].
  assert (H2v : 2 * v = kappa * (h * S)).
  { rewrite Hv. rewrite Z.mul_assoc, Hk. ring. }
  set (w := h * S) in *.
  assert (Hlo : 2 * p * w <= (kappa - 1) * w)
    by (apply Z.mul_le_mono_nonneg_r; lia).
  assert (Hhi : (kappa + 1) * w <= 4 * p * w)
    by (apply Z.mul_le_mono_nonneg_r; lia).
  clear - Hlo Hhi H2v Hgap Hd. lia.
Qed.

(** The error of the product, in units of the quotient. *)
Lemma scaled_error (d w su : Z) :
  - w < 2 * d < w -> 2 * su = w * U -> - su < d * U < su.
Proof.
  intros Hd Hsu. pose proof U_pos as HU.
  assert (H1 : 2 * d * U < w * U) by (apply Z.mul_lt_mono_pos_r; lia).
  assert (H2 : - w * U < 2 * d * U) by (apply Z.mul_lt_mono_pos_r; lia).
  clear - H1 H2 Hsu. lia.
Qed.

(** From [2^51] on, the quotient is not always an integer plus a small
    error; that the integer came from a binary64 coordinate is used. *)
Lemma requant_large (S X K : Z) :
  Frep S -> 0 < S -> Frep X ->
  K = rne (RNq (X * U) S) U -> 2 ^ 51 <= K ->
  RNq (K * S) 1 <> K * S ->
  rne (RNq (RNq (K * S) 1 * U) S) U = K.
Proof.
  intros FS HS FX HK Hbig Hne. pose proof U_pos as HU.
  assert (HX0 : 0 <= X) by apply FX.
  assert (HXU : 0 <= X * U) by (apply Z.mul_nonneg_nonneg; lia).
  assert (FT : Frep (RNq (X * U) S)) by (apply RNq_Frep; assumption).
  assert (FK : Frep (K * U)) by (rewrite HK; apply Frep_rint; exact FT).
  destruct (large_frame K Hbig FK)
    as (j & h & u & kappa & Hj & Eh & Eu & Hu & Hh & HKh & Hkap & HKU & Hpow & Hj51).
  assert (Hupos : 0 < u) by lia.
  assert (HSu0 : 0 < S * u) by (apply Z.mul_pos_pos; assumption).
  assert (HK0 : 0 <= K) by lia.
  set (v := K * S) in *.
  assert (Hv : 0 <= v) by (apply Z.mul_nonneg_nonneg; lia).
  assert (HKlo : 2 ^ 51 * h < K).
  { destruct (Z.eq_dec K (2 ^ 51 * h)) as [E|]; [|lia]. exfalso. apply Hne.
    apply RNq_exact. unfold v. rewrite (Hpow E), Z.mul_comm.
    apply Frep_mul_pow2; [exact FS | lia]. }
  destruct (RNq1_error v Hv) as [[_ E]|[Hc He]]; [contradiction|].
  pose proof (cexpU_pos_bounds v Hv Hc) as [Hvlo _].
  pose proof (RNq_nearest_float v X Hv FX) as Hnear.
  set (Y := RNq v 1) in *.
  set (c := cexpU v) in *.
  pose proof (pow2_pos c ltac:(lia)) as Hpc.
  rewrite Z.pow_add_r in Hvlo by lia.
  destruct (binade_bounds (2 ^ 51) h K kappa S v (2 ^ c) Y)
    as (Hkb & Hgap & HYlo & HYhi);
    [lia | exact Hh | exact HS | lia | exact Hkap | reflexivity
    | clear - Hvlo; lia | exact He |].
  assert (Hd : - (h * S) < 2 * (Y - v) < h * S) by (clear - He Hgap; lia).
  assert (HSu : 2 * (S * u) = h * S * U).
  { replace (2 * (S * u)) with (S * (2 * u)) by ring. rewrite Hu. ring. }
  pose proof (scaled_error (Y - v) (h * S) (S * u) Hd HSu) as Herr.
  assert (H2v : 2 * v = kappa * (h * S)).
  { unfold v. rewrite Z.mul_assoc, Hkap. ring. }
  assert (Hc' : cexpU (Y * U / S) = j + 1022).
  { replace (j + 1022) with (j + 1075 - 53) by ring.
    apply cexpU_of_bounds; [lia|].
    replace (j + 1075 - 1) with (j + 1074) by ring.
    assert (E1 : 2 ^ (j + 1074) = 2 ^ 51 * h * U).
    { rewrite Eh; unfold U. rewrite <- !Z.pow_add_r by lia. f_equal. lia. }
    assert (E2 : 2 ^ (j + 1075) = 2 ^ 52 * h * U).
    { rewrite Eh; unfold U. rewrite <- !Z.pow_add_r by lia. f_equal. lia. }
    rewrite E1, E2. split.
    - apply Z.div_le_lower_bound; [exact HS|].
      replace (S * (2 ^ 51 * h * U)) with (2 ^ 51 * (h * S) * U) by ring.
      apply Z.mul_le_mono_nonneg_r; lia.
    - apply Z.div_lt_upper_bound; [exact HS|].
      replace (S * (2 ^ 52 * h * U)) with (2 * 2 ^ 51 * (h * S) * U) by ring.
      apply Z.mul_lt_mono_pos_r; lia. }
  unfold RNq at 1. rewrite Hc', <- Eu.
  assert (HvU : kappa * (S * u) = v * U).
  { assert (2 * (kappa * (S * u)) = 2 * (v * U)); [|lia].
    replace (2 * (kappa * (S * u))) with (kappa * S * (2 * u)) by ring.
    rewrite Hu. replace (2 * (v * U)) with (2 * v * U) by ring.
    rewrite H2v. ring. }
  assert (HYU : Y * U - kappa * (S * u) = (Y - v) * U) by (rewrite HvU; ring).
  assert (Hreg : (j = 51 /\ Z.even K = true) \/ (Z.odd K = true \/ 2 ^ 52 < K)).
  { destruct (Z.eq_dec j 51) as [E|E].
    - destruct (Z.even K) eqn:Ev; [left; now split|].
      right; left. now rewrite <- Z.negb_even, Ev.
    - right; right.
      assert (H2h : 2 ^ 1 <= h) by (rewrite Eh; apply Z.pow_le_mono_r; lia).
      change (2 ^ 1) with 2 in H2h.
      assert (2 ^ 51 * 2 <= 2 ^ 51 * h)
        by (apply Z.mul_le_mono_nonneg_l; lia).
      clear - H HKlo. lia. }
  destruct Hreg as [[E51 Hev]|Hodd].
  - (* ties go to the even K *)
    assert (HU2 : U = 2 * u) by (rewrite Hu, (Hj51 E51); ring).
    assert (Hm1 : kappa - 1 <= rne (Y * U) (S * u)).
    { apply rne_ge_int; [exact HSu0|].
      replace ((kappa - 1) * (S * u)) with (kappa * (S * u) - S * u) by ring.
      clear - HYU Herr. lia. }
    assert (Hm2 : rne (Y * U) (S * u) <= kappa + 1).
    { apply rne_le_int; [exact HSu0|].
      replace ((kappa + 1) * (S * u)) with (kappa * (S * u) + S * u) by ring.
      clear - HYU Herr. lia. }
    set (m := rne (Y * U) (S * u)) in *.
    assert (HE : m * u - K * U = (m - kappa) * u) by (rewrite HKU; ring).
    apply rne_unique; [exact HU| |intros _; exact Hev].
    rewrite HE.
    assert (Hcases : m - kappa = -1 \/ m - kappa = 0 \/ m - kappa = 1)
      by (clear - Hm1 Hm2; lia).
    clear - Hcases HU2 Hupos.
    destruct Hcases as [-> | [-> | ->]]; lia.
  - (* the quotient of the coordinate was the integer K itself *)
    pose proof (rint_exact_large _ K FT HK Hbig Hodd) as HT.
    unfold RNq in HT.
    pose proof (RNq_mantissa_bounds (X * U) S HXU HS) as Hmb.
    cbv zeta in Hmb. destruct Hmb as [[HmT0 HmT1] HmT2].
    pose proof (cexpU_nonneg (X * U / S)) as HcT.
    pose proof (rne_spec (X * U) (S * 2 ^ cexpU (X * U / S))) as HspecX.
    set (cT := cexpU (X * U / S)) in *.
    set (mT := rne (X * U) (S * 2 ^ cT)) in *.
    rewrite HKU in HT.
    assert (Hu2 : 2 ^ 1 <= u) by (rewrite Eu; apply Z.pow_le_mono_r; lia).
    change (2 ^ 1) with 2 in Hu2.
    assert (HcTpos : 0 < cT).
    { destruct (Z.eq_dec cT 0) as [E0|]; [|lia]. exfalso.
      rewrite E0 in HT. change (2 ^ 0) with 1 in HT.
      assert (kappa * 2 <= kappa * u)
        by (apply Z.mul_le_mono_nonneg_l; lia).
      clear - H HT HmT1 Hkb. lia. }
    specialize (HmT2 HcTpos).
    assert (Hdk : Zdigits2 (kappa * u) = 53 + (j + 1022)).
    { rewrite Eu, Zdigits2_mul_pow2 by lia.
      rewrite (Zdigits2_unique kappa 53); [reflexivity| |lia].
      change (53 - 1) with 52. clear - Hkb. lia. }
    assert (Hdm : Zdigits2 (mT * 2 ^ cT) = Zdigits2 mT + cT).
    { apply Zdigits2_mul_pow2; lia. }
    rewrite HT in Hdm. rewrite Hdk in Hdm.
    assert (HcTu : 2 ^ cT = u /\ mT = kappa).
    { destruct (Z.eq_dec mT (2 ^ 53)) as [E53|N53].
      - exfalso. rewrite E53 in Hdm, HT.
        change (Zdigits2 (2 ^ 53)) with 54 in Hdm.
        assert (EcT : cT = j + 1021) by (clear - Hdm; lia).
        assert (Eu' : u = 2 * 2 ^ cT).
        { rewrite Eu, EcT, <- Z.pow_succ_r by lia. f_equal. lia. }
        pose proof (pow2_pos cT ltac:(lia)) as HpcT.
        rewrite Eu' in HT. change (2 ^ 53) with (2 * 2 ^ 52) in HT.
        assert (Hk52 : kappa = 2 ^ 52).
        { apply (Z.mul_reg_r _ _ (2 * 2 ^ cT)); [clear - HpcT; lia|].
          rewrite <- HT. ring. }
        clear - Hk52 Hkb. lia.
      - rewrite (Zdigits2_unique mT 53) in Hdm;
          [|change (53 - 1) with 52; clear - HmT1 HmT2 N53; lia
          |clear - HmT2; lia].
        assert (EcT : cT = j + 1022) by (clear - Hdm; lia).
        assert (Eu' : 2 ^ cT = u) by (rewrite Eu, EcT; reflexivity).
        split; [exact Eu'|]. rewrite Eu' in HT.
        apply (Z.mul_reg_r _ _ u); [clear - Hupos; lia | exact HT]. }
    destruct HcTu as [EcTu EmT].
    rewrite EcTu in HspecX. specialize (HspecX HSu0).
    rewrite EmT in HspecX.
    destruct HspecX as [Hx1 Hx2].
    assert (HXv : X * U - kappa * (S * u) = (X - v) * U) by (rewrite HvU; ring).
    rewrite HXv, abs_mul_U in Hx1, Hx2.
    assert (Hmono : Z.abs (Y - v) * U <= Z.abs (X - v) * U).
    { apply Z.mul_le_mono_nonneg_r; [lia|]. clear - Hnear. lia. }
    assert (Hm' : rne (Y * U) (S * u) = kappa).
    { apply rne_unique; [exact HSu0| |].
      - rewrite HYU, abs_mul_U. clear - Hmono Hx1. lia.
      - rewrite HYU, abs_mul_U. intros Htie. apply Hx2.
        clear - Hmono Hx1 Htie. lia. }
    rewrite Hm', <- HKU. apply rne_exact. exact HU.
Qed.

(** The quotient of a binary64 coordinate [X] by a binary64 step [S]
    rounds to an integer [K]; the product [K * S], rounded, divided by
    [S] and rounded, rounds to [K] again. *)
Theorem requant_units (S X K : Z) :
  Frep S -> 0 < S -> Frep X ->
  K = rne (RNq (X * U) S) U -> 0 < K ->
  rne (RNq (RNq (K * S) 1 * U) S) U = K.
Proof.
  intros FS HS FX HK HK0.
  destruct (Z_lt_le_dec K (2 ^ 51)) as [Hlt|Hge].
  - now apply requant_small.
  - destruct (Z.eq_dec (RNq (K * S) 1) (K * S)) as [E|N].
    + apply requant_exact; [assumption| |assumption].
      rewrite HK. apply Frep_rint. apply RNq_Frep; [|assumption].
      pose proof U_pos. destruct FX. nia.
    + now apply (requant_large S X K).
Qed.

End QuantizeTwice.

(** ** The float operations of the Quantizer *)

Section FloatOperations.

Lemma pos_iter_xO (d m : positive) :
  Z.pos (Pos.iter xO m d) = Z.pos m * 2 ^ Z.pos d.
Proof.
  revert m. induction d using Pos.peano_ind; intros m.
  - simpl. lia.
  - rewrite Pos.iter_succ, Pos2Z.inj_xO, IHd, Pos2Z.inj_succ,
      Z.pow_succ_r by lia. ring.
Qed.

(** An integer of at least 53 bits keeps exponent [0] before rounding. *)
Lemma binary_round_aux_wide (s : bool) (p : positive) :
  53 <= Z.pos (digits2_pos p) ->
  binary_round_aux prec emax s (Z.pos p) 0 loc_Exact
  = packU s (RNq (Z.pos p * U) 1).
Proof.
  intros Hd. pose proof U_pos as HU.
  assert (Hdig : Zdigits2 (Z.pos p * U) = Z.pos (digits2_pos p) + 1074).
  { unfold U. rewrite Zdigits2_mul_pow2 by lia. now rewrite Zpos_digits. }
  assert (HcU : cexpU (Z.pos p * U / 1) = Z.pos (digits2_pos p) + 1021).
  { rewrite Z.div_1_r. unfold cexpU. rewrite Hdig. lia. }
  set (dp := Z.pos (digits2_pos p)) in *.
  rewrite binary_round_aux_exact by lia.
  pose proof (round_aux_core s (Z.pos p) 1 0 (Z.pos p * U) 1
                ltac:(lia) ltac:(lia) ltac:(lia) ltac:(lia)) as Hcore.
  cbv zeta in Hcore. rewrite Z.div_1_r in Hcore at 1 2.
  rewrite Zpos_digits in Hcore. fold dp in Hcore.
  assert (Hn1 : Z.max 0 (fexp prec emax (dp + 0) - 0) = dp - 53).
  { unfold fexp, SpecFloat.emin, prec, emax. lia. }
  rewrite Hn1, HcU in Hcore. apply Hcore; [lia|].
  assert (Hp : 2 ^ (dp + 1021) = U * 2 ^ (dp - 53)).
  { unfold U. rewrite <- Z.pow_add_r by lia. f_equal. lia. }
  rewrite Hp. ring.
Qed.

(** An integer converted to binary64: exponent [0], then normalized; a
    short integer is first shifted to 53 bits. *)
Lemma binary_round_units (s : bool) (p : positive) :
  binary_round prec emax s p 0 = packU s (RNq (Z.pos p * U) 1).
Proof.
  unfold binary_round, shl_align.
  pose proof (Zdigits2_pos (Z.pos p) ltac:(lia)) as Hd.
  rewrite Zpos_digits in Hd.
  assert (Hdig : Zdigits2 (Z.pos p * U) = Z.pos (digits2_pos p) + 1074).
  { unfold U. rewrite Zdigits2_mul_pow2 by lia. now rewrite Zpos_digits. }
  assert (HcU : cexpU (Z.pos p * U / 1) = Z.pos (digits2_pos p) + 1021).
  { rewrite Z.div_1_r. unfold cexpU. rewrite Hdig. lia. }
  set (dp := Z.pos (digits2_pos p)) in *.
  pose proof U_pos as HU.
  destruct (fexp prec emax (dp + 0) - 0) as [|q|q] eqn:E.
  - apply binary_round_aux_wide. fold dp.
    unfold fexp, SpecFloat.emin, prec, emax in E. lia.
  - apply binary_round_aux_wide. fold dp.
    unfold fexp, SpecFloat.emin, prec, emax in E. lia.
  - rewrite binary_round_aux_exact by lia.
    assert (Hq : Z.pos q = 53 - dp /\ fexp prec emax (dp + 0) = dp - 53).
    { unfold fexp, SpecFloat.emin, prec, emax in *. lia. }
    destruct Hq as [Hq Hf]. rewrite Hf.
    rewrite pos_iter_xO.
    assert (Hda : Zdigits2 (Z.pos p * 2 ^ Z.pos q / 1) = 53).
    { rewrite Z.div_1_r, Zdigits2_mul_pow2 by lia. rewrite Zpos_digits.
      fold dp. lia. }
    pose proof (pow2_pos (Z.pos q) ltac:(lia)) as Hpq.
    pose proof (round_aux_core s (Z.pos p * 2 ^ Z.pos q) 1 (dp - 53)
                  (Z.pos p * U) 1
                  ltac:(lia) ltac:(lia) ltac:(lia) ltac:(lia)) as Hcore.
    cbv zeta in Hcore. rewrite Hda in Hcore.
    assert (Hn1 : Z.max 0 (fexp prec emax (53 + (dp - 53)) - (dp - 53)) = 0).
    { unfold fexp, SpecFloat.emin, prec, emax in *. lia. }
    rewrite Hn1, HcU in Hcore. apply Hcore; [lia|].
    assert (Hp : 2 ^ Z.pos q * 2 ^ (dp + 1021) = U).
    { unfold U. rewrite <- Z.pow_add_r by lia. f_equal. lia. }
    change (2 ^ 0) with 1.
    transitivity (Z.pos p * (2 ^ Z.pos q * 2 ^ (dp + 1021))); [ring|].
    rewrite Hp. ring.
Qed.

Lemma round_half_even_rne (m : positive) (e : Z) :
  -1074 <= e -> round_half_even m e = rne (Z.pos m * 2 ^ (e + 1074)) U.
Proof.
  intros He. pose proof U_pos as HU.
  destruct e as [|p|p]; unfold round_half_even.
  - rewrite Z.pow_0_r, Z.mul_1_r. symmetry. apply (rne_exact (Z.pos m) U HU).
  - rewrite Z.pow_add_r by lia. fold U. rewrite Z.mul_assoc.
    symmetry. apply rne_exact. exact HU.
  - change (rne (Z.pos m) (2 ^ Z.pos p) = rne (Z.pos m * 2 ^ (Z.neg p + 1074)) U).
    apply rne_ext; [apply pow2_pos; lia | exact HU |].
    rewrite <- Z.mul_assoc. f_equal. unfold U.
    rewrite <- Z.pow_add_r by lia. f_equal. lia.
Qed.

(** Finite floats as signed magnitudes in units of [2^-1074]. *)


Lemma packU_zero (s : bool) : packU s 0 = S754_zero s.
Proof. reflexivity. Qed.

Lemma Frep_zero : Frep 0.
Proof. split; [lia | reflexivity]. Qed.

Lemma RNq_zero (b : Z) : 0 < b -> RNq 0 b = 0.
Proof.
  intros Hb. unfold RNq.
  pose proof (pow2_pos _ (cexpU_nonneg (0 / b))) as Hp.
  pose proof (rne_exact 0 (b * 2 ^ cexpU (0 / b)) ltac:(nia)) as H.
  rewrite Z.mul_0_l in H. rewrite H. ring.
Qed.

Lemma repr_facts (f : spec_float) (s : bool) (n : Z) :
  repr f s n -> Frep n /\ f = packU s n /\ cexpU n <= 2045.
Proof.
  intros [s0|s0 m e Hb].
  - split; [apply Frep_zero|]. split; [reflexivity|]. vm_compute. discriminate.
  - destruct (packU_bounded s0 m e Hb) as (HF & Hc & Hp).
    destruct (bounded_facts m e Hb) as (He & _).
    split; [exact HF|]. split; [now rewrite Hp|]. lia.
Qed.

Lemma repr_packU (s : bool) (n : Z) :
  Frep n -> cexpU n <= 2045 -> repr (packU s n) s n.
Proof.
  intros HF Hc. destruct (Z.eq_dec n 0) as [->|Hne].
  - rewrite packU_zero. constructor.
  - assert (Hn : 0 < n) by (destruct HF; lia).
    pose proof (packU_valid s n HF) as Hv.
    destruct (packU_Frep s n HF Hn) as (m & Hm & Hp & _).
    assert (Hle : (cexpU n - 1074 <=? 971) = true) by (apply Z.leb_le; lia).
    rewrite Hle in Hp. rewrite Hp in Hv |- *. simpl in Hv.
    rewrite Hm at 2.
    replace (cexpU n) with (cexpU n - 1074 + 1074) at 2 by ring.
    now constructor.
Qed.

Lemma repr_of_finite (x : float) :
  isfinite x = true -> exists s n, repr (Prim2SF x) s n.
Proof.
  intros Hx. pose proof (Prim2SF_valid x) as Hv.
  apply isfinite_spec in Hx. destruct Hx as [[s E]|(s & m & e & E)].
  - exists s, 0. rewrite E. constructor.
  - exists s, (Z.pos m * 2 ^ (e + 1074)). rewrite E in *. now constructor.
Qed.

(** A value [packU s n] that is finite did not overflow. *)
Lemma packU_finite (y : float) (s : bool) (n : Z) :
  Frep n -> Prim2SF y = packU s n -> isfinite y = true -> cexpU n <= 2045.
Proof.
  intros HF Hy Hfin. destruct (Z.eq_dec n 0) as [->|Hne].
  { vm_compute. discriminate. }
  assert (Hn : 0 < n) by (destruct HF; lia).
  destruct (packU_Frep s n HF Hn) as (m & _ & Hp & _).
  destruct (cexpU n - 1074 <=? 971) eqn:Hle; [apply Z.leb_le in Hle; lia|].
  exfalso. rewrite Hp in Hy. apply isfinite_spec in Hfin.
  destruct Hfin as [[s' E]|(s' & m' & e' & E)]; congruence.
Qed.

Lemma div_repr (fx fs : spec_float) (sx ss : bool) (X S : Z) :
  repr fx sx X -> repr fs ss S -> 0 < S ->
  SFdiv prec emax fx fs = packU (xorb sx ss) (RNq (X * U) S).
Proof.
  intros [s0|s0 m e Hb] [s1|s1 m1 e1 Hb1] HS; try lia.
  - rewrite Z.mul_0_l, RNq_zero by assumption. reflexivity.
  - apply SFdiv_RNq; assumption.
Qed.

Lemma mul_repr (fa fb : spec_float) (sa sb : bool) (A B : Z) :
  repr fa sa A -> repr fb sb B ->
  SFmul prec emax fa fb = packU (xorb sa sb) (RNq (A * B) U).
Proof.
  intros [s0|s0 m e Hb] [s1|s1 m1 e1 Hb1];
    rewrite ?Z.mul_0_l, ?Z.mul_0_r, ?(RNq_zero U U_pos); try reflexivity.
  apply SFmul_RNq; assumption.
Qed.

(** [round] on a finite value is the nearest integer, ties to even, with
    the sign of the value; on an overflowed one it raises. *)
Lemma round_units (t : float) (s : bool) (n : Z) :
  Frep n -> Prim2SF t = packU s n ->
  (cexpU n <= 2045 -> Py.round t = Ok (cond_Zopp s (rne n U))) /\
  (2045 < cexpU n -> Py.round t = Raise OverflowError).
Proof.
  intros HF Ht. unfold Py.round. rewrite Ht.
  destruct (Z.eq_dec n 0) as [->|Hne].
  { split; [intros _; simpl; now destruct s | vm_compute; discriminate]. }
  assert (Hn : 0 < n) by (destruct HF; lia).
  destruct (packU_Frep s n HF Hn) as (m & Hm & Hp & _).
  pose proof (cexpU_nonneg n) as Hc0.
  rewrite Hp. split; intros Hc.
  - assert (Hle : (cexpU n - 1074 <=? 971) = true) by (apply Z.leb_le; lia).
    rewrite Hle. rewrite round_half_even_rne by lia.
    replace (cexpU n - 1074 + 1074) with (cexpU n) by ring.
    now rewrite <- Hm.
  - assert (Hle : (cexpU n - 1074 <=? 971) = false) by (apply Z.leb_gt; lia).
    now rewrite Hle.
Qed.

(** The conversion of a non-zero integer whose magnitude is a binary64
    value. *)
Lemma float_of_int_units (k : Z) (f : float) :
  k <> 0 -> Frep (Z.abs k * U) -> float_of_int k = Ok f ->
  repr (Prim2SF f) (k <? 0) (Z.abs k * U).
Proof.
  intros Hk HF. unfold float_of_int, binary_normalize.
  assert (Hb : match k with
               | 0 => S754_zero false
               | Z.pos m => binary_round prec emax false m 0
               | Z.neg m => binary_round prec emax true m 0
               end = packU (k <? 0) (Z.abs k * U)).
  { destruct k as [|p|p]; [contradiction| |];
      rewrite binary_round_units; simpl Z.abs in *;
      rewrite RNq_exact by assumption; reflexivity. }
  rewrite Hb. clear Hb.
  pose proof (packU_valid (k <? 0) (Z.abs k * U) HF) as Hv.
  assert (Hn : 0 < Z.abs k * U) by (pose proof U_pos; nia).
  destruct (packU_Frep (k <? 0) (Z.abs k * U) HF Hn) as (m & Hm & Hp & _).
  destruct (cexpU (Z.abs k * U) - 1074 <=? 971) eqn:Hle.
  - intros Hf. rewrite Hp in Hf.
    assert (Hf' : Ok (SF2Prim (S754_finite (k <? 0) m
                                 (cexpU (Z.abs k * U) - 1074))) = Ok f)
      by exact Hf.
    assert (Ef : f = SF2Prim (S754_finite (k <? 0) m
                                (cexpU (Z.abs k * U) - 1074)))
      by congruence.
    rewrite Ef.
    rewrite Prim2SF_SF2Prim by (rewrite <- Hp; exact Hv).
    rewrite <- Hp. apply repr_packU; [exact HF|]. apply Z.leb_le in Hle. lia.
  - rewrite Hp. discriminate.
Qed.

Lemma float_of_int_zero : float_of_int 0 = Ok f_0_0.
Proof. reflexivity. Qed.

(** A binary64 value that rounds to [K] overflows only if [K] does. *)
Lemma rint_no_overflow (T K : Z) :
  Frep T -> rne T U = K -> cexpU (K * U) <= 2045 -> cexpU T <= 2045.
Proof.
  intros [HT Hmod] HK Hc. pose proof U_pos as HU.
  destruct (Z_le_gt_dec 1074 (cexpU T)) as [Hbig|]; [|lia].
  pose proof (pow2_pos (cexpU T) ltac:(lia)) as Hp.
  apply Z.mod_divide in Hmod; [|lia]. destruct Hmod as [m Hm].
  assert (HTU : T = m * 2 ^ (cexpU T - 1074) * U).
  { rewrite Hm at 1. unfold U. rewrite <- Z.mul_assoc, <- Z.pow_add_r by lia.
    do 2 f_equal. lia. }
  rewrite HTU in HK at 1. rewrite rne_exact in HK by lia.
  rewrite HK in HTU. now rewrite HTU.
Qed.

(** A step that compares above zero is a positive finite float or
    [+inf]. *)
Lemma positive_step (s : float) :
  PrimFloat.ltb f_0_0 s = true ->
  (exists m e, Prim2SF s = S754_finite false m e) \/
  Prim2SF s = S754_infinity false.
Proof.
  rewrite FloatAxioms.ltb_spec.
  change (Prim2SF f_0_0) with (S754_zero false). unfold SFltb.
  destruct (Prim2SF s) as [s0|s0| |s0 m e]; simpl; try discriminate.
  - destruct s0; [discriminate|]. now right.
  - destruct s0; [discriminate|]. left. now exists m, e.
Qed.

Lemma cond_Zopp_sign (s : bool) (K : Z) :
  0 < K ->
  cond_Zopp s K <> 0 /\ Z.abs (cond_Zopp s K) = K /\ (cond_Zopp s K <? 0) = s.
Proof.
  intros HK. destruct s; simpl; (split; [lia|]); (split; [lia|]).
  - apply Z.ltb_lt; lia.
  - apply Z.ltb_ge; lia.
Qed.

(** Dividing a finite quantized coordinate by the step and rounding gives
    back the integer it was built from. *)
Theorem round_requantize (x s y : float) (k : Z) :
  PrimFloat.ltb f_0_0 s = true ->
  isfinite x = true ->
  Py.round (PrimFloat.div x s) = Ok k ->
  int_mul_float k s = Ok y ->
  isfinite y = true ->
  Py.round (PrimFloat.div y s) = Ok k.
Proof.
  intros Hs Hx Hk Hm Hy. pose proof U_pos as HU.
  destruct (repr_of_finite x Hx) as (sx & X & Rx).
  destruct (positive_step s Hs) as [(ms & es & Es)|Einf].
  2: { exfalso.
       assert (Ht : Prim2SF (PrimFloat.div x s) = S754_zero (xorb sx false)).
       { rewrite div_spec. unfold SF64div. rewrite Einf. destruct Rx; reflexivity. }
       unfold Py.round in Hk. rewrite Ht in Hk.
       assert (k = 0) by congruence. subst k.
       unfold int_mul_float in Hm. rewrite float_of_int_zero in Hm.
       assert (Ey : y = PrimFloat.mul f_0_0 s) by (unfold rbind in Hm; congruence).
       apply isfinite_spec in Hy. rewrite Ey, mul_spec in Hy.
       unfold SF64mul in Hy. rewrite Einf in Hy.
       change (Prim2SF f_0_0) with (S754_zero false) in Hy. simpl in Hy.
       destruct Hy as [[? E]|(?&?&?&E)]; discriminate. }
  pose proof (Prim2SF_valid s) as Hvs. rewrite Es in Hvs. simpl in Hvs.
  assert (Rs : repr (Prim2SF s) false (Z.pos ms * 2 ^ (es + 1074))).
  { rewrite Es. now constructor. }
  destruct (bounded_facts ms es Hvs) as (Hes & _).
  pose proof (pow2_pos (es + 1074) ltac:(lia)) as Hpes.
  set (Sm := Z.pos ms * 2 ^ (es + 1074)) in *.
  assert (HS : 0 < Sm) by (unfold Sm; lia).
  destruct (repr_facts _ _ _ Rs) as (FS & _ & _).
  destruct (repr_facts _ _ _ Rx) as (FX & _ & _).
  assert (HX : 0 <= X) by apply FX.
  set (T := RNq (X * U) Sm).
  assert (Ht : Prim2SF (PrimFloat.div x s) = packU sx T).
  { rewrite div_spec. unfold SF64div.
    rewrite (div_repr _ _ _ _ _ _ Rx Rs HS). now rewrite xorb_false_r. }
  assert (FT : Frep T) by (apply RNq_Frep; nia).
  destruct (round_units _ _ _ FT Ht) as [Hr1 Hr2].
  destruct (Z_le_gt_dec (cexpU T) 2045) as [HcT|HcT];
    [|rewrite Hr2 in Hk by lia; discriminate].
  rewrite (Hr1 HcT) in Hk.
  assert (Hk' : cond_Zopp sx (rne T U) = k) by congruence. clear Hk.
  set (K := rne T U) in *.
  assert (HK0 : 0 <= K) by (apply rne_nonneg; [apply FT | exact HU]).
  destruct (Z.eq_dec K 0) as [EK|NK].
  - assert (Ek0 : k = 0) by (rewrite <- Hk', EK; now destruct sx).
    rewrite Ek0 in *.
    unfold int_mul_float in Hm. rewrite float_of_int_zero in Hm.
    assert (Ey : y = PrimFloat.mul f_0_0 s) by (unfold rbind in Hm; congruence).
    assert (Ez : Prim2SF (PrimFloat.div y s) = S754_zero false).
    { rewrite Ey, div_spec, mul_spec. unfold SF64div, SF64mul. rewrite Es.
      reflexivity. }
    unfold Py.round. now rewrite Ez.
  - assert (HKpos : 0 < K) by lia.
    destruct (cond_Zopp_sign sx K HKpos) as (Hk0 & Hkabs & Hksgn).
    rewrite Hk' in Hk0, Hkabs, Hksgn.
    assert (FK : Frep (K * U)) by (apply Frep_rint; exact FT).
    unfold int_mul_float in Hm.
    destruct (float_of_int k) as [kf|] eqn:Ef; [|discriminate].
    assert (Ey : y = PrimFloat.mul kf s) by (unfold rbind in Hm; congruence).
    pose proof (float_of_int_units k kf Hk0
                  ltac:(rewrite Hkabs; exact FK) Ef) as Rk.
    rewrite Hkabs, Hksgn in Rk.
    set (Y := RNq (K * Sm) 1).
    assert (HYp : Prim2SF y = packU sx Y).
    { rewrite Ey, mul_spec. unfold SF64mul.
      rewrite (mul_repr _ _ _ _ _ _ Rk Rs), xorb_false_r.
      f_equal. apply RNq_ext; [lia|lia|ring]. }
    assert (FY : Frep Y) by (apply RNq_Frep; nia).
    pose proof (packU_finite y sx Y FY HYp Hy) as HcY.
    assert (Ry : repr (Prim2SF y) sx Y) by (rewrite HYp; now apply repr_packU).
    set (T' := RNq (Y * U) Sm).
    assert (Ht' : Prim2SF (PrimFloat.div y s) = packU sx T').
    { rewrite div_spec. unfold SF64div.
      rewrite (div_repr _ _ _ _ _ _ Ry Rs HS). now rewrite xorb_false_r. }
    assert (HY0 : 0 <= Y) by apply FY.
    assert (FT' : Frep T') by (apply RNq_Frep; nia).
    assert (HK' : rne T' U = K) by (apply (requant_units Sm X K); auto).
    destruct (repr_facts _ _ _ Rk) as (_ & _ & HcK).
    pose proof (rint_no_overflow T' K FT' HK' HcK) as HcT'.
    destruct (round_units _ _ _ FT' Ht') as [Hr1' _].
    rewrite (Hr1' HcT'), HK'. now rewrite Hk'.
Qed.

End FloatOperations.

Section Requantize.

(** [s <= 0] is false for the steps above zero, and for NaN. *)
Lemma step_guard_cases (s : float) :
  PrimFloat.leb s f_0_0 = false ->
  PrimFloat.ltb f_0_0 s = true \/ Prim2SF s = S754_nan.
Proof.
  rewrite FloatAxioms.leb_spec, FloatAxioms.ltb_spec.
  change (Prim2SF f_0_0) with (S754_zero false). unfold SFleb, SFltb.
  destruct (Prim2SF s) as [[]|[]| |[] m e]; simpl; intros; try discriminate;
    auto.
Qed.

Lemma round_div_nan (x s : float) :
  Prim2SF s = S754_nan -> Py.round (PrimFloat.div x s) = Raise ValueError.
Proof.
  intros Hs. unfold Py.round. rewrite div_spec. unfold SF64div. rewrite Hs.
  now destruct (Prim2SF x).
Qed.

(** A finite quantized coordinate came from a finite coordinate; it is
    left where it is, with remainder [+0.0]. *)
Lemma requantize_axis (c y s : float) :
  PrimFloat.ltb f_0_0 s = true ->
  _round_to_step c s = Ok y ->
  isfinite y = true ->
  _round_to_step y s = Ok y /\ _remainder_to_grid y s = Ok f_0_0.
Proof.
  intros Hs Hq Hy.
  assert (Hc : isfinite c = true).
  { destruct (isfinite c) eqn:Hc; [reflexivity|].
    unfold _round_to_step in Hq. rewrite Hc, orb_true_r in Hq. congruence. }
  destruct (round_to_step_finite c s y Hs Hc Hq) as (k & Hk & Hm).
  apply (requantize_fixed y s k Hs Hy); [|exact Hm].
  now apply (round_requantize c s y k).
Qed.

(** One axis: whatever [_round_to_step] returns, it returns again when
    applied to it. *)
Lemma round_to_step_idempotent (x s y : float) :
  _round_to_step x s = Ok y -> _round_to_step y s = Ok y.
Proof.
  intros Hq.
  destruct (PrimFloat.leb s f_0_0) eqn:Hle.
  { unfold _round_to_step in *. rewrite Hle in *. simpl in *. congruence. }
  destruct (isfinite y) eqn:Hy.
  2: { unfold _round_to_step. now rewrite Hy, orb_true_r. }
  destruct (step_guard_cases s Hle) as [Hs|Hnan].
  - now apply (requantize_axis x y s).
  - exfalso. unfold _round_to_step in Hq. rewrite Hle in Hq. simpl in Hq.
    destruct (isfinite x) eqn:Hx; simpl in Hq; [|congruence].
    rewrite (round_div_nan x s Hnan) in Hq. discriminate.
Qed.



End Requantize.



(** * Further properties of the operators *)

Section Viewport.
Context `{Mathutils}.

Lemma sync_space_shows (step : float) (sp : Space) :
  space_type (sync_space step sp) = space_type sp /\
  (space_type sp = VIEW_3D ->
   overlay (sync_space step sp) = mkOverlay true step 8) /\
  (space_type sp <> VIEW_3D -> sync_space step sp = sp).
Proof.
  unfold sync_space. destruct (bool_decide_reflect (space_type sp = VIEW_3D));
    simpl; repeat split; try reflexivity; try contradiction; intros; reflexivity.
Qed.

Lemma sync_windows_shows (step : float) (ws : list Window) :
  viewport_shows step (map (sync_window step) ws).
Proof.
  unfold viewport_shows.
  induction ws as [|win ws IH]; simpl; constructor; [|exact IH].
  clear IH. simpl. induction (areas win) as [|a l IH]; simpl; constructor;
    [|exact IH].
  unfold sync_area.
  destruct (bool_decide_reflect (area_type a = VIEW_3D)) as [Ea|Na];
    simpl; intros Ht; [|contradiction].
  clear. induction (spaces a) as [|sp l IH]; simpl; constructor; [|exact IH].
  destruct (sync_space_shows step sp) as (Hty & Hov & _).
  rewrite Hty. exact Hov.
Qed.

Lemma sync_windows_frame (step : float) (ws : list Window) :
  same_outside_view3d ws (map (sync_window step) ws).
Proof.
  unfold same_outside_view3d.
  induction ws as [|win ws IH]; simpl; constructor; [|exact IH].
  clear IH. simpl. induction (areas win) as [|a l IH]; simpl; constructor;
    [|exact IH].
  unfold sync_area.
  destruct (bool_decide_reflect (area_type a = VIEW_3D)) as [Ea|Na]; simpl.
  - split; [reflexivity|]. split; [intros N; contradiction|].
    clear. induction (spaces a) as [|sp l IH]; simpl; constructor; [|exact IH].
    destruct (sync_space_shows step sp) as (Hty & _ & Hid). now split.
  - split; [reflexivity|]. split; [reflexivity|].
    clear. induction (spaces a) as [|sp l IH]; constructor; [|exact IH].
    now split.
Qed.

Lemma sync_space_idem (step : float) (sp : Space) :
  sync_space step (sync_space step sp) = sync_space step sp.
Proof.
  unfold sync_space.
  destruct (bool_decide_reflect (space_type sp = VIEW_3D)) as [E|N]; simpl.
  - now rewrite bool_decide_eq_true_2.
  - now rewrite bool_decide_eq_false_2.
Qed.

Lemma sync_window_idem (step : float) (win : Window) :
  sync_window step (sync_window step win) = sync_window step win.
Proof.
  unfold sync_window. simpl. f_equal. rewrite map_map.
  apply map_ext. intros a. unfold sync_area.
  destruct (bool_decide_reflect (area_type a = VIEW_3D)) as [E|N]; simpl.
  - rewrite bool_decide_eq_true_2 by assumption. simpl. f_equal.
    rewrite map_map. apply map_ext. apply sync_space_idem.
  - now rewrite bool_decide_eq_false_2.
Qed.

Lemma sync_windows_idem (step : float) (ws : list Window) :
  map (sync_window step) (map (sync_window step) ws)
  = map (sync_window step) ws.
Proof. rewrite map_map. apply map_ext. apply sync_window_idem. Qed.

(** [_sync_viewport_grid] with a scene, as an equation. *)
Lemma sync_viewport_grid_eq (w : World) (sc : Scene) :
  scene w = Some sc ->
  _sync_viewport_grid w
  = (emit (set_windows w (map (sync_window (grid_size (hg sc))) (windows w)))
       (LogGridSynced (grid_size (hg sc))), Ok tt).
Proof.
  intros Hsc. unfold _sync_viewport_grid, mbind, get_hg, log.
  rewrite Hsc. reflexivity.
Qed.

(** X4: [_sync_viewport_grid] raises [AttributeError] and changes nothing
    without a scene; with one it returns, and afterwards every VIEW_3D
    space of every VIEW_3D area of every window shows the floor with grid
    scale [grid_size] and 8 subdivisions, every other area and space is
    as before, and nothing but the windows and the log is written. *)
Theorem sync_viewport_grid_shows_step (w : World) :
  match scene w with
  | None => _sync_viewport_grid w = (w, Raise AttributeError)
  | Some sc =>
      exists w',
        _sync_viewport_grid w = (w', Ok tt) /\
        viewport_shows (grid_size (hg sc)) (windows w') /\
        same_outside_view3d (windows w) (windows w') /\
        scene w' = scene w /\ mode w' = mode w /\
        active_object w' = active_object w /\
        selected_objects w' = selected_objects w /\
        objects w' = objects w /\
        trace w' = trace w ++ [LogGridSynced (grid_size (hg sc))]
  end.
Proof.
  destruct (scene w) as [sc|] eqn:Hsc.
  - eexists. split; [apply (sync_viewport_grid_eq w sc Hsc)|]. simpl.
    split; [apply sync_windows_shows|].
    split; [apply sync_windows_frame|].
    rewrite Hsc. repeat split.
  - unfold _sync_viewport_grid, mbind, get_hg. now rewrite Hsc.
Qed.

End Viewport.

Section Baseline.
Context `{Mathutils}.

(** [_apply_tool_snap] with a scene and tool settings, as an equation. *)
Lemma apply_tool_snap_eq (w : World) (sc : Scene) (ts : ToolSettings) :
  scene w = Some sc -> tool_settings sc = Some ts ->
  _apply_tool_snap w
  = (emit (emit (set_windows
                   (set_scene w (Some (mkScene (hg sc)
                                         (Some (baseline_snap ts)))))
                   (map (sync_window (grid_size (hg sc))) (windows w)))
             (LogGridSynced (grid_size (hg sc))))
       LogBaselineApplied, Ok tt).
Proof.
  intros Hsc Hts. unfold _apply_tool_snap. rewrite Hsc, Hts.
  unfold mbind. rewrite (sync_viewport_grid_eq _ (mkScene (hg sc)
                                                    (Some (baseline_snap ts))))
    by reflexivity.
  reflexivity.
Qed.

Lemma baseline_snap_idem (ts : ToolSettings) :
  baseline_snap (baseline_snap ts) = baseline_snap ts.
Proof. unfold baseline_snap. simpl. now destruct (snap_angle ts). Qed.

(** X5: [_apply_tool_snap] never raises.  Without a scene, or without
    tool settings, it only logs the skip (the viewport is not synced
    then).  Otherwise it turns [use_snap] on, sets [snap_elements] to
    [{'INCREMENT'}], sets [snap_angle] to [15.0 * pi / 180.0] if the
    attribute exists, keeps the absolute flag and the add-on's properties,
    and syncs the viewport grid to [grid_size]. *)
Theorem apply_tool_snap_baseline (w : World) :
  match scene w with
  | None => _apply_tool_snap w = (emit w LogSkipNoScene, Ok tt)
  | Some sc =>
      match tool_settings sc with
      | None => _apply_tool_snap w = (emit w LogSkipNoToolSettings, Ok tt)
      | Some ts =>
          exists w' ts',
            _apply_tool_snap w = (w', Ok tt) /\
            scene w' = Some (mkScene (hg sc) (Some ts')) /\
            use_snap ts' = true /\
            snap_elements ts' = [INCREMENT] /\
            snap_angle ts' = match snap_angle ts with
                             | Some _ => Some snap_angle_15deg
                             | None => None
                             end /\
            use_snap_grid_absolute ts' = use_snap_grid_absolute ts /\
            viewport_shows (grid_size (hg sc)) (windows w') /\
            same_outside_view3d (windows w) (windows w') /\
            mode w' = mode w /\ active_object w' = active_object w /\
            selected_objects w' = selected_objects w /\
            objects w' = objects w /\
            trace w' = trace w ++ [LogGridSynced (grid_size (hg sc));
                                   LogBaselineApplied]
      end
  end.
Proof.
  destruct (scene w) as [sc|] eqn:Hsc.
  - destruct (tool_settings sc) as [ts|] eqn:Hts.
    + eexists _, _. split; [apply (apply_tool_snap_eq w sc ts Hsc Hts)|].
      simpl. split; [reflexivity|]. do 4 (split; [reflexivity|]).
      split; [apply sync_windows_shows|].
      split; [apply sync_windows_frame|].
      do 4 (split; [reflexivity|]). now rewrite <- app_assoc.
    + unfold _apply_tool_snap. now rewrite Hsc, Hts.
  - unfold _apply_tool_snap. now rewrite Hsc.
Qed.

(** X6: applying the baseline twice is applying it once: the second
    [_apply_tool_snap] returns and writes to the log only. *)
Theorem apply_tool_snap_idempotent (w : World) :
  exists w1 w2,
    _apply_tool_snap w = (w1, Ok tt) /\
    _apply_tool_snap w1 = (w2, Ok tt) /\
    scene w2 = scene w1 /\ windows w2 = windows w1 /\
    mode w2 = mode w1 /\ active_object w2 = active_object w1 /\
    selected_objects w2 = selected_objects w1 /\
    objects w2 = objects w1.
Proof.
  destruct (scene w) as [sc|] eqn:Hsc.
  - destruct (tool_settings sc) as [ts|] eqn:Hts.
    + eexists _, _. split; [apply (apply_tool_snap_eq w sc ts Hsc Hts)|].
      split; [apply (apply_tool_snap_eq _ (mkScene (hg sc)
                                            (Some (baseline_snap ts)))
                       (baseline_snap ts)); reflexivity|].
      simpl. rewrite baseline_snap_idem, sync_windows_idem.
      repeat split.
    + exists (emit w LogSkipNoToolSettings),
        (emit (emit w LogSkipNoToolSettings) LogSkipNoToolSettings).
      unfold _apply_tool_snap. simpl. rewrite Hsc, Hts. repeat split.
  - exists (emit w LogSkipNoScene), (emit (emit w LogSkipNoScene) LogSkipNoScene).
    unfold _apply_tool_snap. simpl. rewrite Hsc. repeat split.
Qed.

End Baseline.

Section Gestures.
Context `{Mathutils}.

Lemma set_absolute_snap_keeps (enable : bool) (w : World) (sc : Scene)
  (ts : ToolSettings) :
  scene w = Some sc -> tool_settings sc = Some ts ->
  exists w2 ts2,
    _set_absolute_snap enable w = (w2, Ok tt) /\
    tool_settings_of w2 = Some ts2 /\
    use_snap ts2 = use_snap ts /\ snap_elements ts2 = snap_elements ts /\
    windows w2 = windows w /\ trace w2 = trace w.
Proof.
  intros Hsc Hts. unfold _set_absolute_snap, tool_settings_of.
  rewrite Hsc, Hts.
  destruct (use_snap_grid_absolute ts).
  - eexists _, _. split; [reflexivity|]. simpl. repeat split.
  - exists w, ts. rewrite Hsc, Hts. repeat split.
Qed.

(** X7: with the add-on enabled and tool settings present, each of the
    three gestures that returns leaves [use_snap] on, [snap_elements] at
    [{'INCREMENT'}] and the viewport grid at [grid_size]; rotate and scale
    always return, move returns whenever the oracle does. *)
Theorem enabled_gesture_forces_increment_snap (w : World) (sc : Scene)
  (ts : ToolSettings) :
  scene w = Some sc ->
  enabled (hg sc) = true ->
  tool_settings sc = Some ts ->
  (exists w',
      HG_OT_rotate_invoke w = (w', Ok (host_result op_rotate (Some snap_kw)))
      /\ snap_forced (grid_size (hg sc)) w')
  /\ (exists w',
        HG_OT_scale_invoke w = (w', Ok (host_result op_resize (Some snap_kw)))
        /\ snap_forced (grid_size (hg sc)) w')
  /\ (forall b : bool,
        snd (_selection_has_any_on_grid (grid_size (hg sc)) w) = Ok b ->
        exists w',
          HG_OT_move_invoke w
          = (w', Ok (host_result op_translate (Some snap_kw)))
          /\ snap_forced (grid_size (hg sc)) w').
Proof.
  intros Hsc Hen Hts.
  pose proof (apply_tool_snap_eq w sc ts Hsc Hts) as Hap.
  set (w1 := emit (emit (set_windows
                   (set_scene w (Some (mkScene (hg sc)
                                         (Some (baseline_snap ts)))))
                   (map (sync_window (grid_size (hg sc))) (windows w)))
             (LogGridSynced (grid_size (hg sc))))
       LogBaselineApplied) in *.
  assert (Hforced : forall ev, snap_forced (grid_size (hg sc)) (emit w1 ev)).
  { intros ev. exists (baseline_snap ts). simpl.
    repeat split. apply sync_windows_shows. }
  split; [|split].
  - eexists. split; [|apply (Hforced (CallTransform op_rotate (Some snap_kw)))].
    unfold HG_OT_rotate_invoke, mbind, get_hg. rewrite Hsc, Hen. simpl.
    rewrite Hap. reflexivity.
  - eexists. split; [|apply (Hforced (CallTransform op_resize (Some snap_kw)))].
    unfold HG_OT_scale_invoke, mbind, get_hg. rewrite Hsc, Hen. simpl.
    rewrite Hap. reflexivity.
  - intros b Hb.
    unfold HG_OT_move_invoke, mbind, get_hg. rewrite Hsc, Hen. simpl.
    rewrite Hap. unfold _invoke_translate, mbind, get_hg. simpl.
    pose proof (oracle_result_ext (grid_size (hg sc)) w1 w
                  eq_refl eq_refl eq_refl eq_refl) as Hext.
    destruct (oracle_world (grid_size (hg sc)) w1) as [evs Hw].
    destruct (_selection_has_any_on_grid (grid_size (hg sc)) w1) as [w2 rb].
    simpl in Hext, Hw. rewrite Hext, Hb. subst w2.
    match goal with
    | |- context [_set_absolute_snap ?e ?wx] =>
        destruct (set_absolute_snap_keeps e wx
                    (mkScene (hg sc) (Some (baseline_snap ts)))
                    (baseline_snap ts) eq_refl eq_refl)
          as (w3 & ts3 & Hset & Hts3 & Hus & Hse & Hwin & _)
    end.
    rewrite Hset. unfold log, call_transform, mbind, log, mret. simpl.
    eexists. split; [reflexivity|].
    exists ts3. unfold tool_settings_of in *. simpl.
    split; [exact Hts3|]. split; [now rewrite Hus|].
    split; [now rewrite Hse|]. rewrite Hwin. simpl.
    apply sync_windows_shows.
Qed.


End Gestures.

Section NonPositiveStep.
Context `{Mathutils}.

Lemma remainder_nonpositive_step (x step : float) :
  PrimFloat.leb step f_0_0 = true -> _remainder_to_grid x step = Ok f_0_0.
Proof. intros Hs. unfold _remainder_to_grid. now rewrite Hs. Qed.

Lemma scan_nonpositive_step (step : float) (p : Vector) (rest : list Vector) :
  PrimFloat.leb step f_0_0 = true ->
  scan_on_grid (grid_eps step) step (p :: rest) f_0_0 = Ok (true, f_0_0).
Proof.
  intros Hs. simpl. unfold _vec_remainder_to_grid.
  rewrite !remainder_nonpositive_step by assumption. simpl.
  unfold within_eps. rewrite (grid_eps_nonneg step). reflexivity.
Qed.

(** X9: with a step at or below zero every remainder is [0.0], so the
    oracle never raises, not even on NaN or infinite coordinates, and
    answers [True] as soon as it visits a point: always in object mode and
    in the fallback branch, and in mesh edit mode exactly when a vertex is
    selected. *)
Theorem oracle_nonpositive_step (w : World) (obj : Object) (step : float) :
  PrimFloat.leb step f_0_0 = true ->
  active w = Some obj ->
  snd (_selection_has_any_on_grid step w)
  = Ok (if bool_decide (mode w = OBJECT) then true
        else if bool_decide (ob_type obj = MESH)
                && bool_decide (mode w = EDIT_MESH)
             then existsb v_select (verts obj)
             else true).
Proof.
  intros Hs Hact. unfold _selection_has_any_on_grid. rewrite Hact.
  destruct (bool_decide (mode w = OBJECT)).
  - unfold mbind, lift, log, mret, object_points.
    destruct (deref w (selected_objects w)) as [|ob obs]; simpl map;
      rewrite scan_nonpositive_step by assumption; reflexivity.
  - destruct (bool_decide (ob_type obj = MESH) && bool_decide (mode w = EDIT_MESH)).
    + unfold mbind, lift, log, mret, mesh_points.
      induction (verts obj) as [|v vs IH]; [reflexivity|].
      rewrite filter_cons. simpl existsb.
      destruct (decide (v_select v = true)) as [E|E].
      * rewrite E. simpl map.
        rewrite scan_nonpositive_step by assumption. reflexivity.
      * destruct (v_select v); [congruence|]. exact IH.
    + unfold mbind, lift, log, mret, _vec_remainder_to_grid.
      rewrite !remainder_nonpositive_step by assumption. simpl.
      unfold within_eps. rewrite (grid_eps_nonneg step). reflexivity.
Qed.

End NonPositiveStep.

Section QuantizeAgain.
Context `{Mathutils}.

Lemma quantize_vector_fixed (P Q : Vector) (s : float) :
  _quantize_vector_world P s = Ok Q -> _quantize_vector_world Q s = Ok Q.
Proof.
  intros HQ. destruct (quantize_components P Q s HQ) as (Hx & Hy & Hz).
  unfold _quantize_vector_world.
  rewrite (round_to_step_idempotent _ _ _ Hx),
    (round_to_step_idempotent _ _ _ Hy),
    (round_to_step_idempotent _ _ _ Hz).
  simpl. now destruct Q.
Qed.

Lemma quantize_vector_nonpositive (P : Vector) (s : float) :
  PrimFloat.leb s f_0_0 = true -> _quantize_vector_world P s = Ok P.
Proof.
  intros Hs. unfold _quantize_vector_world, _round_to_step. rewrite Hs. simpl.
  now destruct P.
Qed.

Lemma set_location_same (ob : Object) : set_location ob (location ob) = ob.
Proof. now destruct ob. Qed.

(** Over objects whose locations are fixed, the loop writes back what it
    reads. *)
Lemma quantize_objects_fixed (step : float) (refs : list nat)
  (obs : list Object) :
  (forall i ob, i ∈ refs -> obs !! i = Some ob -> loc_fixed step ob) ->
  quantize_objects step refs obs = (obs, Ok tt).
Proof.
  induction refs as [|i rest IH]; intros Hfix; simpl; [reflexivity|].
  destruct (obs !! i) as [ob|] eqn:Hi.
  - rewrite (Hfix i ob ltac:(left) Hi).
    rewrite set_location_same, list_insert_id by assumption.
    apply IH. intros j ob' Hj. apply Hfix. now right.
  - apply IH. intros j ob' Hj. apply Hfix. now right.
Qed.

(** Whatever the loop wrote is fixed. *)
Lemma quantize_objects_written (step : float) (refs : list nat) :
  forall (obs obs' : list Object) (r : result unit),
    quantize_objects step refs obs = (obs', r) ->
    forall i ob', obs' !! i = Some ob' ->
                  obs !! i = Some ob' \/ loc_fixed step ob'.
Proof.
  induction refs as [|j rest IH]; intros obs obs' r Hq i ob' Hi; simpl in Hq.
  - injection Hq as <- <-. now left.
  - destruct (obs !! j) as [ob|] eqn:Hj.
    + destruct (_quantize_vector_world (location ob) step) as [q|e] eqn:Hv.
      * destruct (IH _ _ _ Hq i ob' Hi) as [Hsame|Hfix]; [|now right].
        destruct (decide (i = j)) as [->|Hne].
        -- rewrite list_lookup_insert_eq in Hsame
             by (eapply lookup_lt_Some; eauto).
           injection Hsame as <-. right. unfold loc_fixed. simpl.
           now apply (quantize_vector_fixed (location ob)).
        -- rewrite list_lookup_insert_ne in Hsame by congruence. now left.
      * injection Hq as <- <-. now left.
    + apply (IH _ _ _ Hq i ob' Hi).
Qed.

Lemma quantize_objects_done (step : float) (refs : list nat) :
  forall (obs obs' : list Object),
    quantize_objects step refs obs = (obs', Ok tt) ->
    forall i ob', i ∈ refs -> obs' !! i = Some ob' -> loc_fixed step ob'.
Proof.
  induction refs as [|j rest IH]; intros obs obs' Hq i ob' Hin Hi.
  - inversion Hin.
  - simpl in Hq.
    destruct (obs !! j) as [ob|] eqn:Hj.
    + destruct (_quantize_vector_world (location ob) step) as [q|e] eqn:Hv;
        [|discriminate].
      apply elem_of_cons in Hin. destruct Hin as [->|Hin];
        [|now apply (IH _ _ Hq i ob' Hin Hi)].
      destruct (quantize_objects_written step rest _ _ _ Hq j ob' Hi)
        as [Hsame|Hfix]; [|exact Hfix].
      rewrite list_lookup_insert_eq in Hsame by (eapply lookup_lt_Some; eauto).
      injection Hsame as <-. unfold loc_fixed. simpl.
      now apply (quantize_vector_fixed (location ob)).
    + apply elem_of_cons in Hin. destruct Hin as [->|Hin];
        [|now apply (IH _ _ Hq i ob' Hin Hi)].
      destruct (quantize_objects_frame step rest obs obs' (Ok tt) Hq)
        as [Hlen _].
      apply lookup_lt_Some in Hi. rewrite Hlen in Hi.
      apply lookup_ge_None in Hj. lia.
Qed.

Lemma set_objects_same (w : World) : set_objects w (objects w) = w.
Proof. now destruct w. Qed.

Lemma quantize_objects_again (step : float) (refs : list nat)
  (obs obs' : list Object) :
  quantize_objects step refs obs = (obs', Ok tt) ->
  quantize_objects step refs obs' = (obs', Ok tt).
Proof.
  intros Hq. apply quantize_objects_fixed. intros i ob Hin Hi.
  now apply (quantize_objects_done step refs obs obs' Hq i ob).
Qed.


(** X11: with a grid size at or below zero, [HG_OT_quantize_to_grid] in
    object mode leaves the world as it was; it returns FINISHED when there
    is an active object and CANCELLED otherwise. *)
Theorem quantize_nonpositive_step_noop (w : World) (sc : Scene) :
  scene w = Some sc ->
  PrimFloat.leb (grid_size (hg sc)) f_0_0 = true ->
  mode w = OBJECT ->
  HG_OT_quantize_to_grid_execute w
  = (w, Ok (match active w with Some _ => FINISHED | None => CANCELLED end)).
Proof.
  intros Hsc Hs Hm. unfold HG_OT_quantize_to_grid_execute, mbind, get_hg.
  rewrite Hsc.
  assert (Hno : active_object w = None -> active w = None)
    by (unfold active; now intros ->).
  destruct (active_object w) as [i|] eqn:Hai; [|now rewrite Hno].
  destruct (active w) as [obj|] eqn:Hact; [|reflexivity].
  rewrite Hm. simpl.
  rewrite quantize_objects_fixed.
  - now rewrite set_objects_same.
  - intros j ob _ _. now apply quantize_vector_nonpositive.
Qed.

(** X12: object mode, an active object and an empty selection.  The
    oracle falls back on the active object and judges its origin alone;
    [HG_OT_quantize_to_grid] iterates over the empty selection, moves
    nothing and returns FINISHED. *)
Theorem empty_selection_oracle_vs_quantize (w : World) (sc : Scene)
  (obj : Object) :
  scene w = Some sc ->
  mode w = OBJECT ->
  active w = Some obj ->
  selected_objects w = [] ->
  snd (_selection_has_any_on_grid (grid_size (hg sc)) w)
  = (let* r := _vec_remainder_to_grid (translation (matrix_world obj))
                 (grid_size (hg sc)) in
     Ok (within_eps (grid_eps (grid_size (hg sc))) r))
  /\ HG_OT_quantize_to_grid_execute w = (w, Ok FINISHED).
Proof.
  intros Hsc Hm Hact Hsel. split.
  - unfold _selection_has_any_on_grid. rewrite Hact, Hm. simpl.
    unfold mbind, lift, log, mret, object_points, deref. rewrite Hsel. simpl.
    destruct (_vec_remainder_to_grid (translation (matrix_world obj))
                (grid_size (hg sc))) as [[[rx ry] rz]|e]; simpl; [|reflexivity].
    match goal with
    | |- context [if ?b then _ else _] => destruct b
    end; reflexivity.
  - unfold HG_OT_quantize_to_grid_execute, mbind, get_hg. rewrite Hsc.
    assert (Hi : exists i, active_object w = Some i).
    { unfold active in Hact. destruct (active_object w) as [i|];
        [now exists i | discriminate]. }
    destruct Hi as [i Hi]. rewrite Hi, Hact, Hm, Hsel. simpl.
    now rewrite set_objects_same.
Qed.

End QuantizeAgain.

Section StepRoundTrip.

Lemma Prim2SF_2em6 :
  Prim2SF f_2em6 = S754_finite false 4722366482869645 (-71).
Proof. vm_compute. reflexivity. Qed.

Lemma Prim2SF_5e5 :
  Prim2SF f_5e5 = S754_finite false 8589934592000000 (-34).
Proof. vm_compute. reflexivity. Qed.

(** Comparing positive finite floats: exponents first, then mantissas;
    shifting both exponents alike changes nothing. *)
Lemma leb_shift (a b a' b' : float) (ma mb : positive) (ea eb d : Z) :
  Prim2SF a = S754_finite false ma ea ->
  Prim2SF b = S754_finite false mb eb ->
  Prim2SF a' = S754_finite false ma (ea + d) ->
  Prim2SF b' = S754_finite false mb (eb + d) ->
  PrimFloat.leb a' b' = PrimFloat.leb a b.
Proof.
  intros Ha Hb Ha' Hb'. rewrite !FloatAxioms.leb_spec, Ha, Hb, Ha', Hb'.
  unfold SFleb, SFcompare.
  now rewrite (Z.add_comm ea d), (Z.add_comm eb d), Z.add_compare_mono_l.
Qed.

Lemma leb_not_ltb_eq (a b : float) (ma mb : positive) (ea eb : Z) :
  Prim2SF a = S754_finite false ma ea ->
  Prim2SF b = S754_finite false mb eb ->
  PrimFloat.leb a b = true -> PrimFloat.ltb a b = false -> a = b.
Proof.
  intros Ha Hb. rewrite FloatAxioms.leb_spec, FloatAxioms.ltb_spec, Ha, Hb.
  unfold SFleb, SFltb, SFcompare.
  destruct (Z.compare_spec ea eb) as [E|L|G]; try discriminate.
  destruct (Pos.compare_cont Eq ma mb) eqn:Hm; try discriminate.
  intros _ _. apply Pos.compare_eq in Hm.
  apply Prim2SF_inj. rewrite Ha, Hb. now subst.
Qed.

Lemma max2_of_leb (a b : float) (ma mb : positive) (ea eb : Z) :
  Prim2SF a = S754_finite false ma ea ->
  Prim2SF b = S754_finite false mb eb ->
  PrimFloat.leb a b = true -> max2 a b = b.
Proof.
  intros Ha Hb Hle. unfold max2.
  destruct (PrimFloat.ltb a b) eqn:Hlt; [reflexivity|].
  now apply (leb_not_ltb_eq a b ma mb ea eb).
Qed.

Lemma min2_of_leb (a b : float) (ma mb : positive) (ea eb : Z) :
  Prim2SF a = S754_finite false ma ea ->
  Prim2SF b = S754_finite false mb eb ->
  PrimFloat.leb b a = true -> min2 a b = b.
Proof.
  intros Ha Hb Hle. unfold min2.
  destruct (PrimFloat.ltb b a) eqn:Hlt; [reflexivity|].
  symmetry. now apply (leb_not_ltb_eq b a mb ma eb ea).
Qed.

(** Halving and doubling a normal float in range are exact. *)
Lemma half_exact (g : float) (m : positive) (e : Z) :
  Prim2SF g = S754_finite false m e -> -72 <= e <= 971 ->
  Prim2SF (PrimFloat.mul g f_0_5) = S754_finite false m (e + -1).
Proof.
  intros Hg He.
  pose proof (mul_pow2_normal g f_0_5 m e (-53) Hg ltac:(lia) Prim2SF_half
                ltac:(lia)) as Hmul.
  replace (e + -53 + 52 <=? 971) with true in Hmul
    by (symmetry; apply Z.leb_le; lia).
  rewrite Hmul. f_equal. lia.
Qed.

Lemma double_exact (g : float) (m : positive) (e : Z) :
  Prim2SF g = S754_finite false m e -> -73 <= e <= 970 ->
  Prim2SF (PrimFloat.mul g f_2_0) = S754_finite false m (e + 1).
Proof.
  intros Hg He.
  pose proof (mul_pow2_normal g f_2_0 m e (-51) Hg ltac:(lia) Prim2SF_two
                ltac:(lia)) as Hmul.
  replace (e + -51 + 52 <=? 971) with true in Hmul
    by (symmetry; apply Z.leb_le; lia).
  rewrite Hmul. f_equal. lia.
Qed.

Lemma in_range_finite (lo hi g : float) (ml mh : positive) (el eh : Z) :
  Prim2SF lo = S754_finite false ml el ->
  Prim2SF hi = S754_finite false mh eh ->
  PrimFloat.leb lo g = true -> PrimFloat.leb g hi = true ->
  exists m e, Prim2SF g = S754_finite false m e /\ el <= e <= eh.
Proof.
  intros Hlo Hhi Hl Hh.
  destruct (leb_from_positive lo g _ _ Hlo Hl) as [Hinf | (m & e & Hg & He)].
  { rewrite FloatAxioms.leb_spec, Hinf, Hhi in Hh. discriminate. }
  exists m, e. split; [exact Hg|]. split; [exact He|].
  exact (leb_to_positive hi g _ _ _ _ Hhi Hg Hh).
Qed.

Lemma half_then_double_value (g : float) :
  PrimFloat.leb f_2em6 g = true -> PrimFloat.leb g f_1e6 = true ->
  step_up (step_down g) = g.
Proof.
  intros Hl Hh.
  destruct (in_range_finite _ _ g _ _ _ _ Prim2SF_2em6 Prim2SF_1e6 Hl Hh)
    as (m & e & Hg & He).
  pose proof (half_exact g m e Hg ltac:(lia)) as Hhalf.
  assert (Hdown : step_down g = PrimFloat.mul g f_0_5).
  { unfold step_down.
    apply (max2_of_leb _ _ _ _ _ _ Prim2SF_1em6 Hhalf).
    rewrite (leb_shift f_2em6 g f_1em6 (PrimFloat.mul g f_0_5) _ _ _ _ (-1)
               Prim2SF_2em6 Hg Prim2SF_1em6 Hhalf).
    exact Hl. }
  rewrite Hdown.
  pose proof (double_exact _ m (e + -1) Hhalf ltac:(lia)) as Hdbl.
  replace (e + -1 + 1) with e in Hdbl by ring.
  assert (Eg : PrimFloat.mul (PrimFloat.mul g f_0_5) f_2_0 = g).
  { apply Prim2SF_inj. now rewrite Hdbl, Hg. }
  unfold step_up. rewrite Eg.
  exact (min2_of_leb _ _ _ _ _ _ Prim2SF_1e6 Hg Hh).
Qed.

Lemma double_then_half_value (g : float) :
  PrimFloat.leb f_1em6 g = true -> PrimFloat.leb g f_5e5 = true ->
  step_down (step_up g) = g.
Proof.
  intros Hl Hh.
  destruct (in_range_finite _ _ g _ _ _ _ Prim2SF_1em6 Prim2SF_5e5 Hl Hh)
    as (m & e & Hg & He).
  pose proof (double_exact g m e Hg ltac:(lia)) as Hdbl.
  assert (Hup : step_up g = PrimFloat.mul g f_2_0).
  { unfold step_up.
    apply (min2_of_leb _ _ _ _ _ _ Prim2SF_1e6 Hdbl).
    rewrite (leb_shift g f_5e5 (PrimFloat.mul g f_2_0) f_1e6 _ _ _ _ 1
               Hg Prim2SF_5e5 Hdbl Prim2SF_1e6).
    exact Hh. }
  rewrite Hup.
  pose proof (half_exact _ m (e + 1) Hdbl ltac:(lia)) as Hhalf.
  replace (e + 1 + -1) with e in Hhalf by ring.
  assert (Eg : PrimFloat.mul (PrimFloat.mul g f_2_0) f_0_5 = g).
  { apply Prim2SF_inj. now rewrite Hhalf, Hg. }
  unfold step_down. rewrite Eg.
  exact (max2_of_leb _ _ _ _ _ _ Prim2SF_1em6 Hg Hl).
Qed.

(** X14: from a grid size between [2e-6] and [1e6], Half then Double
    stores the grid size it started from, exactly. *)
Theorem half_then_double_restores `{Mathutils} (w : World) (sc : Scene) :
  scene w = Some sc ->
  PrimFloat.leb f_2em6 (grid_size (hg sc)) = true ->
  PrimFloat.leb (grid_size (hg sc)) f_1e6 = true ->
  exists w' sc',
    (HG_OT_grid_step_down_execute ;; HG_OT_grid_step_up_execute) w
    = (w', Ok FINISHED) /\
    scene w' = Some sc' /\
    grid_size (hg sc') = grid_size (hg sc).
Proof.
  intros Hsc Hl Hh.
  destruct (grid_step_down_stores w sc Hsc) as (w1 & sc1 & Hd & Hsc1 & Hg1).
  destruct (grid_step_up_stores w1 sc1 Hsc1) as (w2 & sc2 & Hu & Hsc2 & Hg2).
  exists w2, sc2. unfold mbind. rewrite Hd, Hu.
  split; [reflexivity|]. split; [exact Hsc2|].
  rewrite Hg2, Hg1. now apply half_then_double_value.
Qed.

(** X15: from a grid size between [1e-6] and [5e5], Double then Half
    stores the grid size it started from, exactly. *)
Theorem double_then_half_restores `{Mathutils} (w : World) (sc : Scene) :
  scene w = Some sc ->
  PrimFloat.leb f_1em6 (grid_size (hg sc)) = true ->
  PrimFloat.leb (grid_size (hg sc)) f_5e5 = true ->
  exists w' sc',
    (HG_OT_grid_step_up_execute ;; HG_OT_grid_step_down_execute) w
    = (w', Ok FINISHED) /\
    scene w' = Some sc' /\
    grid_size (hg sc') = grid_size (hg sc).
Proof.
  intros Hsc Hl Hh.
  destruct (grid_step_up_stores w sc Hsc) as (w1 & sc1 & Hu & Hsc1 & Hg1).
  destruct (grid_step_down_stores w1 sc1 Hsc1) as (w2 & sc2 & Hd & Hsc2 & Hg2).
  exists w2, sc2. unfold mbind. rewrite Hu, Hd.
  split; [reflexivity|]. split; [exact Hsc2|].
  rewrite Hg2, Hg1. now apply double_then_half_value.
Qed.

End StepRoundTrip.

Section QuantizeMesh.
Context `{Mathutils}.

Lemma quantize_verts_all (mat inv : Matrix) (step : float) (vs : list Vert) :
  Forall (vert_quantizes mat step) vs ->
  quantize_verts mat inv step vs = (map (moved_vert mat inv step) vs, Ok tt).
Proof.
  induction 1 as [|v vs Hv _ IH]; [reflexivity|].
  simpl. unfold moved_vert at 1. unfold vert_quantizes in Hv.
  destruct (v_select v).
  - specialize (Hv eq_refl).
    destruct (_quantize_vector_world (matmul mat (v_co v)) step);
      [|discriminate].
    now rewrite IH.
  - now rewrite IH.
Qed.

Lemma quantize_verts_stops (mat inv : Matrix) (step : float)
  (pre post : list Vert) (v : Vert) (e : exn) :
  Forall (vert_quantizes mat step) pre ->
  v_select v = true ->
  _quantize_vector_world (matmul mat (v_co v)) step = Raise e ->
  quantize_verts mat inv step (pre ++ v :: post)
  = (map (moved_vert mat inv step) pre ++ v :: post, Raise e).
Proof.
  intros Hpre Hsel Hq.
  induction Hpre as [|u pre Hu _ IH]; simpl.
  - now rewrite Hsel, Hq.
  - unfold moved_vert at 1. unfold vert_quantizes in Hu.
    destruct (v_select u).
    + specialize (Hu eq_refl).
      destruct (_quantize_vector_world (matmul mat (v_co u)) step);
        [|discriminate].
      now rewrite IH.
    + now rewrite IH.
Qed.

(** X13: [HG_OT_quantize_to_grid] in mesh edit mode.  If the object
    matrix has no inverse the operator raises before touching a vertex.
    Otherwise, if the Quantizer returns on every selected vertex, the
    operator finishes with each selected vertex at
    [inv @ quantize(mat @ co)] and the others as they were; and if it
    raises on a selected vertex, the operator raises the same exception
    with the selected vertices before that one already moved and the
    rest untouched. *)
Theorem quantize_edit_mesh_outcome (w : World) (sc : Scene) (i : nat)
  (obj : Object) :
  scene w = Some sc ->
  active_object w = Some i ->
  objects w !! i = Some obj ->
  mode w = EDIT_MESH ->
  ob_type obj = MESH ->
  let mat := matrix_world obj in
  let step := grid_size (hg sc) in
  let store (vs : list Vert) :=
    set_objects w (<[i := set_verts obj vs]> (objects w)) in
  match inverted mat with
  | Raise e => HG_OT_quantize_to_grid_execute w = (w, Raise e)
  | Ok inv =>
      (Forall (vert_quantizes mat step) (verts obj) ->
       HG_OT_quantize_to_grid_execute w
       = (store (map (moved_vert mat inv step) (verts obj)), Ok FINISHED))
      /\ (forall (pre post : list Vert) (v : Vert) (e : exn),
            verts obj = pre ++ v :: post ->
            Forall (vert_quantizes mat step) pre ->
            v_select v = true ->
            _quantize_vector_world (matmul mat (v_co v)) step = Raise e ->
            HG_OT_quantize_to_grid_execute w
            = (store (map (moved_vert mat inv step) pre ++ v :: post),
               Raise e))
  end.
Proof.
  intros Hsc Hai Hi Hm Ht mat step store.
  assert (Hact : active w = Some obj) by (unfold active; now rewrite Hai).
  assert (Hex : HG_OT_quantize_to_grid_execute w
                = match inverted mat with
                  | Ok inv =>
                      let '(vs, r) := quantize_verts mat inv step (verts obj) in
                      (store vs, let* _ := r in Ok FINISHED)
                  | Raise e => (w, Raise e)
                  end).
  { unfold HG_OT_quantize_to_grid_execute, mbind, get_hg.
    rewrite Hsc, Hai, Hact, Hm, Ht. reflexivity. }
  rewrite Hex. destruct (inverted mat) as [inv|e]; [|reflexivity].
  split.
  - intros Hall. now rewrite (quantize_verts_all mat inv step _ Hall).
  - intros pre post v e Hv Hpre Hsel Hq.
    now rewrite Hv, (quantize_verts_stops mat inv step pre post v e Hpre Hsel Hq).
Qed.

End QuantizeMesh.

Section Keymap.
Context `{KeymapHost}.

Lemma list_pop_snoc {A : Type} (l : list A) (x : A) :
  list_pop (l ++ [x]) = Some (l, x).
Proof. unfold list_pop. rewrite rev_app_distr. simpl. now rewrite rev_involutive. Qed.

Lemma unregister_loop_spec (l : list (KeyMap * KeyMapItem)) :
  forall (h : WM) (fuel : nat),
    (length l <= fuel)%nat ->
    unregister_loop fuel (mkKeyState h l) = mkKeyState (remove_all l h) [].
Proof.
  induction l as [|p l IH] using rev_ind; intros h fuel Hf.
  - destruct fuel; reflexivity.
  - rewrite length_app in Hf. simpl in Hf.
    destruct fuel as [|n]; [lia|]. simpl.
    rewrite list_pop_snoc. destruct p as [km kmi].
    rewrite IH by lia. unfold remove_all.
    rewrite rev_app_distr. reflexivity.
Qed.

Lemma unregister_keymap_eq (st : KeyState) :
  _unregister_keymap st
  = (mkKeyState (remove_all (addon_keymaps st) (wm st)) [], Ok tt).
Proof.
  unfold _unregister_keymap. destruct st as [h l]. simpl.
  now rewrite unregister_loop_spec.
Qed.

(** X16: [_unregister_keymap] returns normally whatever the host's
    removals raise, leaves [addon_keymaps] empty, and has handed every
    recorded item to [keymap_items.remove] once, the newest first. *)
Theorem unregister_keymap_clears (st : KeyState) :
  _unregister_keymap st
  = (mkKeyState (remove_all (addon_keymaps st) (wm st)) [], Ok tt).
Proof. apply unregister_keymap_eq. Qed.

Lemma register_keymap_spec (st : KeyState) :
  exists st',
    _register_keymap st = (st', Ok tt) /\
    if keyconfigs_addon (wm st)
    then exists km k1 k2 k3 k4 k5,
        addon_keymaps st'
        = addon_keymaps st
            ++ [(km, k1); (km, k2); (km, k3); (km, k4); (km, k5)]
    else st' = st.
Proof.
  unfold _register_keymap.
  destruct (keyconfigs_addon (wm st)); simpl; [|now exists st].
  destruct (keymaps_new_3d_view (wm st)) as [h km].
  unfold mbind, bind_key. simpl.
  destruct (keymap_items_new km hg_move KEY_G h) as [h1 k1]. simpl.
  destruct (keymap_items_new km hg_rotate KEY_R h1) as [h2 k2]. simpl.
  destruct (keymap_items_new km hg_scale KEY_S h2) as [h3 k3]. simpl.
  destruct (keymap_items_new km hg_grid_step_down LEFT_BRACKET h3)
    as [h4 k4]. simpl.
  destruct (keymap_items_new km hg_grid_step_up RIGHT_BRACKET h4)
    as [h5 k5]. simpl.
  eexists. split; [reflexivity|]. exists km, k1, k2, k3, k4, k5. simpl.
  now rewrite <- !app_assoc.
Qed.

(** X17: [_register_keymap] does nothing when the window manager has no
    add-on key configuration; otherwise it appends five pairs, all on the
    one keymap it asked for, after the pairs already recorded: called
    again without [_unregister_keymap], it records its bindings again. *)
Theorem register_keymap_appends (st : KeyState) :
  exists st',
    _register_keymap st = (st', Ok tt) /\
    if keyconfigs_addon (wm st)
    then exists km k1 k2 k3 k4 k5,
        addon_keymaps st'
        = addon_keymaps st
            ++ [(km, k1); (km, k2); (km, k3); (km, k4); (km, k5)]
    else st' = st.
Proof. apply register_keymap_spec. Qed.

(** X18: whatever was recorded before, [_update_override_hotkeys]
    returns with [addon_keymaps] holding either exactly five pairs on one
    keymap (when the scene asks for the override and the add-on key
    configuration exists) or nothing: toggling the option does not pile
    up bindings. *)
Theorem update_override_hotkeys_rebinds (ctx_scene : option Scene)
  (st : KeyState) :
  let cleared := mkKeyState (remove_all (addon_keymaps st) (wm st)) [] in
  let wanted := match ctx_scene with
                | Some sc => override_hotkeys (hg sc)
                | None => false
                end in
  exists st',
    _update_override_hotkeys ctx_scene st = (st', Ok tt) /\
    if wanted && keyconfigs_addon (wm cleared)
    then exists km k1 k2 k3 k4 k5,
        addon_keymaps st' = [(km, k1); (km, k2); (km, k3); (km, k4); (km, k5)]
    else st' = cleared.
Proof.
  intros cleared wanted. unfold _update_override_hotkeys, mbind.
  rewrite unregister_keymap_eq. fold cleared.
  destruct ctx_scene as [sc|]; simpl in wanted; subst wanted.
  - destruct (override_hotkeys (hg sc)); simpl.
    + destruct (register_keymap_spec cleared) as (st' & Hr & Hst).
      exists st'. split; [exact Hr|].
      change (keyconfigs_addon (wm cleared))
        with (keyconfigs_addon (remove_all (addon_keymaps st) (wm st))) in Hst.
      destruct (keyconfigs_addon (remove_all (addon_keymaps st) (wm st)));
        exact Hst.
    + now exists cleared.
  - now exists cleared.
Qed.

End Keymap.

Section KeymapRoundTrip.
Context `{KeymapHost}.

Lemma remove_all_snoc (l : list (KeyMap * KeyMapItem)) (km : KeyMap)
  (kmi : KeyMapItem) (h : WM) :
  remove_all (l ++ [(km, kmi)]) h
  = remove_all l (fst (keymap_items_remove km kmi h)).
Proof. unfold remove_all. now rewrite rev_app_distr. Qed.

Lemma bind_key_undone (km : KeyMap) (op : OpId) (k : KeyType)
  (h : WM) (l : list (KeyMap * KeyMapItem)) :
  new_then_remove_restores ->
  exists st',
    bind_key km op k (mkKeyState h l) = (st', Ok tt) /\
    remove_all (addon_keymaps st') (wm st') = remove_all l h.
Proof.
  intros Hlaw. unfold bind_key. simpl.
  specialize (Hlaw km op k h).
  destruct (keymap_items_new km op k h) as [h' kmi]. simpl in Hlaw.
  eexists. split; [reflexivity|]. simpl.
  now rewrite remove_all_snoc, Hlaw.
Qed.

(** X19: on a host where removing the item just created restores the
    key configuration, [_register_keymap] followed by
    [_unregister_keymap] leaves the host as [keymaps.new] left it, less
    the previously recorded items, and [addon_keymaps] empty. *)
Theorem register_then_unregister_restores (st : KeyState) :
  new_then_remove_restores ->
  keyconfigs_addon (wm st) = true ->
  (_register_keymap ;; _unregister_keymap) st
  = (mkKeyState (remove_all (addon_keymaps st)
                   (fst (keymaps_new_3d_view (wm st)))) [], Ok tt).
Proof.
  intros Hlaw Hav. unfold mbind at 1. unfold _register_keymap.
  rewrite Hav. simpl.
  destruct (keymaps_new_3d_view (wm st)) as [h km]. simpl.
  unfold mbind.
  destruct (bind_key_undone km hg_move KEY_G h (addon_keymaps st) Hlaw)
    as ([h1 l1] & -> & E1). simpl in E1.
  destruct (bind_key_undone km hg_rotate KEY_R h1 l1 Hlaw)
    as ([h2 l2] & -> & E2). simpl in E2.
  destruct (bind_key_undone km hg_scale KEY_S h2 l2 Hlaw)
    as ([h3 l3] & -> & E3). simpl in E3.
  destruct (bind_key_undone km hg_grid_step_down LEFT_BRACKET h3 l3 Hlaw)
    as ([h4 l4] & -> & E4). simpl in E4.
  destruct (bind_key_undone km hg_grid_step_up RIGHT_BRACKET h4 l4 Hlaw)
    as ([h5 l5] & -> & E5). simpl in E5.
  rewrite unregister_keymap_eq. simpl.
  now rewrite E5, E4, E3, E2, E1.
Qed.

End KeymapRoundTrip.

Section Tick.
Context `{Mathutils}.

(** X20: the deferred [_tick].  Without a scene it asks to be called
    again in [0.2] seconds and changes nothing.  With a scene it stops
    the timer at once: the [except] branch is not taken, the viewport
    grid shows [grid_size], the snap baseline is applied when there are
    tool settings, and the selection and the objects are as before. *)
Theorem tick_outcome (w : World) :
  match scene w with
  | None => _tick w = (w, Retry f_0_2 None)
  | Some sc =>
      exists w' sc',
        _tick w = (w', Stop) /\
        scene w' = Some sc' /\
        hg sc' = hg sc /\
        tool_settings sc' = match tool_settings sc with
                            | Some ts => Some (baseline_snap ts)
                            | None => None
                            end /\
        viewport_shows (grid_size (hg sc)) (windows w') /\
        same_outside_view3d (windows w) (windows w') /\
        mode w' = mode w /\ active_object w' = active_object w /\
        selected_objects w' = selected_objects w /\
        objects w' = objects w
  end.
Proof.
  unfold _tick. destruct (scene w) as [sc|] eqn:Hsc; [|reflexivity].
  unfold mbind. rewrite (sync_viewport_grid_eq w sc Hsc).
  destruct (tool_settings sc) as [ts|] eqn:Hts.
  - rewrite (apply_tool_snap_eq _ sc ts) by (simpl; assumption).
    eexists _, _. split; [reflexivity|]. simpl.
    split; [reflexivity|]. split; [reflexivity|]. split; [reflexivity|].
    rewrite sync_windows_idem.
    split; [apply sync_windows_shows|]. split; [apply sync_windows_frame|].
    repeat split.
  - unfold _apply_tool_snap. simpl. rewrite Hsc, Hts. simpl.
    exists (emit (emit (set_windows w
                          (map (sync_window (grid_size (hg sc))) (windows w)))
                    (LogGridSynced (grid_size (hg sc))))
              LogSkipNoToolSettings), sc.
    simpl. rewrite Hsc, Hts.
    split; [reflexivity|]. split; [reflexivity|]. split; [reflexivity|].
    split; [reflexivity|].
    split; [apply sync_windows_shows|]. split; [apply sync_windows_frame|].
    repeat split.
Qed.

End Tick.

Section QuantizeObjectsResult.
Context `{Mathutils}.

Lemma quantize_objects_returns (step : float) (refs : list nat) :
  forall obs : list Object,
    locations_quantize step refs obs ->
    exists obs', quantize_objects step refs obs = (obs', Ok tt).
Proof.
  induction refs as [|j rest IH]; intros obs Hok; simpl.
  - now exists obs.
  - destruct (obs !! j) as [ob|] eqn:Hj.
    + pose proof (Hok j ob ltac:(left) Hj) as Hq.
      destruct (_quantize_vector_world (location ob) step) as [q|e] eqn:Hv;
        [|discriminate].
      apply IH. intros i ob' Hin Hi.
      destruct (decide (i = j)) as [->|Hne].
      * rewrite list_lookup_insert_eq in Hi by (eapply lookup_lt_Some; eauto).
        injection Hi as <-. simpl.
        now rewrite (quantize_vector_fixed _ _ _ Hv).
      * rewrite list_lookup_insert_ne in Hi by congruence.
        apply (Hok i ob'); [now right | exact Hi].
    + apply IH. intros i ob' Hin Hi. apply (Hok i ob'); [now right | exact Hi].
Qed.

Lemma quantize_objects_result (step : float) (refs : list nat) :
  forall (obs obs' : list Object),
    quantize_objects step refs obs = (obs', Ok tt) ->
    forall i ob, i ∈ refs -> obs !! i = Some ob ->
      exists ob', obs' !! i = Some ob' /\
                  _quantize_vector_world (location ob) step
                  = Ok (location ob').
Proof.
  induction refs as [|j rest IH]; intros obs obs' Hq i ob Hin Hi.
  - inversion Hin.
  - simpl in Hq. destruct (obs !! j) as [obj|] eqn:Hj.
    + destruct (_quantize_vector_world (location obj) step) as [q|e] eqn:Hv;
        [|discriminate].
      assert (Hlen : (j < length obs)%nat) by (eapply lookup_lt_Some; eauto).
      destruct (decide (i = j)) as [->|Hne].
      * assert (ob = obj) by congruence. subst obj.
        destruct (decide (j ∈ rest)) as [Hjr|Hjr].
        -- destruct (IH _ _ Hq j (set_location ob q) Hjr) as (ob' & Hi' & Hq').
           { now rewrite list_lookup_insert_eq. }
           exists ob'. split; [exact Hi'|]. simpl in Hq'.
           rewrite (quantize_vector_fixed _ _ _ Hv) in Hq'.
           rewrite Hv. exact Hq'.
        -- destruct (quantize_objects_frame step rest _ _ _ Hq) as [_ Hfr].
           destruct (Hfr j (set_location ob q)) as (ob' & Hi' & _ & _ & _ & Hl).
           { now rewrite list_lookup_insert_eq. }
           exists ob'. split; [exact Hi'|]. rewrite (Hl Hjr). exact Hv.
      * apply elem_of_cons in Hin. destruct Hin as [->|Hin]; [congruence|].
        apply (IH _ _ Hq i ob Hin).
        now rewrite list_lookup_insert_ne by congruence.
    + apply elem_of_cons in Hin. destruct Hin as [->|Hin]; [congruence|].
      now apply (IH _ _ Hq i ob Hin).
Qed.

(** X21: in object mode with an active object, if the Quantizer returns
    on the location of every selected object, [HG_OT_quantize_to_grid]
    finishes and every selected object ends at the quantized value of the
    location it started from, also when it is selected more than once. *)
Theorem quantize_object_mode_result (w : World) (sc : Scene) (obj : Object) :
  scene w = Some sc ->
  mode w = OBJECT ->
  active w = Some obj ->
  locations_quantize (grid_size (hg sc)) (selected_objects w) (objects w) ->
  exists w',
    HG_OT_quantize_to_grid_execute w = (w', Ok FINISHED) /\
    forall i ob, i ∈ selected_objects w -> objects w !! i = Some ob ->
      exists ob', objects w' !! i = Some ob' /\
                  _quantize_vector_world (location ob) (grid_size (hg sc))
                  = Ok (location ob').
Proof.
  intros Hsc Hm Hact Hok.
  destruct (quantize_objects_returns _ _ _ Hok) as [obs' Hq].
  exists (set_objects w obs'). split.
  - unfold HG_OT_quantize_to_grid_execute, mbind, get_hg. rewrite Hsc.
    assert (Hi : exists i, active_object w = Some i).
    { unfold active in Hact. destruct (active_object w) as [i|];
        [now exists i | discriminate]. }
    destruct Hi as [i Hi]. rewrite Hi, Hact, Hm. simpl. now rewrite Hq.
  - intros i ob Hin Hi. simpl.
    apply (quantize_objects_result _ _ _ _ Hq i ob Hin Hi).
Qed.


End QuantizeObjectsResult.

(** ** Examples of the further properties *)

(** The enabled rotate gesture on the example world. *)
Lemma enabled_gesture_forces_increment_snap_witness :
  exists w',
    HG_OT_rotate_invoke (object_world true origin)
    = (w', Ok (host_result op_rotate (Some snap_kw)))
    /\ snap_forced f_1_0 w'.
Proof.
  exact (proj1 (@enabled_gesture_forces_increment_snap TranslationHost
                  (object_world true origin) (example_scene true)
                  example_tool_settings eq_refl eq_refl eq_refl)).
Defined.


(** Step [0.0] and a NaN origin: the oracle answers [True]. *)
Lemma oracle_nonpositive_step_witness :
  snd (@_selection_has_any_on_grid TranslationHost f_0_0
         (object_world true nan_point)) = Ok true.
Proof.
  exact (@oracle_nonpositive_step TranslationHost
           (object_world true nan_point)
           (@mkObject TranslationHost OTHER_TYPE nan_point nan_point [])
           f_0_0 eq_refl eq_refl).
Defined.


(** Grid size [0.0]: the object at [(0.3, 0, 0)] stays there. *)
Lemma quantize_nonpositive_step_noop_witness :
  HG_OT_quantize_to_grid_execute
    (stepped_world f_0_0 true (mkVector f_0_3 f_0_0 f_0_0))
  = (stepped_world f_0_0 true (mkVector f_0_3 f_0_0 f_0_0), Ok FINISHED).
Proof.
  exact (@quantize_nonpositive_step_noop TranslationHost
           (stepped_world f_0_0 true (mkVector f_0_3 f_0_0 f_0_0))
           (scene_with_step f_0_0) eq_refl eq_refl eq_refl).
Defined.

(** The active, unselected object at [(0.3, 0, 0)] is off the grid for the
    oracle and is not moved by the operator. *)
Lemma empty_selection_oracle_vs_quantize_witness :
  snd (_selection_has_any_on_grid f_1_0
         (stepped_world f_1_0 false (mkVector f_0_3 f_0_0 f_0_0)))
  = Ok false
  /\ HG_OT_quantize_to_grid_execute
       (stepped_world f_1_0 false (mkVector f_0_3 f_0_0 f_0_0))
     = (stepped_world f_1_0 false (mkVector f_0_3 f_0_0 f_0_0), Ok FINISHED).
Proof.
  destruct (@empty_selection_oracle_vs_quantize TranslationHost
              (stepped_world f_1_0 false (mkVector f_0_3 f_0_0 f_0_0))
              (scene_with_step f_1_0)
              (@mkObject TranslationHost OTHER_TYPE
                 (mkVector f_0_3 f_0_0 f_0_0) (mkVector f_0_3 f_0_0 f_0_0) [])
              eq_refl eq_refl eq_refl eq_refl) as [Hor Hq].
  split; [|exact Hq]. etransitivity; [exact Hor|]. vm_compute. reflexivity.
Defined.

(** A mesh with one selected and one unselected vertex, under a
    translation: the operator finishes. *)
Lemma quantize_edit_mesh_outcome_witness :
  snd (@HG_OT_quantize_to_grid_execute TranslationHost
         (mesh_world true [mkVert true (mkVector f_0_3 f_0_0 f_0_0);
                           mkVert false (mkVector f_0_3 f_0_0 f_0_0)]))
  = Ok FINISHED.
Proof.
  pose proof (@quantize_edit_mesh_outcome TranslationHost
                (mesh_world true [mkVert true (mkVector f_0_3 f_0_0 f_0_0);
                                  mkVert false (mkVector f_0_3 f_0_0 f_0_0)])
                (example_scene true) 0%nat
                (@mkObject TranslationHost MESH origin origin
                   [mkVert true (mkVector f_0_3 f_0_0 f_0_0);
                    mkVert false (mkVector f_0_3 f_0_0 f_0_0)])
                eq_refl eq_refl eq_refl eq_refl eq_refl) as Hth.
  simpl in Hth. destruct Hth as [Hall _].
  rewrite Hall; [reflexivity|].
  repeat constructor; intros Hsel; vm_compute; reflexivity.
Defined.

(** From the default step [1.0]. *)
Lemma half_then_double_restores_witness :
  exists w' sc',
    (HG_OT_grid_step_down_execute ;; HG_OT_grid_step_up_execute)
      (empty_world true) = (w', Ok FINISHED) /\
    scene w' = Some sc' /\
    grid_size (hg sc') = f_1_0.
Proof.
  apply (@half_then_double_restores TranslationHost (empty_world true)
           (example_scene true)); vm_compute; reflexivity.
Defined.

(** From the default step [1.0], the other way round. *)
Lemma double_then_half_restores_witness :
  exists w' sc',
    (HG_OT_grid_step_up_execute ;; HG_OT_grid_step_down_execute)
      (empty_world true) = (w', Ok FINISHED) /\
    scene w' = Some sc' /\
    grid_size (hg sc') = f_1_0.
Proof.
  apply (@double_then_half_restores TranslationHost (empty_world true)
           (example_scene true)); vm_compute; reflexivity.
Defined.

(** On the stack host, removing the item just pushed pops it. *)
Lemma stack_host_restores : @new_then_remove_restores StackKeymapHost.
Proof.
  intros [] op k h. simpl.
  rewrite length_app. simpl.
  replace (length h <? length h + 1)%nat with true
    by (symmetry; apply Nat.ltb_lt; lia).
  rewrite take_app_length.
  rewrite drop_ge by (rewrite length_app; simpl; lia).
  now rewrite app_nil_r.
Qed.

(** On the stack host, from nothing recorded and no binding. *)
Lemma register_then_unregister_restores_witness :
  (@_register_keymap StackKeymapHost ;; _unregister_keymap)
    (@mkKeyState StackKeymapHost [] [])
  = (@mkKeyState StackKeymapHost [] [], Ok tt).
Proof.
  exact (@register_then_unregister_restores StackKeymapHost
           (@mkKeyState StackKeymapHost [] []) stack_host_restores eq_refl).
Defined.

(** One selected object at [(0.3, 0, 0)], step [1.0]: the operator
    finishes. *)
Lemma quantize_object_mode_result_witness :
  exists w',
    HG_OT_quantize_to_grid_execute
      (object_world true (mkVector f_0_3 f_0_0 f_0_0))
    = (w', Ok FINISHED).
Proof.
  destruct (@quantize_object_mode_result TranslationHost
              (object_world true (mkVector f_0_3 f_0_0 f_0_0))
              (example_scene true)
              (@mkObject TranslationHost OTHER_TYPE
                 (mkVector f_0_3 f_0_0 f_0_0) (mkVector f_0_3 f_0_0 f_0_0) [])
              eq_refl eq_refl eq_refl) as (w' & Hex & _).
  - intros i ob Hin Hi.
    apply elem_of_cons in Hin. destruct Hin as [->|Hin]; [|inversion Hin].
    injection Hi as <-. vm_compute. reflexivity.
  - now exists w'.
Defined.

